(** * Minesweeper board engine (components.py): model and verified properties

    A shallow embedding of [CellState], [Cell] and [Board] of
    [src/components.py].  Python integers are [Z]; the list [Board.cells]
    is a [list Cell] read and written by position; the in-place mutation of
    cell objects is written as explicit state passing on the board; the
    exception raised by [random.sample] is a result constructor that carries
    the board as it is when the exception leaves the method.

    [random.sample] is a function of the numbers drawn by the generator,
    which every operation that can place mines takes as an argument.

    [reveal] is recursive. [reveal] below is the method run to completion:
    its recursion is bounded by the number of cells of the board, which is
    shown to be enough. [reveal_limited depth] is the method under the
    interpreter's recursion limit, when [depth] more nested frames of
    [reveal] are allowed: a cascade that needs more ends in
    [RecursionError], with the board as the cascade has written it so far.
    The two agree when [depth] exceeds the number of hidden cells. *)

From Stdlib Require Import ZArith Lia Bool List.
From stdpp Require Import base tactics option list list_numbers.
Import ListNotations.
Open Scope Z_scope.

(** ** Data model *)

Record CellState := mkCellState {
  is_mine : bool;
  is_revealed : bool;
  is_flagged : bool;
  adjacent : Z
}.

Record Cell := mkCell {
  col : Z;
  row : Z;
  state : CellState
}.

Record Board := mkBoard {
  cols : Z;
  rows : Z;
  num_mines : Z;
  cells : list Cell;
  mines_placed : bool;
  revealed_count : Z;
  game_over : bool;
  win : bool
}.

(** [CellState()] with the default arguments of [__init__]. *)
Definition default_state : CellState := mkCellState false false false 0.

(** [Cell(col, row)]. *)
Definition new_Cell (c r : Z) : Cell := mkCell c r default_state.

(** [range(n)]: empty when [n <= 0]. *)
Definition range (n : Z) : list Z := seqZ 0 n.

(** [[f(c, r) for r in range(rows) for c in range(cols)]]. *)
Definition grid {A} (f : Z -> Z -> A) (ncols nrows : Z) : list A :=
  flat_map (fun r => map (fun c => f c r) (range ncols)) (range nrows).

(** [Board(cols, rows, mines)]. *)
Definition new_Board (ncols nrows mines : Z) : Board :=
  mkBoard ncols nrows mines (grid new_Cell ncols nrows) false 0 false false.

(** ** Results of methods that can raise *)

(** [ValueError] is raised by [random.sample], [RecursionError] by the
    interpreter when a call would exceed the recursion limit. *)
Inductive exn := ValueError | RecursionError.

(** [Raise e b]: the exception [e] leaves the call with the board in state
    [b]. [OutOfFuel] is an artefact of the bounded recursion of the model. *)
Inductive result :=
| Ok (b : Board)
| Raise (e : exn) (b : Board)
| OutOfFuel.

Definition bind (m : result) (k : Board -> result) : result :=
  match m with
  | Ok b => k b
  | Raise e b => Raise e b
  | OutOfFuel => OutOfFuel
  end.

Notation "'do' b <- m ; k" := (bind m (fun b => k))
  (at level 10, b name, m at level 100, k at level 200).

(** ** Field updates (attribute assignments) *)

Definition set_is_mine (v : bool) (s : CellState) : CellState :=
  mkCellState v (is_revealed s) (is_flagged s) (adjacent s).
Definition set_is_revealed (v : bool) (s : CellState) : CellState :=
  mkCellState (is_mine s) v (is_flagged s) (adjacent s).
Definition set_is_flagged (v : bool) (s : CellState) : CellState :=
  mkCellState (is_mine s) (is_revealed s) v (adjacent s).
Definition set_adjacent (v : Z) (s : CellState) : CellState :=
  mkCellState (is_mine s) (is_revealed s) (is_flagged s) v.

Definition on_state (f : CellState -> CellState) (c : Cell) : Cell :=
  mkCell (col c) (row c) (f (state c)).

Definition with_cells (b : Board) (cs : list Cell) : Board :=
  mkBoard (cols b) (rows b) (num_mines b) cs (mines_placed b)
          (revealed_count b) (game_over b) (win b).
Definition with_mines_placed (b : Board) (v : bool) : Board :=
  mkBoard (cols b) (rows b) (num_mines b) (cells b) v
          (revealed_count b) (game_over b) (win b).
Definition with_revealed_count (b : Board) (v : Z) : Board :=
  mkBoard (cols b) (rows b) (num_mines b) (cells b) (mines_placed b)
          v (game_over b) (win b).
Definition with_game_over (b : Board) (v : bool) : Board :=
  mkBoard (cols b) (rows b) (num_mines b) (cells b) (mines_placed b)
          (revealed_count b) v (win b).
Definition with_win (b : Board) (v : bool) : Board :=
  mkBoard (cols b) (rows b) (num_mines b) (cells b) (mines_placed b)
          (revealed_count b) (game_over b) v.

(** [self.cells[idx].state]: every read in the source follows [is_inbounds]
    (or takes its coordinates from [all_positions] or [neighbors]), so [idx]
    is a position of the list ([index_lt_length] below); the default is never
    returned on such a board. *)
Definition cell_state (b : Board) (idx : Z) : CellState :=
  match cells b !! Z.to_nat idx with
  | Some c => state c
  | None => default_state
  end.

(** [self.cells[idx].state.<field> = ...]. *)
Definition update_state (b : Board) (idx : Z) (f : CellState -> CellState) : Board :=
  with_cells b (alter (on_state f) (Z.to_nat idx) (cells b)).

(** ** Geometry *)

Definition index (b : Board) (c r : Z) : Z := r * cols b + c.

Definition is_inbounds (b : Board) (c r : Z) : bool :=
  (0 <=? c) && (c <? cols b) && ((0 <=? r) && (r <? rows b)).

Definition deltas : list (Z * Z) :=
  [ (-1, -1); (0, -1); (1, -1);
    (-1, 0);           (1, 0);
    (-1, 1);  (0, 1);  (1, 1) ].

Definition neighbors (b : Board) (c r : Z) : list (Z * Z) :=
  List.filter (fun p => is_inbounds b (fst p) (snd p))
              (map (fun d => (c + fst d, r + snd d)) deltas).

(** ** random.sample

    [random.sample(pool, k)] raises [ValueError] unless [0 <= k <= len(pool)]
    and otherwise returns [k] elements taken at pairwise distinct positions of
    [pool]. The generator is an explicit argument: the list [rnd] of numbers
    it draws. Each draw selects one of the positions still available. *)

Fixpoint draw {A} (rnd : list nat) (pool : list A) (k : nat) : list A :=
  match k with
  | O => []
  | S k' =>
      let j := (hd 0%nat rnd mod length pool)%nat in
      match pool !! j with
      | Some x => x :: draw (tl rnd) (delete j pool) k'
      | None => []
      end
  end.

Definition random_sample {A} (rnd : list nat) (pool : list A) (k : Z)
  : option (list A) :=
  if (k <? 0) || (Z.of_nat (length pool) <? k) then None
  else Some (draw rnd pool (Z.to_nat k)).

(** ** Mine placement *)

Definition coord_eqb (p q : Z * Z) : bool :=
  (fst p =? fst q) && (snd p =? snd q).

(** [p in forbidden] for the set [forbidden]. *)
Definition mem (p : Z * Z) (s : list (Z * Z)) : bool := existsb (coord_eqb p) s.

Definition forbidden (b : Board) (safe_col safe_row : Z) : list (Z * Z) :=
  (safe_col, safe_row) :: neighbors b safe_col safe_row.

Definition all_positions (b : Board) : list (Z * Z) :=
  grid (fun c r => (c, r)) (cols b) (rows b).

Definition pool (b : Board) (safe_col safe_row : Z) : list (Z * Z) :=
  List.filter (fun p => negb (mem p (forbidden b safe_col safe_row)))
              (all_positions b).

(** Body of the first loop: [self.cells[idx].state.is_mine = True]. *)
Definition lay_mine (b : Board) (p : Z * Z) : Board :=
  update_state b (index b (fst p) (snd p)) (set_is_mine true).

(** The inner counting loop over [self.neighbors(c, r)]. *)
Definition count_adjacent (b : Board) (c r : Z) : Z :=
  fold_left (fun count p =>
               if is_mine (cell_state b (index b (fst p) (snd p)))
               then count + 1 else count)
            (neighbors b c r) 0.

(** Body of the second (nested) loop, for one [(c, r)]. *)
Definition count_cell (b : Board) (c r : Z) : Board :=
  let idx := index b c r in
  if is_mine (cell_state b idx) then b
  else update_state b idx (set_adjacent (count_adjacent b c r)).

(** [for c in range(self.cols): ...] of the second loop, for one row. *)
Definition count_row (b : Board) (r : Z) : Board :=
  fold_left (fun b c => count_cell b c r) (range (cols b)) b.

(** [for r in range(self.rows): ...]: the whole counting pass. *)
Definition count_all (b : Board) : Board :=
  fold_left count_row (range (rows b)) b.

Definition place_mines (rnd : list nat) (b : Board) (safe_col safe_row : Z)
  : result :=
  match random_sample rnd (pool b safe_col safe_row) (num_mines b) with
  | None => Raise ValueError b
  | Some mine_positions =>
      let b := fold_left lay_mine mine_positions b in
      let b := count_all b in
      Ok (with_mines_placed b true)
  end.

(** ** Reveal, flags, end of game *)

Definition _reveal_all_mines (b : Board) : Board :=
  with_cells b
    (map (fun cell => if is_mine (state cell)
                      then on_state (set_is_revealed true) cell else cell)
         (cells b)).

Definition _check_win (b : Board) : Board :=
  let total_cells := cols b * rows b in
  if (revealed_count b =? total_cells - num_mines b) && negb (game_over b)
  then with_cells (with_win b true)
         (map (fun cell =>
                 if negb (is_revealed (state cell)) && negb (is_mine (state cell))
                 then on_state (set_is_revealed true) cell else cell)
              (cells b))
  else b.

(** The loop [for nc, nr in self.neighbors(col, row): self.reveal(nc, nr)]. *)
Fixpoint reveal_each (rec : Board -> Z -> Z -> result) (ps : list (Z * Z))
  (b : Board) : result :=
  match ps with
  | [] => Ok b
  | p :: ps' => do b' <- rec b (fst p) (snd p); reveal_each rec ps' b'
  end.

(** The body of [reveal], with the recursive call as a parameter. *)
Definition reveal_body (rec : Board -> Z -> Z -> result) (rnd : list nat)
  (b : Board) (c r : Z) : result :=
  if negb (is_inbounds b c r) then Ok b else
  do b <- (if negb (mines_placed b) then place_mines rnd b c r else Ok b);
  let idx := index b c r in
  if is_revealed (cell_state b idx) || is_flagged (cell_state b idx) then Ok b
  else
    let b := update_state b idx (set_is_revealed true) in
    let b := with_revealed_count b (revealed_count b + 1) in
    if is_mine (cell_state b idx)
    then Ok (_reveal_all_mines (with_game_over b true))
    else
      do b <- (if adjacent (cell_state b idx) =? 0
               then reveal_each rec (neighbors b c r) b else Ok b);
      Ok (_check_win b).

(** [reveal] with its call depth bounded by [fuel]. *)
Fixpoint reveal_rec (fuel : nat) (rnd : list nat) (b : Board) (c r : Z)
  : result :=
  match fuel with
  | O => OutOfFuel
  | S fuel' => reveal_body (reveal_rec fuel' rnd) rnd b c r
  end.

(** [Board.reveal] run to its end, as it is when the recursion limit is not
    met: a call nests at most one frame per cell of the board below the
    first one. *)
Definition reveal (rnd : list nat) (b : Board) (c r : Z) : result :=
  reveal_rec (S (length (cells b))) rnd b c r.

(** [Board.reveal] under the recursion limit of the interpreter: [depth] is
    the number of nested frames of [reveal] that the limit still allows when
    the method is called (the frames of the helper methods that a frame of
    [reveal] calls are taken to fit above it). Entering [reveal] with none
    left raises [RecursionError]; no frame catches it, so it leaves the
    outermost call, skipping the rest of every loop and every [_check_win]
    on the way, with the cells opened so far still open and counted. *)
Fixpoint reveal_limited (depth : nat) (rnd : list nat) (b : Board) (c r : Z)
  : result :=
  match depth with
  | O => Raise RecursionError b
  | S depth' => reveal_body (reveal_limited depth' rnd) rnd b c r
  end.

Definition toggle_flag (b : Board) (c r : Z) : Board :=
  if negb (is_inbounds b c r) then b else
  let idx := index b c r in
  if negb (is_revealed (cell_state b idx))
  then update_state b idx
         (fun s => set_is_flagged (negb (is_flagged s)) s)
  else b.

(** [flagged_count]: the body of the method is [pass]; the call returns
    [None] and leaves the board as it is. *)
Definition flagged_count (b : Board) : option Z * Board := (None, b).

(** ** Calls made by the presentation layer *)

Inductive op :=
| Reveal (c r : Z) (rnd : list nat)
| ToggleFlag (c r : Z).

(** The board after a call; a call that raises leaves the board in the state
    carried by the exception. *)
Definition step (b : Board) (o : op) : Board :=
  match o with
  | Reveal c r rnd =>
      match reveal rnd b c r with
      | Ok b' => b'
      | Raise _ b' => b'
      | OutOfFuel => b
      end
  | ToggleFlag c r => toggle_flag b c r
  end.

Definition run (b : Board) (ops : list op) : Board := fold_left step ops b.

(** The boards reached from a new board by calls that run to their end. *)
Inductive reachable : Board -> Prop :=
| reachable_new ncols nrows mines : reachable (new_Board ncols nrows mines)
| reachable_step b o : reachable b -> reachable (step b o).

(** The board after a call made with [depth] more nested frames of [reveal]
    allowed; a call cut by [RecursionError] leaves the board as the
    exception carries it. *)
Definition step_limited (depth : nat) (b : Board) (o : op) : Board :=
  match o with
  | Reveal c r rnd =>
      match reveal_limited depth rnd b c r with
      | Ok b' => b'
      | Raise _ b' => b'
      | OutOfFuel => b
      end
  | ToggleFlag c r => toggle_flag b c r
  end.

(** The boards reached from a new board by calls under a recursion limit,
    which a caller that catches [RecursionError] can go on using. *)
Inductive reachable_limited : Board -> Prop :=
| reachable_limited_new ncols nrows mines :
    reachable_limited (new_Board ncols nrows mines)
| reachable_limited_step b depth o :
    reachable_limited b -> reachable_limited (step_limited depth b o).

(** * Notions used in the statements *)

(** Number of elements of [l] that satisfy [p]. *)
Definition count_if {A} (p : A -> bool) (l : list A) : nat :=
  length (List.filter p l).

(** 1 for true, 0 for false. *)
Definition b2n (v : bool) : nat := if v then 1%nat else 0%nat.

(** The list of cells has one entry per coordinate. *)
Definition wf (b : Board) : Prop :=
  length (cells b) = (Z.to_nat (rows b) * Z.to_nat (cols b))%nat.

(** State of the cell at coordinates [(c, r)]. *)
Definition st (b : Board) (c r : Z) : CellState := cell_state b (index b c r).

(** Two boards of the same dimensions and mine count whose cells, position
    by position, have the same coordinates and states related by [R]. *)
Definition cells_related (R : CellState -> CellState -> Prop) (b b' : Board) : Prop :=
  cols b = cols b' /\ rows b = rows b' /\ num_mines b = num_mines b' /\
  Forall2 (fun x y => col x = col y /\ row x = row y /\ R (state x) (state y))
          (cells b) (cells b').

(** Only [is_revealed] changes, and only from false to true. *)
Definition R_reveal (s s' : CellState) : Prop :=
  is_mine s = is_mine s' /\ is_flagged s = is_flagged s' /\
  adjacent s = adjacent s' /\ (is_revealed s = true -> is_revealed s' = true).

(** Only [is_mine] and [adjacent] change. *)
Definition R_place (s s' : CellState) : Prop :=
  is_revealed s = is_revealed s' /\ is_flagged s = is_flagged s'.

(** Only [is_mine] changes. *)
Definition R_mine (s s' : CellState) : Prop :=
  is_revealed s = is_revealed s' /\ is_flagged s = is_flagged s' /\
  adjacent s = adjacent s'.

(** Only [adjacent] changes. *)
Definition R_adj (s s' : CellState) : Prop :=
  is_revealed s = is_revealed s' /\ is_flagged s = is_flagged s' /\
  is_mine s = is_mine s'.

(** Only [is_flagged] changes. *)
Definition R_flag (s s' : CellState) : Prop :=
  is_mine s = is_mine s' /\ is_revealed s = is_revealed s' /\
  adjacent s = adjacent s'.

(** Number of mines among the in-bounds neighbours, recomputed from
    [is_mine] alone. *)
Definition mine_neighbors (b : Board) (c r : Z) : Z :=
  Z.of_nat (count_if (fun p => is_mine (st b (fst p) (snd p))) (neighbors b c r)).

(** Every count is exact: the number of neighbouring mines for a cell without
    a mine, 0 for a mine. *)
Definition adjacency_ok (b : Board) : Prop :=
  forall c r, is_inbounds b c r = true ->
    adjacent (st b c r) = if is_mine (st b c r) then 0 else mine_neighbors b c r.

(** Numbers of cells with a mine, revealed, hidden, flagged. *)
Definition count_mines (b : Board) : nat :=
  count_if (fun cell => is_mine (state cell)) (cells b).

Definition count_revealed (b : Board) : nat :=
  count_if (fun cell => is_revealed (state cell)) (cells b).

Definition count_hidden (b : Board) : nat :=
  count_if (fun cell => negb (is_revealed (state cell))) (cells b).

Definition count_flagged (b : Board) : nat :=
  count_if (fun cell => is_flagged (state cell)) (cells b).

(** The invariant of the boards reachable by [reveal] and [toggle_flag]. *)
Record Inv (b : Board) : Prop := {
  inv_wf : wf b;
  inv_fresh :
    mines_placed b = false ->
    Forall (fun cell => is_mine (state cell) = false /\
                        is_revealed (state cell) = false /\
                        adjacent (state cell) = 0) (cells b) /\
    revealed_count b = 0 /\ game_over b = false /\ win b = false;
  inv_adj : mines_placed b = true -> adjacency_ok b;
  inv_mines : mines_placed b = true -> Z.of_nat (count_mines b) = num_mines b;
  inv_count : game_over b = false -> revealed_count b = Z.of_nat (count_revealed b);
  inv_live :
    game_over b = false ->
    Forall (fun cell => is_revealed (state cell) = true ->
                        is_mine (state cell) = false /\
                        is_flagged (state cell) = false) (cells b);
  inv_won :
    win b = true ->
    Forall (fun cell => is_mine (state cell) = false ->
                        is_revealed (state cell) = true) (cells b);
  inv_lost :
    game_over b = true ->
    Forall (fun cell => is_mine (state cell) = true ->
                        is_revealed (state cell) = true) (cells b);
  inv_flag :
    Forall (fun cell => is_revealed (state cell) = true ->
                        is_flagged (state cell) = true ->
                        is_mine (state cell) = true) (cells b);
  inv_count_le : revealed_count b <= Z.of_nat (count_revealed b)
}.

(** The scalar fields of the board that the cell loops leave alone. *)
Definition same_flags (b b' : Board) : Prop :=
  mines_placed b = mines_placed b' /\ revealed_count b = revealed_count b' /\
  game_over b = game_over b' /\ win b = win b'.

(** The counting pass, as one loop over the coordinates in row-major order. *)
Definition count_at (b : Board) (p : Z * Z) : Board := count_cell b (fst p) (snd p).

(** The cells a reveal at [(c, r)] can reach on board [b]: [(c, r)] itself
    when it is hidden and not flagged, and every hidden, unflagged neighbour
    of a reached cell that has no mine and no adjacent mine. Reached cells
    with a positive count are the border: they are not expanded. *)
Inductive Region (b : Board) (c r : Z) : Z -> Z -> Prop :=
| region_start :
    is_inbounds b c r = true ->
    is_revealed (st b c r) = false -> is_flagged (st b c r) = false ->
    Region b c r c r
| region_step x y x' y' :
    Region b c r x y ->
    is_mine (st b x y) = false -> adjacent (st b x y) = 0 ->
    (x', y') ∈ neighbors b x y ->
    is_revealed (st b x' y') = false -> is_flagged (st b x' y') = false ->
    Region b c r x' y'.

(** Every cell revealed between [b] and [b'] that has no adjacent mine has
    all its neighbours revealed or flagged. *)
Definition closed (b b' : Board) : Prop :=
  forall x y, is_inbounds b x y = true ->
    is_revealed (st b x y) = false -> is_revealed (st b' x y) = true ->
    adjacent (st b x y) = 0 ->
    forall p, p ∈ neighbors b x y ->
      is_revealed (st b' (fst p) (snd p)) = true \/
      is_flagged (st b (fst p) (snd p)) = true.

(** What every part of a cascade preserves. *)
Record Frame (b b' : Board) : Prop := {
  fr_inv : Inv b';
  fr_ext : cells_related R_reveal b b';
  fr_placed : mines_placed b' = mines_placed b;
  fr_game_over : game_over b' = game_over b;
  fr_win : win b = true -> win b' = true;
  fr_win_lost : game_over b = true -> win b' = win b;
  fr_count :
    revealed_count b' - Z.of_nat (count_revealed b') =
    revealed_count b - Z.of_nat (count_revealed b)
}.

(** The result [b'] of a call [reveal(c, r)] on a cell without a mine. *)
Record Post (b : Board) (c r : Z) (b' : Board) : Prop := {
  post_frame : Frame b b';
  post_target :
    is_inbounds b c r = true ->
    is_revealed (st b' c r) = true \/ is_flagged (st b c r) = true;
  post_sound :
    forall x y, is_inbounds b x y = true ->
      is_revealed (st b x y) = false -> is_revealed (st b' x y) = true ->
      Region b c r x y;
  post_closed : closed b b';
  post_win_set :
    is_inbounds b c r = true ->
    is_revealed (st b c r) = false -> is_flagged (st b c r) = false ->
    game_over b = false ->
    revealed_count b' = cols b * rows b - num_mines b -> win b' = true;
  post_opened :
    is_inbounds b c r = true ->
    is_revealed (st b c r) = false -> is_flagged (st b c r) = false ->
    revealed_count b + 1 <= revealed_count b'
}.

(** The result of the loop over the neighbours [ps]. *)
Record LoopPost (b : Board) (ps : list (Z * Z)) (b' : Board) : Prop := {
  loop_frame : Frame b b';
  loop_targets :
    forall p, p ∈ ps ->
      is_revealed (st b' (fst p) (snd p)) = true \/
      is_flagged (st b (fst p) (snd p)) = true;
  loop_sound :
    forall x y, is_inbounds b x y = true ->
      is_revealed (st b x y) = false -> is_revealed (st b' x y) = true ->
      exists p, p ∈ ps /\ Region b (fst p) (snd p) x y;
  loop_closed : closed b b'
}.

(** [cell.state.is_revealed = True; self.revealed_count += 1]. *)
Definition open_cell (b : Board) (c r : Z) : Board :=
  with_revealed_count (update_state b (index b c r) (set_is_revealed true))
                      (revealed_count b + 1).

(** The test of [_check_win]. *)
Definition win_condition (b : Board) : bool :=
  (revealed_count b =? cols b * rows b - num_mines b) && negb (game_over b).

(** The board after [reveal(c, r)] has opened a mine at [(c, r)]. *)
Definition lose (b : Board) (c r : Z) : Board :=
  _reveal_all_mines (with_game_over (open_cell b c r) true).

(** The board on which [reveal] works after the placement step. *)
Definition ready (rnd : list nat) (b : Board) (c r : Z) (b0 : Board) : Prop :=
  Inv b0 /\ mines_placed b0 = true /\
  ((mines_placed b = true /\ b0 = b) \/
   (mines_placed b = false /\ place_mines rnd b c r = Ok b0)).

(** The possible outcomes of a call [reveal(c, r)]. *)
Inductive reveal_outcome (rnd : list nat) (b : Board) (c r : Z) : result -> Prop :=
| out_oob :
    is_inbounds b c r = false -> reveal_outcome rnd b c r (Ok b)
| out_raise :
    is_inbounds b c r = true -> mines_placed b = false ->
    place_mines rnd b c r = Raise ValueError b ->
    reveal_outcome rnd b c r (Raise ValueError b)
| out_skip b0 :
    is_inbounds b c r = true -> ready rnd b c r b0 ->
    is_revealed (st b0 c r) = true \/ is_flagged (st b0 c r) = true ->
    reveal_outcome rnd b c r (Ok b0)
| out_mine b0 :
    is_inbounds b c r = true -> ready rnd b c r b0 ->
    is_revealed (st b0 c r) = false -> is_flagged (st b0 c r) = false ->
    is_mine (st b0 c r) = true ->
    reveal_outcome rnd b c r (Ok (lose b0 c r))
| out_safe b0 b' :
    is_inbounds b c r = true -> ready rnd b c r b0 ->
    is_revealed (st b0 c r) = false -> is_flagged (st b0 c r) = false ->
    is_mine (st b0 c r) = false -> Post b0 c r b' ->
    reveal_outcome rnd b c r (Ok b').

(** [is_mine] and [adjacent] are the same. *)
Definition R_static (s s' : CellState) : Prop :=
  is_mine s = is_mine s' /\ adjacent s = adjacent s'.

(** A 5x5 board with one mine, and the same board after [place_mines(0, 0)]
    with a sampler that always draws the first candidate. *)
Definition first_click_board : Board := new_Board 5 5 1.

Definition first_click_placed : Board :=
  match place_mines [] first_click_board 0 0 with
  | Ok b1 => b1
  | _ => first_click_board
  end.

(** A lost game with a flag on a mine: the sampler puts the two mines of the
    6x1 board at columns 3 and 5; the player opens column 0, flags column 5
    and steps on the mine at column 3. *)
Definition lost_game : Board :=
  run (new_Board 6 1 2) [Reveal 0 0 [1%nat; 2%nat]; ToggleFlag 5 0; Reveal 3 0 []].

(** A won game in which the player then steps on the mine: the mine of the
    4x1 board is at column 3. *)
Definition won_then_lost_game : Board :=
  run (new_Board 4 1 1) [Reveal 0 0 [1%nat]; Reveal 3 0 []].

(** Boards reached by calls in which [reveal] is not called once [win] is
    set. *)
Inductive played : Board -> Prop :=
| played_new ncols nrows mines : played (new_Board ncols nrows mines)
| played_flag b c r : played b -> played (step b (ToggleFlag c r))
| played_reveal b c r rnd :
    played b -> win b = false -> played (step b (Reveal c r rnd)).

(** Once mines are placed the board has cells, and a board on which the
    win condition holds has [win] set: the last call that opened a cell ended
    with the win check. *)
Definition started (b : Board) : Prop :=
  mines_placed b = true ->
  (0 < cols b /\ 0 < rows b) /\ (win_condition b = true -> win b = true).

(** The 6x1 board with its mine at column 3, after the first reveal at
    column 0 has opened columns 0 to 2: columns 4 and 5 are still hidden. *)
Definition two_regions : Board := run (new_Board 6 1 1) [Reveal 0 0 [1%nat]].

(** Any two states. *)
Definition R_any (s s' : CellState) : Prop := True.

(** [is_revealed] does not go back to false. *)
Definition R_mono (s s' : CellState) : Prop :=
  is_revealed s = true -> is_revealed s' = true.

(** [is_flagged] is the same and [is_revealed] does not go back to false. *)
Definition R_open (s s' : CellState) : Prop :=
  is_flagged s = is_flagged s' /\ (is_revealed s = true -> is_revealed s' = true).

(** A cell without a mine keeps its state. *)
Definition R_safe_same (s s' : CellState) : Prop :=
  is_flagged s = is_flagged s' /\ (is_mine s = false -> s' = s).

(** The 4x4 board without mines. *)
Definition empty_board : Board := new_Board 4 4 0.

(** The cells connected to [(c, r)] through cells without a mine and
    without adjacent mines, whatever their [is_revealed] and [is_flagged],
    and the neighbours of those cells. *)
Inductive Connected (b : Board) (c r : Z) : Z -> Z -> Prop :=
| connected_start : is_inbounds b c r = true -> Connected b c r c r
| connected_step x y x' y' :
    Connected b c r x y ->
    is_mine (st b x y) = false -> adjacent (st b x y) = 0 ->
    (x', y') ∈ neighbors b x y ->
    Connected b c r x' y'.

(** The 5x1 board without mines on which only column 2 is revealed: the
    player flags columns 1 and 3, opens column 2 and takes the flags away. *)
Definition split_board : Board :=
  run (new_Board 5 1 0)
      [ToggleFlag 1 0; ToggleFlag 3 0; Reveal 2 0 []; ToggleFlag 1 0; ToggleFlag 3 0].

(** The 1100x1 board without mines, with mines placed and every cell
    hidden: the first click was on a flag, which was then taken away. *)
Definition long_board : Board :=
  run (new_Board 1100 1 0) [ToggleFlag 0 0; Reveal 0 0 []; ToggleFlag 0 0].

(** The result of a call on a board with mines placed that has returned or
    has been cut by [RecursionError]: in both cases cells have only been
    opened, and counted. *)
Definition cut_post (b : Board) (res : result) : Prop :=
  match res with
  | Ok b' => Frame b b'
  | Raise RecursionError b' => Frame b b'
  | Raise ValueError _ => False
  | OutOfFuel => False
  end.

(** The 997x1 board without mines after a first [reveal(0, 0)] made with 997
    nested frames allowed. *)
Definition cut_board : Board :=
  step_limited 997 (new_Board 997 1 0) (Reveal 0 0 []).

(** The call ran to its end: it returned, or the sampler raised. *)
Definition completes (res : result) : Prop :=
  match res with
  | Ok _ => True
  | Raise ValueError _ => True
  | Raise RecursionError _ => False
  | OutOfFuel => False
  end.

(** * Properties *)

(** ** Counting elements of a list *)

Section Counting.
Context {A : Type}.
Implicit Types (p q : A -> bool) (l : list A).

Lemma count_if_cons p x l :
  count_if p (x :: l) = (b2n (p x) + count_if p l)%nat.
Proof. unfold count_if; simpl; destruct (p x); reflexivity. Qed.

Lemma count_if_le_length p l : (count_if p l <= length l)%nat.
Proof.
  induction l as [|x l IH]; [reflexivity|].
  rewrite count_if_cons; simpl; destruct (p x); simpl; lia.
Qed.

Lemma count_if_negb p l :
  (count_if p l + count_if (fun x => negb (p x)) l = length l)%nat.
Proof.
  induction l as [|x l IH]; [reflexivity|].
  rewrite !count_if_cons; simpl; destruct (p x); simpl; lia.
Qed.

Lemma count_if_alter p (f : A -> A) l i x :
  l !! i = Some x ->
  (count_if p (alter f i l) + b2n (p x) = count_if p l + b2n (p (f x)))%nat.
Proof.
  revert i; induction l as [|y l IH]; intros [|i] Hi; simplify_eq/=.
  - rewrite !count_if_cons; lia.
  - rewrite !count_if_cons. specialize (IH _ Hi). lia.
Qed.

Lemma count_if_Forall2 p (l k : list A) :
  Forall2 (fun x y => p x = p y) l k -> count_if p l = count_if p k.
Proof.
  induction 1 as [|x y l k Hxy _ IH]; [reflexivity|].
  rewrite !count_if_cons, Hxy, IH; reflexivity.
Qed.

Lemma count_if_Forall2_le p (l k : list A) :
  Forall2 (fun x y => p x = true -> p y = true) l k ->
  (count_if p l <= count_if p k)%nat.
Proof.
  induction 1 as [|x y l k Hxy _ IH]; [reflexivity|].
  rewrite !count_if_cons. destruct (p x); simpl; [rewrite Hxy by reflexivity; simpl|]; lia.
Qed.

(** If [p] implies [q] on [l] and both hold equally often, [q] implies [p]. *)
Lemma count_if_squeeze p q l :
  Forall (fun x => p x = true -> q x = true) l ->
  (count_if q l <= count_if p l)%nat ->
  Forall (fun x => q x = true -> p x = true) l.
Proof.
  induction 1 as [|x l Hx Hl IH]; intros Hle; [constructor|].
  assert (Hpq : (count_if p l <= count_if q l)%nat).
  { clear -Hl. induction Hl as [|y l Hy _ IH]; [reflexivity|].
    rewrite !count_if_cons. destruct (p y); simpl; [rewrite Hy by reflexivity; simpl|]; lia. }
  rewrite !count_if_cons in Hle.
  destruct (p x) eqn:Hp, (q x) eqn:Hq; simpl in *.
  - constructor; [congruence | apply IH; lia].
  - discriminate (Hx eq_refl).
  - lia.
  - constructor; [congruence | apply IH; lia].
Qed.

Lemma count_if_map_id p (g : A -> A) l :
  Forall (fun x => p (g x) = p x) l -> count_if p (map g l) = count_if p l.
Proof.
  induction 1 as [|x l Hx _ IH]; [reflexivity|].
  simpl map. rewrite !count_if_cons, Hx, IH; reflexivity.
Qed.
End Counting.

(** Membership in a [List.filter] in stdpp's terms. *)
Lemma elem_of_filter {A} (p : A -> bool) (l : list A) x :
  x ∈ List.filter p l <-> x ∈ l /\ p x = true.
Proof. rewrite !list_elem_of_In. apply filter_In. Qed.

Lemma NoDup_filter {A} (p : A -> bool) (l : list A) :
  NoDup l -> NoDup (List.filter p l).
Proof. rewrite !NoDup_ListNoDup. apply List.NoDup_filter. Qed.

(** ** Geometry of the grid *)

Lemma is_inbounds_iff b c r :
  is_inbounds b c r = true <-> 0 <= c < cols b /\ 0 <= r < rows b.
Proof. unfold is_inbounds. rewrite !andb_true_iff. lia. Qed.

Lemma index_lt_length b c r :
  wf b -> is_inbounds b c r = true ->
  (Z.to_nat (index b c r) < length (cells b))%nat.
Proof.
  unfold wf, index. rewrite is_inbounds_iff. intros -> [Hc Hr].
  apply Nat2Z.inj_lt. rewrite Nat2Z.inj_mul, !Z2Nat.id by nia. nia.
Qed.

Lemma index_inj b c r c' r' :
  is_inbounds b c r = true -> is_inbounds b c' r' = true ->
  Z.to_nat (index b c r) = Z.to_nat (index b c' r') -> c = c' /\ r = r'.
Proof.
  unfold index. rewrite !is_inbounds_iff. intros [Hc Hr] [Hc' Hr'] Heq.
  apply Z2Nat.inj in Heq; [|nia|nia].
  assert (r = r') by nia. subst. lia.
Qed.

Lemma lookup_index b c r :
  wf b -> is_inbounds b c r = true ->
  exists cell, cells b !! Z.to_nat (index b c r) = Some cell /\ st b c r = state cell.
Proof.
  intros Hwf Hin.
  destruct (lookup_lt_is_Some_2 (cells b) _ (index_lt_length b c r Hwf Hin)) as [cell Hcell].
  exists cell. split; [assumption|]. unfold st, cell_state. rewrite Hcell. reflexivity.
Qed.

Lemma length_flat_map_const {A B} (g : A -> list B) (l : list A) n :
  (forall x, length (g x) = n) -> length (flat_map g l) = (length l * n)%nat.
Proof.
  intros Hg. induction l as [|x l IH]; [reflexivity|].
  simpl. rewrite length_app, Hg, IH. reflexivity.
Qed.

Lemma length_grid {A} (f : Z -> Z -> A) ncols nrows :
  length (grid f ncols nrows) = (Z.to_nat nrows * Z.to_nat ncols)%nat.
Proof.
  unfold grid, range.
  rewrite (length_flat_map_const _ _ (Z.to_nat ncols)).
  - rewrite length_seqZ. reflexivity.
  - intros r. rewrite length_map, length_seqZ. reflexivity.
Qed.

Lemma elem_of_grid {A} (f : Z -> Z -> A) ncols nrows x :
  x ∈ grid f ncols nrows <->
  exists c r, (0 <= c < ncols /\ 0 <= r < nrows) /\ x = f c r.
Proof.
  unfold grid, range. rewrite list_elem_of_In, in_flat_map. split.
  - intros (r & Hr & Hx). apply in_map_iff in Hx as (c & <- & Hc).
    apply list_elem_of_In, elem_of_seqZ in Hr, Hc. exists c, r. split; [lia|reflexivity].
  - intros (c & r & [Hc Hr] & ->). exists r. split.
    + apply list_elem_of_In, elem_of_seqZ. lia.
    + apply in_map_iff. exists c. split; [reflexivity|].
      apply list_elem_of_In, elem_of_seqZ. lia.
Qed.

Lemma NoDup_flat_map_pair (cs rs : list Z) :
  NoDup cs -> NoDup rs ->
  NoDup (flat_map (fun r => map (fun c => (c, r)) cs) rs).
Proof.
  intros Hcs. induction 1 as [|r rs Hr Hrs IH]; simpl; [constructor|].
  apply NoDup_app. split; [|split; [|exact IH]].
  - assert (Hinj : Inj (=) (=) (fun c : Z => (c, r))) by (intros c1 c2 Heq; congruence).
    apply (NoDup_fmap_2 (fun c => (c, r))). exact Hcs.
  - intros [c r'] H1 H2.
    apply list_elem_of_In, in_map_iff in H1 as (c1 & Heq & _).
    apply list_elem_of_In, in_flat_map in H2 as (r2 & Hr2 & H2).
    apply in_map_iff in H2 as (c2 & Heq2 & _).
    apply Hr. simplify_eq. apply list_elem_of_In. assumption.
Qed.

Lemma elem_of_all_positions b c r :
  (c, r) ∈ all_positions b <-> is_inbounds b c r = true.
Proof.
  unfold all_positions. rewrite elem_of_grid, is_inbounds_iff. split.
  - intros (c' & r' & H & Heq). simplify_eq. exact H.
  - intros H. exists c, r. split; [exact H|reflexivity].
Qed.

Lemma NoDup_all_positions b : NoDup (all_positions b).
Proof. apply NoDup_flat_map_pair; apply NoDup_seqZ. Qed.

Lemma wf_new_Board ncols nrows mines : wf (new_Board ncols nrows mines).
Proof. unfold wf; simpl. apply length_grid. Qed.

(** *** Reading a cell after a write *)

Lemma st_update_same b c r f :
  wf b -> is_inbounds b c r = true ->
  st (update_state b (index b c r) f) c r = f (st b c r).
Proof.
  intros Hwf Hin. destruct (lookup_index b c r Hwf Hin) as (cell & Hcell & Hst).
  unfold st, cell_state, update_state, index in *; simpl.
  rewrite list_lookup_alter_eq, Hcell in *. simpl. congruence.
Qed.

Lemma st_update_other b c r f c' r' :
  is_inbounds b c r = true -> is_inbounds b c' r' = true ->
  (c, r) <> (c', r') ->
  st (update_state b (index b c r) f) c' r' = st b c' r'.
Proof.
  intros Hin Hin' Hne. unfold st, cell_state, update_state; simpl.
  change (index (with_cells b _) c' r') with (index b c' r').
  rewrite list_lookup_alter_ne; [reflexivity|].
  intros Heq. apply index_inj in Heq as [-> ->]; [congruence|assumption..].
Qed.

Lemma neighbors_inbounds b c r x y :
  (x, y) ∈ neighbors b c r -> is_inbounds b x y = true.
Proof. unfold neighbors. rewrite elem_of_filter. intros [_ H]. exact H. Qed.

Lemma neighbors_not_self b c r : (c, r) ∉ neighbors b c r.
Proof.
  unfold neighbors. rewrite elem_of_filter. intros [H _].
  apply list_elem_of_In, in_map_iff in H as ([dx dy] & Heq & Hd).
  simpl in *. simplify_eq.
  repeat (destruct Hd as [Hd|Hd]; [simplify_eq; lia|]). destruct Hd.
Qed.

(** ** The sampler *)

Lemma draw_spec {A} (rnd : list nat) (l : list A) (k : nat) :
  (k <= length l)%nat ->
  length (draw rnd l k) = k /\
  (forall x, x ∈ draw rnd l k -> x ∈ l) /\
  (NoDup l -> NoDup (draw rnd l k)).
Proof.
  revert rnd l. induction k as [|k IH]; intros rnd l Hk; simpl.
  - split; [reflexivity|]. split; [intros x Hx; inversion Hx|constructor].
  - assert (Hj : (hd 0%nat rnd mod length l < length l)%nat)
      by (apply Nat.mod_upper_bound; lia).
    destruct (lookup_lt_is_Some_2 l _ Hj) as [x Hx]. rewrite Hx.
    pose proof (take_drop_middle l _ x Hx) as Hsplit.
    destruct (IH (tl rnd) (delete (hd 0%nat rnd mod length l)%nat l)) as (Hlen & Hsub & Hnd).
    { rewrite length_delete by eauto. lia. }
    rewrite delete_take_drop in Hlen, Hsub, Hnd |- *.
    split; [simpl; rewrite Hlen; reflexivity|]. split.
    + intros y Hy. apply elem_of_cons in Hy as [->|Hy].
      * apply list_elem_of_lookup. eauto.
      * apply Hsub in Hy. rewrite <- Hsplit.
        rewrite elem_of_app in *. rewrite elem_of_cons. tauto.
    + intros Hl. rewrite <- Hsplit in Hl.
      apply NoDup_app in Hl as (H1 & H2 & H3). apply NoDup_cons in H3 as [H3 H4].
      apply NoDup_cons. split.
      * intros Hy. apply Hsub, elem_of_app in Hy as [Hy|Hy]; [|contradiction].
        apply (H2 _ Hy). left.
      * apply Hnd, NoDup_app. split; [assumption|]. split; [|assumption].
        intros y Hy1 Hy2. apply (H2 _ Hy1). right. assumption.
Qed.

Lemma random_sample_Some {A} (rnd : list nat) (l : list A) (k : Z) s :
  random_sample rnd l k = Some s ->
  0 <= k <= Z.of_nat (length l) /\ Z.of_nat (length s) = k /\
  (forall x, x ∈ s -> x ∈ l) /\ (NoDup l -> NoDup s).
Proof.
  unfold random_sample. destruct (_ || _) eqn:E; [discriminate|].
  intros [= <-]. apply orb_false_iff in E as [E1 E2].
  apply Z.ltb_ge in E1, E2.
  destruct (draw_spec rnd l (Z.to_nat k)) as (H1 & H2 & H3); [lia|].
  rewrite H1. split; [lia|]. split; [lia|]. split; assumption.
Qed.

Lemma random_sample_None {A} (rnd : list nat) (l : list A) (k : Z) :
  random_sample rnd l k = None <-> k < 0 \/ Z.of_nat (length l) < k.
Proof.
  unfold random_sample. destruct (_ || _) eqn:E.
  - apply orb_true_iff in E. rewrite !Z.ltb_lt in E. tauto.
  - apply orb_false_iff in E. rewrite !Z.ltb_ge in E. split; [discriminate|lia].
Qed.

(** Every selection of distinct elements of the population is the result of
    some sequence of draws: the sampler is not restricted by the model. *)
Lemma draw_complete {A} (l s : list A) :
  NoDup s -> (forall x, x ∈ s -> x ∈ l) -> NoDup l ->
  exists rnd, draw rnd l (length s) = s.
Proof.
  intros Hs. revert l. induction Hs as [|x s Hx Hs IH]; intros l Hsub Hl.
  - exists []. reflexivity.
  - assert (Hxl : x ∈ l) by (apply Hsub; left).
    apply list_elem_of_lookup in Hxl as [j Hj].
    pose proof (lookup_lt_Some _ _ _ Hj) as Hlt.
    pose proof (take_drop_middle l j x Hj) as Hsplit.
    destruct (IH (delete j l)) as [rnd Hrnd].
    + intros y Hy. rewrite delete_take_drop.
      assert (Hyl : y ∈ l) by (apply Hsub; right; assumption).
      rewrite <- Hsplit in Hyl. rewrite elem_of_app in *. rewrite elem_of_cons in Hyl.
      destruct Hyl as [?|[->|?]]; [tauto|contradiction|tauto].
    + rewrite delete_take_drop. rewrite <- Hsplit in Hl.
      apply NoDup_app in Hl as (H1 & H2 & H3). apply NoDup_cons in H3 as [H3 H4].
      apply NoDup_app. split; [assumption|]. split; [|assumption].
      intros y Hy1 Hy2. apply (H2 _ Hy1). right. assumption.
    + exists (j :: rnd). simpl. rewrite Nat.mod_small by assumption.
      rewrite Hj, Hrnd. reflexivity.
Qed.

(** ** Relating the cells of two boards *)

Section Related.
Context (R : CellState -> CellState -> Prop).

Lemma related_refl b : (forall s, R s s) -> cells_related R b b.
Proof.
  intros HR. repeat split. apply Forall_Forall2_diag, Forall_forall.
  intros x _. auto.
Qed.

Lemma related_trans b1 b2 b3 :
  (forall s1 s2 s3, R s1 s2 -> R s2 s3 -> R s1 s3) ->
  cells_related R b1 b2 -> cells_related R b2 b3 -> cells_related R b1 b3.
Proof.
  intros HR (?&?&?&H12) (?&?&?&H23). repeat split; try congruence.
  revert H23. generalize (cells b3). induction H12 as [|x y l k Hxy _ IH]; intros k3 H23.
  - inversion H23. constructor.
  - inversion H23 as [|y' z k' k3' Hyz Hk]; subst. constructor; [|apply IH; assumption].
    destruct Hxy as (?&?&?), Hyz as (?&?&?). repeat split; try congruence. eauto.
Qed.

Lemma related_update b idx f :
  (forall s, R s s) -> (forall s, R s (f s)) ->
  cells_related R b (update_state b idx f).
Proof.
  intros Hrefl HR. repeat split. simpl. apply Forall2_alter_r.
  - apply Forall_Forall2_diag, Forall_forall. intros x _. auto.
  - intros x y Hx Hy _. simplify_eq. simpl. auto.
Qed.

Lemma related_map b (g : Cell -> Cell) :
  (forall x, col x = col (g x) /\ row x = row (g x) /\ R (state x) (state (g x))) ->
  cells_related R b (with_cells b (map g (cells b))).
Proof.
  intros Hg. repeat split. simpl. apply Forall2_fmap_r, Forall_Forall2_diag, Forall_forall.
  intros x _. apply Hg.
Qed.

Lemma related_wf b b' : cells_related R b b' -> wf b -> wf b'.
Proof.
  intros (Hc & Hr & _ & HF) Hwf. unfold wf in *.
  rewrite <- (Forall2_length _ _ _ HF), <- Hc, <- Hr. exact Hwf.
Qed.

Lemma related_inbounds b b' c r :
  cells_related R b b' -> is_inbounds b' c r = is_inbounds b c r.
Proof. intros (Hc & Hr & _). unfold is_inbounds. rewrite Hc, Hr. reflexivity. Qed.

Lemma related_neighbors b b' c r :
  cells_related R b b' -> neighbors b' c r = neighbors b c r.
Proof.
  intros H. unfold neighbors. apply filter_ext. intros p.
  apply (related_inbounds _ _ _ _ H).
Qed.

Lemma related_cell_state b b' idx :
  R default_state default_state ->
  cells_related R b b' -> R (cell_state b idx) (cell_state b' idx).
Proof.
  intros Hd (_ & _ & _ & HF). unfold cell_state.
  rewrite Forall2_lookup in HF. specialize (HF (Z.to_nat idx)).
  destruct HF as [x y (_ & _ & H)|]; assumption.
Qed.

Lemma related_st b b' c r :
  R default_state default_state ->
  cells_related R b b' -> R (st b c r) (st b' c r).
Proof.
  intros Hd H. unfold st, index. destruct H as (Hc & H').
  rewrite <- Hc. apply related_cell_state; [assumption|]. split; assumption.
Qed.

Lemma related_states b b' :
  cells_related R b b' ->
  Forall2 (fun x y => R (state x) (state y)) (cells b) (cells b').
Proof.
  intros (_ & _ & _ & HF). eapply Forall2_impl; [exact HF|].
  intros x y (_ & _ & H). exact H.
Qed.
End Related.

Lemma related_impl (R R' : CellState -> CellState -> Prop) b b' :
  (forall s s', R s s' -> R' s s') -> cells_related R b b' -> cells_related R' b b'.
Proof.
  intros HR (?&?&?&HF). repeat split; try assumption.
  eapply Forall2_impl; [exact HF|]. intros x y (?&?&?). auto.
Qed.

Lemma R_reveal_refl s : R_reveal s s.
Proof. repeat split; auto. Qed.

Lemma R_reveal_trans s1 s2 s3 : R_reveal s1 s2 -> R_reveal s2 s3 -> R_reveal s1 s3.
Proof. intros (?&?&?&?) (?&?&?&?). repeat split; try congruence. auto. Qed.

Lemma R_reveal_set s : R_reveal s (set_is_revealed true s).
Proof. repeat split; auto. Qed.

Create HintDb board.
#[local] Hint Resolve R_reveal_refl R_reveal_trans R_reveal_set : board.

(** ** The invariant of reachable boards *)

Lemma count_adjacent_eq b c r : count_adjacent b c r = mine_neighbors b c r.
Proof.
  unfold count_adjacent, mine_neighbors, st.
  generalize (neighbors b c r). intros l.
  rewrite <- (Z.add_0_l (Z.of_nat _)). generalize 0.
  induction l as [|p l IH]; intros a; simpl.
  - unfold count_if; simpl. lia.
  - rewrite IH, count_if_cons.
    destruct (is_mine _); simpl; lia.
Qed.

Lemma Inv_new_Board ncols nrows mines : Inv (new_Board ncols nrows mines).
Proof.
  split; simpl; try discriminate.
  - apply wf_new_Board.
  - intros _. split; [|auto]. apply Forall_forall. intros x Hx.
    apply elem_of_grid in Hx as (c & r & _ & ->). simpl. auto.
  - intros _. unfold count_revealed; simpl.
    assert (H : forall l : list Cell, Forall (fun x => is_revealed (state x) = false) l ->
              count_if (fun cell => is_revealed (state cell)) l = 0%nat).
    { induction 1 as [|x l Hx _ IH]; [reflexivity|]. rewrite count_if_cons, Hx, IH. reflexivity. }
    rewrite H; [reflexivity|]. apply Forall_forall. intros x Hx.
    apply elem_of_grid in Hx as (c & r & _ & ->). reflexivity.
  - intros _. apply Forall_forall. intros x Hx.
    apply elem_of_grid in Hx as (c & r & _ & ->). simpl. discriminate.
  - apply Forall_forall. intros x Hx.
    apply elem_of_grid in Hx as (c & r & _ & ->). simpl. discriminate.
  - lia.
Qed.

(** ** Mine placement *)

Lemma count_if_ext {A} (p q : A -> bool) l :
  (forall x, x ∈ l -> p x = q x) -> count_if p l = count_if q l.
Proof.
  induction l as [|x l IH]; intros H; [reflexivity|].
  rewrite !count_if_cons, (H x) by left. rewrite IH; [reflexivity|].
  intros y Hy. apply H. right. assumption.
Qed.

Lemma Forall2_Forall_transfer {A} (R : A -> A -> Prop) (P Q : A -> Prop) l k :
  (forall x y, R x y -> P x -> Q y) -> Forall2 R l k -> Forall P l -> Forall Q k.
Proof.
  intros H. induction 1 as [|x y l k Hxy _ IH]; intros HP; [constructor|].
  inversion HP; subst. constructor; eauto.
Qed.

Lemma mine_neighbors_related R b b' c r :
  R default_state default_state ->
  (forall s s', R s s' -> is_mine s = is_mine s') ->
  cells_related R b b' -> mine_neighbors b' c r = mine_neighbors b c r.
Proof.
  intros Hd HR H. unfold mine_neighbors.
  rewrite (related_neighbors R b b' c r H). f_equal.
  apply count_if_ext. intros p _. symmetry. apply HR, related_st; assumption.
Qed.

Lemma mem_iff p l : mem p l = true <-> p ∈ l.
Proof.
  unfold mem. rewrite existsb_exists. split.
  - intros (q & Hq & Heq). unfold coord_eqb in Heq.
    apply andb_true_iff in Heq as [H1 H2]. apply Z.eqb_eq in H1, H2.
    destruct p, q; simpl in *; subst. apply list_elem_of_In. assumption.
  - intros H. exists p. split; [apply list_elem_of_In; assumption|].
    unfold coord_eqb. rewrite !Z.eqb_refl. reflexivity.
Qed.

Lemma elem_of_pool b sc sr c r :
  (c, r) ∈ pool b sc sr <->
  is_inbounds b c r = true /\ (c, r) ∉ forbidden b sc sr.
Proof.
  unfold pool. rewrite elem_of_filter, elem_of_all_positions, negb_true_iff.
  rewrite <- mem_iff. destruct (mem _ _); intuition congruence.
Qed.

Lemma NoDup_pool b sc sr : NoDup (pool b sc sr).
Proof. apply NoDup_filter, NoDup_all_positions. Qed.

Lemma R_mine_refl s : R_mine s s.
Proof. repeat split. Qed.
Lemma R_mine_trans s1 s2 s3 : R_mine s1 s2 -> R_mine s2 s3 -> R_mine s1 s3.
Proof. intros (?&?&?) (?&?&?). repeat split; congruence. Qed.
Lemma R_adj_refl s : R_adj s s.
Proof. repeat split. Qed.
Lemma R_adj_trans s1 s2 s3 : R_adj s1 s2 -> R_adj s2 s3 -> R_adj s1 s3.
Proof. intros (?&?&?) (?&?&?). repeat split; congruence. Qed.
Lemma R_adj_mine s s' : R_adj s s' -> is_mine s = is_mine s'.
Proof. intros (?&?&?). assumption. Qed.

#[local] Hint Resolve R_mine_refl R_mine_trans R_adj_refl R_adj_trans R_adj_mine : board.

Lemma same_flags_refl b : same_flags b b.
Proof. repeat split. Qed.
Lemma same_flags_trans b1 b2 b3 :
  same_flags b1 b2 -> same_flags b2 b3 -> same_flags b1 b3.
Proof. intros (?&?&?&?) (?&?&?&?). repeat split; congruence. Qed.

Lemma lay_mines_spec ps b :
  wf b -> (forall p, p ∈ ps -> is_inbounds b (fst p) (snd p) = true) ->
  NoDup ps -> (forall p, p ∈ ps -> is_mine (st b (fst p) (snd p)) = false) ->
  let b1 := fold_left lay_mine ps b in
  cells_related R_mine b b1 /\ same_flags b b1 /\
  count_mines b1 = (count_mines b + length ps)%nat /\
  forall c r, is_inbounds b c r = true ->
    (is_mine (st b1 c r) = true <-> is_mine (st b c r) = true \/ (c, r) ∈ ps).
Proof.
  revert b. induction ps as [|[x y] ps IH]; intros b Hwf Hin Hnd Hfree; simpl.
  - split; [apply related_refl; auto with board|]. split; [apply same_flags_refl|].
    split; [lia|]. intros c r _. split; [auto|]. intros [?|H]; [assumption|inversion H].
  - apply NoDup_cons in Hnd as [Hxy Hnd].
    assert (Hinxy : is_inbounds b x y = true) by (apply (Hin (x, y)); left).
    assert (Hrel : cells_related R_mine b (lay_mine b (x, y))).
    { apply related_update; auto with board. intros s. repeat split. }
    destruct (IH (lay_mine b (x, y))) as (Hr & Hf & Hc & Hm).
    + eapply related_wf; eassumption.
    + intros p Hp. rewrite (related_inbounds _ _ _ _ _ Hrel). apply Hin. right. assumption.
    + assumption.
    + intros [c r] Hp. simpl. unfold lay_mine; simpl. rewrite st_update_other.
      * apply (Hfree (c, r)). right. assumption.
      * assumption.
      * apply (Hin (c, r)). right. assumption.
      * intros Heq. simplify_eq. contradiction.
    + split; [eapply related_trans; eauto with board|].
      split; [eapply same_flags_trans; [|exact Hf]; repeat split|].
      split.
      * rewrite Hc. unfold count_mines, lay_mine, update_state; simpl.
        destruct (lookup_index b x y Hwf Hinxy) as (cell & Hcell & Hst).
        pose proof (count_if_alter (fun cell => is_mine (state cell))
                      (on_state (set_is_mine true)) _ _ _ Hcell) as Hcnt.
        pose proof (Hfree (x, y) ltac:(left)) as Hxyfree. simpl in Hxyfree, Hcnt.
        rewrite <- Hst, Hxyfree in Hcnt. simpl in Hcnt. lia.
      * intros c r Hcr. rewrite Hm by (rewrite (related_inbounds _ _ _ _ _ Hrel); assumption).
        rewrite elem_of_cons. unfold lay_mine; simpl.
        destruct (decide ((x, y) = (c, r))) as [Heq|Hne].
        -- simplify_eq. rewrite st_update_same by assumption. simpl. intuition.
        -- rewrite st_update_other by assumption. intuition congruence.
Qed.

Lemma count_cell_related b c r : cells_related R_adj b (count_cell b c r).
Proof.
  unfold count_cell. destruct (is_mine _).
  - apply related_refl; auto with board.
  - apply related_update; auto with board. intros s. repeat split.
Qed.

Lemma count_cell_flags b c r : same_flags b (count_cell b c r).
Proof. unfold count_cell. destruct (is_mine _); repeat split. Qed.

Lemma count_pass_related ps b :
  cells_related R_adj b (fold_left count_at ps b) /\
  same_flags b (fold_left count_at ps b).
Proof.
  revert b. induction ps as [|p ps IH]; intros b; simpl.
  - split; [apply related_refl; auto with board|apply same_flags_refl].
  - destruct (IH (count_at b p)) as [H1 H2]. split.
    + eapply related_trans; [eauto with board|apply count_cell_related|exact H1].
    + eapply same_flags_trans; [apply count_cell_flags|exact H2].
Qed.

Lemma count_row_flat b r :
  count_row b r = fold_left count_at (map (fun c => (c, r)) (range (cols b))) b.
Proof.
  unfold count_row. generalize (range (cols b)). intros l. revert b.
  induction l as [|c l IH]; intros b; simpl; [reflexivity|]. apply IH.
Qed.

Lemma count_all_flat b : count_all b = fold_left count_at (all_positions b) b.
Proof.
  unfold count_all, all_positions, grid. generalize (range (rows b)). intros rs.
  revert b. induction rs as [|r rs IH]; intros b; simpl; [reflexivity|].
  rewrite fold_left_app, IH, <- count_row_flat.
  destruct (count_pass_related (map (fun c => (c, r)) (range (cols b))) b) as [(Hc & _) _].
  rewrite <- count_row_flat in Hc. rewrite <- Hc. reflexivity.
Qed.

Lemma count_pass_spec ps b :
  wf b -> (forall p, p ∈ ps -> is_inbounds b (fst p) (snd p) = true) ->
  let b2 := fold_left count_at ps b in
  forall c r, is_inbounds b c r = true ->
    (is_mine (st b c r) = false -> (c, r) ∈ ps ->
     adjacent (st b2 c r) = mine_neighbors b c r) /\
    (is_mine (st b c r) = true \/ (c, r) ∉ ps ->
     adjacent (st b2 c r) = adjacent (st b c r)).
Proof.
  revert b. induction ps as [|[x y] ps IH]; intros b Hwf Hin; simpl; intros c r Hcr.
  - split; [intros _ H; inversion H|reflexivity].
  - pose proof (count_cell_related b x y) as Hrel.
    assert (Hinxy : is_inbounds b x y = true) by (apply (Hin (x, y)); left).
    assert (Hmine : forall c r, is_mine (st (count_cell b x y) c r) = is_mine (st b c r)).
    { intros c' r'. symmetry. apply R_adj_mine, related_st; [auto with board|assumption]. }
    destruct (IH (count_at b (x, y))) with (c := c) (r := r) as [HA HB].
    + eapply related_wf; eassumption.
    + intros p Hp. unfold count_at. rewrite (related_inbounds _ _ _ _ _ Hrel).
      apply Hin. right. assumption.
    + unfold count_at. rewrite (related_inbounds _ _ _ _ _ Hrel). assumption.
    + change (count_at b (x, y)) with (count_cell b x y) in *.
      rewrite Hmine in HA, HB.
      rewrite (mine_neighbors_related R_adj b (count_cell b x y) c r
                 (R_adj_refl _) R_adj_mine Hrel) in HA.
      assert (Hstep : (x, y) <> (c, r) \/ is_mine (st b c r) = true ->
                      adjacent (st (count_cell b x y) c r) = adjacent (st b c r)).
      { intros Hcase. unfold count_cell. destruct (is_mine (st b x y)) eqn:Hm.
        - unfold st in Hm. rewrite Hm. reflexivity.
        - unfold st in Hm. rewrite Hm. destruct (decide ((x, y) = (c, r))) as [Heq|Hne].
          + simplify_eq. destruct Hcase as [?|Hc]; [congruence|].
            unfold st in Hc. congruence.
          + rewrite st_update_other by assumption. reflexivity. }
      split.
      * intros Hm Hmem. destruct (decide ((c, r) ∈ ps)) as [Hps|Hps]; [auto|].
        apply elem_of_cons in Hmem as [Heq|?]; [|contradiction]. simplify_eq.
        rewrite HB by (right; assumption).
        unfold count_cell. unfold st in Hm. rewrite Hm.
        rewrite st_update_same by assumption. simpl. apply count_adjacent_eq.
      * intros Hcase. rewrite HB, Hstep.
        -- reflexivity.
        -- destruct Hcase as [?|Hn]; [right; assumption|]. left. intros Heq.
           apply Hn. rewrite Heq. left.
        -- destruct Hcase as [?|Hn]; [left; assumption|]. right. intros Hp.
           apply Hn. right. assumption.
Qed.

Lemma Forall_cells_st (P : CellState -> Prop) b c r :
  wf b -> is_inbounds b c r = true ->
  Forall (fun cell => P (state cell)) (cells b) -> P (st b c r).
Proof.
  intros Hwf Hin HF. destruct (lookup_index b c r Hwf Hin) as (cell & Hcell & ->).
  rewrite Forall_lookup in HF. exact (HF _ _ Hcell).
Qed.

Lemma count_if_Forall_false {A} (p : A -> bool) l :
  Forall (fun x => p x = false) l -> count_if p l = 0%nat.
Proof.
  induction 1 as [|x l Hx _ IH]; [reflexivity|].
  rewrite count_if_cons, Hx, IH. reflexivity.
Qed.

Lemma R_mine_place s s' : R_mine s s' -> R_place s s'.
Proof. intros (?&?&?). split; assumption. Qed.
Lemma R_adj_place s s' : R_adj s s' -> R_place s s'.
Proof. intros (?&?&?). split; assumption. Qed.
Lemma R_place_trans s1 s2 s3 : R_place s1 s2 -> R_place s2 s3 -> R_place s1 s3.
Proof. intros (?&?) (?&?). split; congruence. Qed.

(** What [place_mines] does on a board on which no mine has been placed. *)
Lemma place_mines_spec rnd b sc sr :
  Inv b -> mines_placed b = false ->
  match place_mines rnd b sc sr with
  | Ok b' =>
      0 <= num_mines b <= Z.of_nat (length (pool b sc sr)) /\
      Inv b' /\ mines_placed b' = true /\ cells_related R_place b b' /\
      revealed_count b' = 0 /\ game_over b' = false /\ win b' = false /\
      (forall c r, is_inbounds b c r = true -> is_mine (st b' c r) = true ->
                   (c, r) ∈ pool b sc sr)
  | Raise e b' =>
      b' = b /\ (num_mines b < 0 \/ Z.of_nat (length (pool b sc sr)) < num_mines b)
  | OutOfFuel => False
  end.
Proof.
  intros HI Hfresh. unfold place_mines.
  destruct (random_sample rnd (pool b sc sr) (num_mines b)) as [s|] eqn:Hs.
  2:{ split; [reflexivity|]. apply random_sample_None in Hs. exact Hs. }
  apply random_sample_Some in Hs as (Hk & Hlen & Hsub & Hnd).
  specialize (Hnd (NoDup_pool b sc sr)).
  destruct (inv_fresh b HI Hfresh) as (Hcells & Hrc & Hgo & Hwin).
  pose proof (inv_wf b HI) as Hwf.
  assert (Hsin : forall p, p ∈ s -> is_inbounds b (fst p) (snd p) = true).
  { intros [c r] Hp. apply Hsub, elem_of_pool in Hp as [Hp _]. exact Hp. }
  assert (Hnomine : forall c r, is_inbounds b c r = true -> is_mine (st b c r) = false).
  { intros c r Hcr. apply (Forall_cells_st (fun s => is_mine s = false)); [assumption..|].
    eapply Forall_impl; [exact Hcells|]. simpl. tauto. }
  destruct (lay_mines_spec s b Hwf Hsin Hnd) as (Hr1 & Hf1 & Hc1 & Hm1).
  { intros p Hp. apply Hnomine, Hsin, Hp. }
  set (b1 := fold_left lay_mine s b) in *.
  pose proof (related_wf _ _ _ Hr1 Hwf) as Hwf1.
  rewrite count_all_flat.
  destruct (count_pass_related (all_positions b1) b1) as [Hr2 Hf2].
  pose proof (count_pass_spec (all_positions b1) b1 Hwf1) as Hadj.
  set (b2 := fold_left count_at (all_positions b1) b1) in *.
  pose proof (related_wf _ _ _ Hr2 Hwf1) as Hwf2.
  assert (Hin1 : forall c r, is_inbounds b1 c r = is_inbounds b c r)
    by (intros; apply (related_inbounds _ _ _ _ _ Hr1)).
  assert (Hin2 : forall c r, is_inbounds b2 c r = is_inbounds b c r)
    by (intros; rewrite (related_inbounds _ _ _ _ _ Hr2); apply Hin1).
  assert (Hrel : cells_related R_place b b2).
  { eapply related_trans; [apply R_place_trans| |].
    - eapply related_impl; [apply R_mine_place|exact Hr1].
    - eapply related_impl; [apply R_adj_place|exact Hr2]. }
  assert (Hmine2 : forall c r, is_mine (st b2 c r) = is_mine (st b1 c r)).
  { intros c r. symmetry. apply R_adj_mine, related_st; [auto with board|assumption]. }
  assert (Hunrev : Forall (fun cell => is_revealed (state cell) = false) (cells b2)).
  { eapply Forall2_Forall_transfer; [|apply (related_states _ _ _ Hrel)|exact Hcells].
    simpl. intros x y (Hxy & _) (_ & Hx & _). congruence. }
  destruct Hf1 as (Hp1 & Hrc1 & Hgo1 & Hw1), Hf2 as (Hp2 & Hrc2 & Hgo2 & Hw2).
  split; [lia|]. split; [|split; [reflexivity|]].
  2:{ split; [exact Hrel|]. simpl. split; [congruence|]. split; [congruence|].
      split; [congruence|]. intros c r Hcr Hm.
      change (is_mine (st b2 c r) = true) in Hm. rewrite Hmine2 in Hm.
      apply Hm1 in Hm; [|assumption]. destruct Hm as [Hm|Hm]; [|auto].
      rewrite Hnomine in Hm by assumption. discriminate. }
  split; try (simpl; intros; congruence).
  - exact Hwf2.
  - intros _ c r Hcr.
    change (adjacent (st b2 c r) =
            if is_mine (st b2 c r) then 0 else mine_neighbors b2 c r).
    change (is_inbounds b2 c r = true) in Hcr. rewrite Hin2 in Hcr.
    destruct (Hadj (fun p Hp => proj1 (elem_of_all_positions b1 (fst p) (snd p))
                     ltac:(destruct p; exact Hp)) c r) as [HA HB];
      [rewrite Hin1; assumption|].
    rewrite Hmine2. destruct (is_mine (st b1 c r)) eqn:Hm.
    + rewrite HB by (left; reflexivity).
      destruct (related_st R_mine b b1 c r (R_mine_refl _) Hr1) as (_ & _ & <-).
      apply (Forall_cells_st (fun s => adjacent s = 0)); [assumption..|].
      eapply Forall_impl; [exact Hcells|]. simpl. tauto.
    + rewrite HA; [|reflexivity|apply elem_of_all_positions; rewrite Hin1; assumption].
      symmetry. apply (mine_neighbors_related R_adj); auto with board.
  - intros _. change (Z.of_nat (count_mines b2) = num_mines b2).
    destruct Hrel as (_ & _ & <- & _).
    assert (Hcm : count_mines b2 = count_mines b1).
    { symmetry. apply count_if_Forall2.
      eapply Forall2_impl; [apply (related_states _ _ _ Hr2)|].
      simpl. intros x y (_ & _ & H). exact H. }
    rewrite Hcm, Hc1. unfold count_mines at 1.
    rewrite count_if_Forall_false; [lia|].
    eapply Forall_impl; [exact Hcells|]. simpl. tauto.
  - intros _. change (revealed_count b2 = Z.of_nat (count_revealed b2)).
    unfold count_revealed. rewrite count_if_Forall_false by exact Hunrev. lia.
  - intros _. eapply Forall_impl; [exact Hunrev|]. simpl. intros x Hx. congruence.
  - eapply Forall_impl; [exact Hunrev|]. simpl. intros x Hx. congruence.
  - change (revealed_count b2 <= Z.of_nat (count_revealed b2)). lia.
Qed.

(** ** The cascade *)

Lemma Region_inbounds b c r x y : Region b c r x y -> is_inbounds b x y = true.
Proof. destruct 1; [assumption|]. eapply neighbors_inbounds; eassumption. Qed.

Lemma Region_hidden b c r x y :
  Region b c r x y -> is_revealed (st b x y) = false /\ is_flagged (st b x y) = false.
Proof. destruct 1; split; assumption. Qed.

Lemma Region_start b c r x y : Region b c r x y -> Region b c r c r.
Proof. induction 1; [constructor; assumption|assumption]. Qed.

Lemma Region_trans b c r x y x' y' :
  Region b c r x y -> Region b x y x' y' -> Region b c r x' y'.
Proof.
  intros H1 H2. induction H2; [assumption|].
  eapply region_step; eassumption.
Qed.

Lemma Region_mono b b1 c r x y :
  cells_related R_reveal b b1 -> Region b1 c r x y -> Region b c r x y.
Proof.
  intros Hrel.
  assert (Hst : forall x y, R_reveal (st b x y) (st b1 x y))
    by (intros; apply related_st; auto with board).
  assert (Hhid : forall x y, is_revealed (st b1 x y) = false -> is_revealed (st b x y) = false).
  { intros x0 y0 H. destruct (Hst x0 y0) as (_ & _ & _ & Hm).
    destruct (is_revealed (st b x0 y0)); [|reflexivity]. rewrite Hm in H; auto. }
  induction 1 as [Hin Hr Hf|x y x' y' _ IH Hm Ha Hn Hr Hf].
  - constructor.
    + rewrite <- (related_inbounds _ _ _ _ _ Hrel). assumption.
    + auto.
    + destruct (Hst c r) as (_ & -> & _). assumption.
  - eapply region_step; [exact IH|..].
    + destruct (Hst x y) as (-> & _). assumption.
    + destruct (Hst x y) as (_ & _ & -> & _). assumption.
    + rewrite <- (related_neighbors _ _ _ _ _ Hrel). assumption.
    + auto.
    + destruct (Hst x' y') as (_ & -> & _). assumption.
Qed.

Lemma Frame_refl b : Inv b -> Frame b b.
Proof. intros H. split; auto. apply related_refl; auto with board. Qed.

Lemma Frame_trans b1 b2 b3 : Frame b1 b2 -> Frame b2 b3 -> Frame b1 b3.
Proof.
  intros [? H12 ? Hg ? Hwl ?] [? H23 ? Hg' ? Hwl' ?]. split; try congruence; auto.
  - eapply related_trans; eauto with board.
  - intros Hgo. rewrite Hwl' by congruence. auto.
Qed.

Lemma Frame_count_le b b' : Frame b b' -> revealed_count b <= revealed_count b'.
Proof.
  intros HF. pose proof (fr_count _ _ HF) as Hc.
  assert (Hle : (count_revealed b <= count_revealed b')%nat); [|lia].
  apply count_if_Forall2_le.
  eapply Forall2_impl; [apply (related_states _ _ _ (fr_ext _ _ HF))|].
  simpl. intros x y (_ & _ & _ & H). exact H.
Qed.

Lemma closed_refl b : closed b b.
Proof. intros x y _ H1 H2. congruence. Qed.

Lemma closed_trans b1 b2 b3 :
  cells_related R_reveal b1 b2 -> cells_related R_reveal b2 b3 ->
  closed b1 b2 -> closed b2 b3 -> closed b1 b3.
Proof.
  intros H12 H23 C12 C23 x y Hin Hh Hr Ha p Hp.
  assert (Hst12 : forall x y, R_reveal (st b1 x y) (st b2 x y))
    by (intros; apply related_st; auto with board).
  assert (Hst23 : forall x y, R_reveal (st b2 x y) (st b3 x y))
    by (intros; apply related_st; auto with board).
  destruct (is_revealed (st b2 x y)) eqn:H2.
  - destruct (C12 x y Hin Hh H2 Ha p Hp) as [H|H]; [left|right; assumption].
    destruct (Hst23 (fst p) (snd p)) as (_ & _ & _ & Hm). auto.
  - destruct (C23 x y) with (p := p) as [H|H].
    + rewrite (related_inbounds _ _ _ _ _ H12). assumption.
    + assumption.
    + assumption.
    + destruct (Hst12 x y) as (_ & _ & <- & _). assumption.
    + rewrite (related_neighbors _ _ _ _ _ H12). assumption.
    + left. assumption.
    + right. destruct (Hst12 (fst p) (snd p)) as (_ & -> & _). assumption.
Qed.

(** *** Single steps of [reveal] *)

Lemma Inv_static b b' :
  Inv b -> cells_related R_reveal b b' -> mines_placed b = true ->
  wf b' /\ adjacency_ok b' /\ Z.of_nat (count_mines b') = num_mines b'.
Proof.
  intros HI Hrel Hp. split; [eapply related_wf; [exact Hrel|apply HI]|]. split.
  - intros c r Hcr. rewrite (related_inbounds _ _ _ _ _ Hrel) in Hcr.
    destruct (related_st R_reveal b b' c r (R_reveal_refl _) Hrel) as (<- & _ & <- & _).
    rewrite (mine_neighbors_related R_reveal b b'); auto with board.
    + apply (inv_adj b HI Hp c r Hcr).
    + intros s s' (? & _). assumption.
  - destruct Hrel as (_ & _ & <- & HF). rewrite <- (inv_mines b HI Hp). f_equal.
    symmetry. apply count_if_Forall2. eapply Forall2_impl; [exact HF|].
    simpl. intros x y (_ & _ & H & _). exact H.
Qed.

Lemma related_Forall_mono (P : CellState -> Prop) b b' :
  (forall s s', R_reveal s s' -> P s -> P s') ->
  cells_related R_reveal b b' ->
  Forall (fun cell => P (state cell)) (cells b) ->
  Forall (fun cell => P (state cell)) (cells b').
Proof.
  intros HP Hrel. apply Forall2_Forall_transfer with (R := fun x y => R_reveal (state x) (state y)).
  - intros x y. apply HP.
  - apply related_states. assumption.
Qed.

Lemma won_mono s s' :
  R_reveal s s' -> (is_mine s = false -> is_revealed s = true) ->
  is_mine s' = false -> is_revealed s' = true.
Proof. intros (Hm & _ & _ & Hr) H Hm'. apply Hr, H. congruence. Qed.

Lemma lost_mono s s' :
  R_reveal s s' -> (is_mine s = true -> is_revealed s = true) ->
  is_mine s' = true -> is_revealed s' = true.
Proof. intros (Hm & _ & _ & Hr) H Hm'. apply Hr, H. congruence. Qed.

Lemma count_revealed_hidden b :
  (count_revealed b + count_hidden b = length (cells b))%nat.
Proof. apply count_if_negb. Qed.

Lemma hidden_le b b' :
  cells_related R_reveal b b' -> (count_hidden b' <= count_hidden b)%nat.
Proof.
  intros Hrel. pose proof (count_revealed_hidden b) as H1.
  pose proof (count_revealed_hidden b') as H2.
  assert (Hlen : length (cells b) = length (cells b')).
  { destruct Hrel as (_ & _ & _ & HF). eapply Forall2_length; eassumption. }
  assert (Hle : (count_revealed b <= count_revealed b')%nat); [|lia].
  apply count_if_Forall2_le. eapply Forall2_impl; [apply (related_states _ _ _ Hrel)|].
  simpl. intros x y (_ & _ & _ & H). exact H.
Qed.

Lemma open_cell_related b c r : cells_related R_reveal b (open_cell b c r).
Proof. apply (related_update R_reveal b (index b c r)); auto with board. Qed.

Lemma open_cell_st b c r :
  wf b -> is_inbounds b c r = true ->
  st (open_cell b c r) c r = set_is_revealed true (st b c r).
Proof. intros. apply (st_update_same b c r); assumption. Qed.

Lemma open_cell_st_other b c r x y :
  is_inbounds b c r = true -> is_inbounds b x y = true -> (c, r) <> (x, y) ->
  st (open_cell b c r) x y = st b x y.
Proof. intros. apply (st_update_other b c r); assumption. Qed.

Lemma open_cell_counts b c r :
  wf b -> is_inbounds b c r = true -> is_revealed (st b c r) = false ->
  count_revealed (open_cell b c r) = S (count_revealed b) /\
  S (count_hidden (open_cell b c r)) = count_hidden b.
Proof.
  intros Hwf Hin Hh. destruct (lookup_index b c r Hwf Hin) as (cell & Hcell & Hst).
  rewrite Hst in Hh. unfold count_revealed, count_hidden, open_cell, update_state; simpl.
  pose proof (count_if_alter (fun cell => is_revealed (state cell))
                (on_state (set_is_revealed true)) _ _ _ Hcell) as H1.
  pose proof (count_if_alter (fun cell => negb (is_revealed (state cell)))
                (on_state (set_is_revealed true)) _ _ _ Hcell) as H2.
  simpl in H1, H2. rewrite Hh in H1, H2. simpl in H1, H2. lia.
Qed.

Lemma open_cell_Frame b c r :
  Inv b -> mines_placed b = true -> is_inbounds b c r = true ->
  is_revealed (st b c r) = false -> is_flagged (st b c r) = false ->
  is_mine (st b c r) = false ->
  Frame b (open_cell b c r).
Proof.
  intros HI Hp Hin Hh Hf Hm. pose proof (inv_wf b HI) as Hwf.
  pose proof (open_cell_related b c r) as Hrel.
  destruct (Inv_static b _ HI Hrel Hp) as (Hwf' & Hadj & Hmines).
  destruct (open_cell_counts b c r Hwf Hin Hh) as [Hcr Hch].
  destruct (lookup_index b c r Hwf Hin) as (cell & Hcell & Hst).
  split; try reflexivity; auto.
  - split; auto.
    + simpl. congruence.
    + intros Hgo. simpl. rewrite Hcr, (inv_count b HI Hgo). lia.
    + intros Hgo. simpl. apply Forall_alter; [apply (inv_live b HI Hgo)|].
      intros x Hx _ _. simpl. split; congruence.
    + intros Hw. apply (related_Forall_mono (fun s => is_mine s = false -> is_revealed s = true) b);
        [apply won_mono|assumption|].
      apply (inv_won b HI Hw).
    + intros Hgo. apply (related_Forall_mono (fun s => is_mine s = true -> is_revealed s = true) b);
        [apply lost_mono|assumption|].
      apply (inv_lost b HI Hgo).
    + simpl. apply Forall_alter; [apply (inv_flag b HI)|].
      intros x Hx _ _. simpl. congruence.
    + simpl. rewrite Hcr. pose proof (inv_count_le b HI). lia.
  - simpl. rewrite Hcr. lia.
Qed.

(** *** The win check *)

Lemma map_id_Forall {A} (g : A -> A) l : Forall (fun x => g x = x) l -> map g l = l.
Proof. induction 1 as [|x l Hx _ IH]; simpl; congruence. Qed.

Lemma all_safe_revealed b :
  Inv b -> mines_placed b = true -> 0 <= cols b -> 0 <= rows b ->
  win_condition b = true ->
  Forall (fun cell => is_mine (state cell) = false -> is_revealed (state cell) = true)
         (cells b).
Proof.
  intros HI Hp Hc Hr Hcond. apply andb_true_iff in Hcond as [Hcnt Hgo].
  apply Z.eqb_eq in Hcnt. apply negb_true_iff in Hgo.
  pose proof (inv_count b HI Hgo) as Hrc. pose proof (inv_mines b HI Hp) as Hm.
  pose proof (inv_wf b HI) as Hwf. unfold wf in Hwf.
  pose proof (count_if_negb (fun cell => is_mine (state cell)) (cells b)) as Hsum.
  fold (count_mines b) in Hsum.
  assert (Hlen : Z.of_nat (length (cells b)) = cols b * rows b).
  { rewrite Hwf, Nat2Z.inj_mul, !Z2Nat.id by assumption. lia. }
  pose proof (count_if_squeeze
                (fun cell => is_revealed (state cell))
                (fun cell => negb (is_mine (state cell))) (cells b)) as Hsq.
  eapply Forall_impl; [apply Hsq|].
  - eapply Forall_impl; [apply (inv_live b HI Hgo)|]. simpl.
    intros x Hx Hrev. destruct (Hx Hrev) as [-> _]. reflexivity.
  - fold (count_revealed b). lia.
  - simpl. intros x Hx Hmine. apply Hx. rewrite Hmine. reflexivity.
Qed.

Lemma check_win_spec b :
  Inv b -> mines_placed b = true -> 0 <= cols b -> 0 <= rows b ->
  _check_win b = (if win_condition b then with_win b true else b) /\
  Frame b (_check_win b).
Proof.
  intros HI Hp Hc Hr. unfold _check_win. fold (win_condition b).
  destruct (win_condition b) eqn:Hcond; [|split; [reflexivity|apply Frame_refl; assumption]].
  pose proof (all_safe_revealed b HI Hp Hc Hr Hcond) as Hall.
  rewrite map_id_Forall.
  2:{ eapply Forall_impl; [exact Hall|]. simpl. intros x Hx.
      destruct (is_mine (state x)); [rewrite andb_false_r; reflexivity|].
      rewrite Hx by reflexivity. reflexivity. }
  split; [reflexivity|].
  apply andb_true_iff in Hcond as [_ Hgo]. apply negb_true_iff in Hgo.
  change (with_cells (with_win b true) (cells b)) with (with_win b true).
  split; try reflexivity.
  - destruct HI. split; auto. simpl. intros. congruence.
  - exact (related_refl R_reveal b R_reveal_refl).
  - simpl. intros. congruence.
Qed.

(** *** Stepping on a mine *)

Lemma lose_spec b c r :
  Inv b -> mines_placed b = true -> is_inbounds b c r = true ->
  is_revealed (st b c r) = false -> is_flagged (st b c r) = false ->
  let b' := lose b c r in
  Inv b' /\ cells_related R_reveal b b' /\ mines_placed b' = true /\
  game_over b' = true /\ win b' = win b /\
  revealed_count b' = revealed_count b + 1 /\
  is_revealed (st b' c r) = true.
Proof.
  intros HI Hp Hin Hh Hfl b'. pose proof (inv_wf b HI) as Hwf.
  assert (Hrel1 : cells_related R_reveal b (with_game_over (open_cell b c r) true))
    by apply open_cell_related.
  assert (Hrel2 : cells_related R_reveal (with_game_over (open_cell b c r) true) b').
  { apply (related_map R_reveal). intros x.
    destruct (is_mine (state x)); simpl; auto with board. }
  assert (Hrel : cells_related R_reveal b b')
    by (eapply related_trans; eauto with board).
  destruct (Inv_static b _ HI Hrel Hp) as (Hwf' & Hadj & Hmines).
  split; [|split; [exact Hrel|]].
  - split; auto; try (simpl; intros; congruence).
    + intros Hw. apply (related_Forall_mono (fun s => is_mine s = false -> is_revealed s = true) b);
        [apply won_mono|assumption|].
      apply (inv_won b HI Hw).
    + intros _. unfold b', lose, _reveal_all_mines. simpl.
      apply Forall_forall. intros x Hx.
      apply list_elem_of_fmap in Hx as (y & -> & _).
      destruct (is_mine (state y)) eqn:Hy; simpl; congruence.
    + assert (Hopen : Forall (fun cell => is_revealed (state cell) = true ->
                                          is_flagged (state cell) = true ->
                                          is_mine (state cell) = true)
                             (cells (open_cell b c r))).
      { simpl. apply Forall_alter; [apply (inv_flag b HI)|].
        destruct (lookup_index b c r Hwf Hin) as (cell & Hcell & Hst).
        intros x Hx _. simplify_eq. simpl. congruence. }
      unfold b', lose, _reveal_all_mines. rewrite Forall_forall in Hopen.
      apply Forall_forall. intros x Hx.
      apply list_elem_of_fmap in Hx as (y & -> & Hy).
      destruct (is_mine (state y)) eqn:Hm; simpl; [auto|].
      apply (Hopen y Hy).
    + destruct (open_cell_counts b c r Hwf Hin Hh) as [Hcr _].
      pose proof (inv_count_le b HI) as Hle.
      assert (Hmono : (count_revealed (open_cell b c r) <= count_revealed b')%nat).
      { apply count_if_Forall2_le.
        eapply Forall2_impl; [apply (related_states _ _ _ Hrel2)|].
        simpl. intros x y (_ & _ & _ & H). exact H. }
      change (revealed_count b + 1 <= Z.of_nat (count_revealed b')). lia.
  - split; [exact Hp|]. split; [reflexivity|]. split; [reflexivity|].
    split; [reflexivity|].
    destruct (related_st R_reveal _ _ c r (R_reveal_refl _) Hrel2) as (_ & _ & _ & Hm).
    apply Hm. change (is_revealed (st (open_cell b c r) c r) = true).
    rewrite open_cell_st by assumption. reflexivity.
Qed.

(** *** The recursion *)

Lemma count_if_zero {A} (p : A -> bool) l x :
  count_if p l = 0%nat -> x ∈ l -> p x = false.
Proof.
  induction l as [|y l IH]; intros H Hx; [inversion Hx|].
  rewrite count_if_cons in H. apply elem_of_cons in Hx as [->|Hx].
  - destruct (p y); [discriminate|reflexivity].
  - apply IH; [lia|assumption].
Qed.

Lemma reveal_body_eq rec rnd b c r :
  mines_placed b = true -> is_inbounds b c r = true ->
  reveal_body rec rnd b c r =
  if is_revealed (st b c r) || is_flagged (st b c r) then Ok b
  else if is_mine (st (open_cell b c r) c r) then Ok (lose b c r)
  else do b2 <- (if adjacent (st (open_cell b c r) c r) =? 0
                 then reveal_each rec (neighbors (open_cell b c r) c r) (open_cell b c r)
                 else Ok (open_cell b c r));
       Ok (_check_win b2).
Proof. intros Hp Hin. unfold reveal_body. rewrite Hin, Hp. reflexivity. Qed.

Lemma Post_refl b c r :
  Inv b ->
  (is_inbounds b c r = true ->
   is_revealed (st b c r) = true \/ is_flagged (st b c r) = true) ->
  Post b c r b.
Proof.
  intros HI Ht. split.
  - apply Frame_refl. assumption.
  - assumption.
  - intros x y _ H1 H2. congruence.
  - apply closed_refl.
  - intros Hin H1 H2. destruct (Ht Hin); congruence.
  - intros Hin H1 H2. destruct (Ht Hin); congruence.
Qed.

Section Cascade.
Variable rec : Board -> Z -> Z -> result.
Variable h : nat.
Hypothesis Hrec :
  forall b c r, Inv b -> mines_placed b = true ->
    is_inbounds b c r = true -> is_mine (st b c r) = false ->
    (count_hidden b < h)%nat ->
    exists b', rec b c r = Ok b' /\ Post b c r b'.

Lemma reveal_each_Post ps :
  forall b, Inv b -> mines_placed b = true ->
    (forall p, p ∈ ps -> is_inbounds b (fst p) (snd p) = true /\
                         is_mine (st b (fst p) (snd p)) = false) ->
    (count_hidden b < h)%nat ->
    exists b', reveal_each rec ps b = Ok b' /\ LoopPost b ps b'.
Proof.
  induction ps as [|p ps IH]; intros b HI Hp Hps Hh; simpl.
  - exists b. split; [reflexivity|]. split.
    + apply Frame_refl. assumption.
    + intros p Hp'. inversion Hp'.
    + intros x y _ H1 H2. congruence.
    + apply closed_refl.
  - destruct (Hps p ltac:(left)) as [Hpin Hpm].
    destruct (Hrec b (fst p) (snd p) HI Hp Hpin Hpm Hh) as (b1 & Heq1 & HP1).
    rewrite Heq1. simpl.
    pose proof (post_frame _ _ _ _ HP1) as HF1.
    pose proof (fr_ext _ _ HF1) as Hrel1.
    assert (Hst1 : forall x y, R_reveal (st b x y) (st b1 x y))
      by (intros; apply related_st; auto with board).
    destruct (IH b1) as (b2 & Heq2 & HL).
    + apply HF1.
    + rewrite (fr_placed _ _ HF1). assumption.
    + intros q Hq. destruct (Hps q ltac:(right; exact Hq)) as [Hqin Hqm].
      rewrite (related_inbounds _ _ _ _ _ Hrel1).
      destruct (Hst1 (fst q) (snd q)) as (<- & _). split; assumption.
    + pose proof (hidden_le _ _ Hrel1). lia.
    + exists b2. split; [assumption|].
      pose proof (loop_frame _ _ _ HL) as HF2.
      pose proof (fr_ext _ _ HF2) as Hrel2.
      assert (Hst2 : forall x y, R_reveal (st b1 x y) (st b2 x y))
        by (intros; apply related_st; auto with board).
      split.
      * eapply Frame_trans; eassumption.
      * intros q Hq. apply elem_of_cons in Hq as [->|Hq].
        -- destruct (post_target _ _ _ _ HP1 Hpin) as [H|H]; [left|right; assumption].
           destruct (Hst2 (fst p) (snd p)) as (_ & _ & _ & Hm). auto.
        -- destruct (loop_targets _ _ _ HL q Hq) as [H|H]; [left; assumption|right].
           destruct (Hst1 (fst q) (snd q)) as (_ & -> & _). assumption.
      * intros x y Hin Hhid Hrev. destruct (is_revealed (st b1 x y)) eqn:H1.
        -- exists p. split; [left|]. apply (post_sound _ _ _ _ HP1); assumption.
        -- destruct (loop_sound _ _ _ HL x y) as (q & Hq & HR); try assumption.
           { rewrite (related_inbounds _ _ _ _ _ Hrel1). assumption. }
           exists q. split; [right; assumption|].
           eapply Region_mono; eassumption.
      * eapply closed_trans; [exact Hrel1|exact Hrel2|apply HP1|apply HL].
Qed.

Lemma reveal_body_Post rnd b c r :
  Inv b -> mines_placed b = true ->
  (is_inbounds b c r = true -> is_mine (st b c r) = false) ->
  (count_hidden b <= h)%nat ->
  exists b', reveal_body rec rnd b c r = Ok b' /\ Post b c r b'.
Proof.
  intros HI Hp Hsafe Hh. destruct (is_inbounds b c r) eqn:Hin.
  2:{ exists b. unfold reveal_body. rewrite Hin. split; [reflexivity|].
      apply Post_refl; [assumption|congruence]. }
  specialize (Hsafe eq_refl). rewrite reveal_body_eq by assumption.
  destruct (is_revealed (st b c r)) eqn:Hrev.
  { exists b. split; [reflexivity|]. apply Post_refl; auto. }
  destruct (is_flagged (st b c r)) eqn:Hfl.
  { exists b. split; [reflexivity|]. apply Post_refl; auto. }
  simpl orb. cbv iota.
  pose proof (inv_wf b HI) as Hwf.
  pose proof (open_cell_Frame b c r HI Hp Hin Hrev Hfl Hsafe) as HF1.
  pose proof (open_cell_related b c r) as Hrel1.
  destruct (open_cell_counts b c r Hwf Hin Hrev) as [_ Hcnt].
  rewrite (open_cell_st b c r Hwf Hin), (related_neighbors _ _ _ _ _ Hrel1).
  simpl is_mine. simpl adjacent. rewrite Hsafe.
  set (b1 := open_cell b c r) in *.
  assert (Hst1 : forall x y, R_reveal (st b x y) (st b1 x y))
    by (intros; apply related_st; auto with board).
  assert (Hin1 : forall x y, is_inbounds b1 x y = is_inbounds b x y)
    by (intros; apply (related_inbounds _ _ _ _ _ Hrel1)).
  assert (Hloop : exists b2,
    (if adjacent (st b c r) =? 0 then reveal_each rec (neighbors b c r) b1 else Ok b1) = Ok b2 /\
    Frame b1 b2 /\ closed b1 b2 /\
    (adjacent (st b c r) = 0 -> forall p, p ∈ neighbors b c r ->
       is_revealed (st b2 (fst p) (snd p)) = true \/
       is_flagged (st b1 (fst p) (snd p)) = true) /\
    (forall x y, is_inbounds b1 x y = true -> is_revealed (st b1 x y) = false ->
       is_revealed (st b2 x y) = true ->
       adjacent (st b c r) = 0 /\
       exists p, p ∈ neighbors b c r /\ Region b1 (fst p) (snd p) x y)).
  { destruct (adjacent (st b c r) =? 0) eqn:Hadj.
    - apply Z.eqb_eq in Hadj.
      destruct (reveal_each_Post (neighbors b c r) b1) as (b2 & Heq & HL).
      + apply HF1.
      + rewrite (fr_placed _ _ HF1). assumption.
      + intros [x y] Hp'. simpl. rewrite Hin1.
        split; [eapply neighbors_inbounds; eassumption|].
        destruct (Hst1 x y) as (<- & _).
        pose proof (inv_adj b HI Hp c r Hin) as Hok.
        rewrite Hsafe, Hadj in Hok. unfold mine_neighbors in Hok.
        apply (count_if_zero (fun p => is_mine (st b (fst p) (snd p)))
                 (neighbors b c r) (x, y)); [lia|assumption].
      + lia.
      + exists b2. split; [assumption|]. split; [apply HL|]. split; [apply HL|].
        split; [intros _; apply HL|].
        intros x y H1 H2 H3. split; [assumption|].
        apply (loop_sound _ _ _ HL); assumption.
    - exists b1. split; [reflexivity|]. split; [apply Frame_refl, HF1|].
      split; [apply closed_refl|]. apply Z.eqb_neq in Hadj.
      split; [intros; contradiction|]. intros; congruence. }
  destruct Hloop as (b2 & Heq & HF2 & Hcl2 & Htg & Hsd). rewrite Heq. simpl bind.
  pose proof (fr_ext _ _ HF2) as Hrel2.
  assert (Hst2 : forall x y, R_reveal (st b1 x y) (st b2 x y))
    by (intros; apply related_st; auto with board).
  apply is_inbounds_iff in Hin as Hdims.
  assert (Hrel : cells_related R_reveal b b2)
    by (eapply related_trans; eauto with board).
  destruct (check_win_spec b2) as [Hcw HF3].
  { apply HF2. } { rewrite (fr_placed _ _ HF2), (fr_placed _ _ HF1). assumption. }
  { destruct Hrel as (<- & _). lia. } { destruct Hrel as (_ & <- & _). lia. }
  exists (_check_win b2). split; [reflexivity|].
  assert (Hst3 : forall x y, st (_check_win b2) x y = st b2 x y).
  { intros x y. rewrite Hcw. destruct (win_condition b2); reflexivity. }
  assert (Hopen : is_revealed (st b1 c r) = true).
  { unfold b1. rewrite open_cell_st by assumption. reflexivity. }
  split.
  - eapply Frame_trans; [exact HF1|]. eapply Frame_trans; eassumption.
  - intros _. left. rewrite Hst3. destruct (Hst2 c r) as (_ & _ & _ & Hm). auto.
  - intros x y Hxy Hhid Hrev'. rewrite Hst3 in Hrev'.
    destruct (decide ((c, r) = (x, y))) as [Heq'|Hne].
    { simplify_eq. constructor; assumption. }
    destruct (Hsd x y) as (Hadj & p & Hp' & HR).
    + rewrite Hin1. assumption.
    + unfold b1. rewrite open_cell_st_other by assumption. assumption.
    + assumption.
    + apply (Region_mono b b1) in HR; [|assumption].
      eapply Region_trans; [|exact HR].
      destruct (Region_hidden _ _ _ _ _ (Region_start _ _ _ _ _ HR)) as [Hph Hpf].
      apply (region_step b c r c r (fst p) (snd p));
        [constructor; assumption|exact Hsafe|exact Hadj| |exact Hph|exact Hpf].
      destruct p; exact Hp'.
  - intros x y Hxy Hhid Hrev' Hadj p Hp'. rewrite Hst3 in Hrev'. rewrite Hst3.
    assert (Hflag : is_flagged (st b1 (fst p) (snd p)) = is_flagged (st b (fst p) (snd p))).
    { destruct (Hst1 (fst p) (snd p)) as (_ & -> & _). reflexivity. }
    destruct (decide ((c, r) = (x, y))) as [Heq'|Hne].
    + simplify_eq. rewrite <- Hflag. apply Htg; assumption.
    + rewrite <- Hflag. apply (Hcl2 x y).
      * rewrite Hin1. assumption.
      * unfold b1. rewrite open_cell_st_other by assumption. assumption.
      * assumption.
      * unfold b1. rewrite open_cell_st_other by assumption. assumption.
      * rewrite (related_neighbors _ _ _ _ _ Hrel1). assumption.
  - intros _ _ _ Hgo Hcount. rewrite Hcw.
    assert (Hcond : win_condition b2 = true).
    { assert (Hrc : revealed_count (_check_win b2) = revealed_count b2)
        by (rewrite Hcw; destruct (win_condition b2); reflexivity).
      unfold win_condition. rewrite <- Hrc, Hcount.
      destruct Hrel as (<- & <- & <- & _). rewrite Z.eqb_refl.
      rewrite (fr_game_over _ _ HF2), (fr_game_over _ _ HF1), Hgo. reflexivity. }
    rewrite Hcond. reflexivity.
  - intros _ _ _. pose proof (Frame_count_le _ _ HF2) as Hle2.
    pose proof (Frame_count_le _ _ HF3) as Hle3.
    change (revealed_count b1) with (revealed_count b + 1) in Hle2. lia.
Qed.
End Cascade.

Lemma reveal_rec_Post fuel :
  forall rnd b c r, Inv b -> mines_placed b = true ->
    (is_inbounds b c r = true -> is_mine (st b c r) = false) ->
    (count_hidden b < fuel)%nat ->
    exists b', reveal_rec fuel rnd b c r = Ok b' /\ Post b c r b'.
Proof.
  induction fuel as [|fuel IH]; intros rnd b c r HI Hp Hsafe Hh; [lia|].
  simpl. apply (reveal_body_Post (reveal_rec fuel rnd) fuel);
    [|exact HI|exact Hp|exact Hsafe|lia].
  intros b1 c1 r1 HI1 Hp1 Hin1 Hm1 Hh1. apply IH; auto.
Qed.

Lemma count_hidden_le_length b : (count_hidden b <= length (cells b))%nat.
Proof. apply count_if_le_length. Qed.

(** *** The first click *)

Lemma place_mines_safe rnd b c r b0 :
  Inv b -> mines_placed b = false -> place_mines rnd b c r = Ok b0 ->
  (forall x y, (x, y) ∈ forbidden b c r -> is_inbounds b x y = true ->
               is_mine (st b0 x y) = false) /\
  (is_inbounds b c r = true -> adjacent (st b0 c r) = 0).
Proof.
  intros HI Hp Heq. pose proof (place_mines_spec rnd b c r HI Hp) as Hspec.
  rewrite Heq in Hspec. destruct Hspec as (_ & HI0 & Hp0 & Hrel & _ & _ & _ & Hpool).
  assert (Hsafe : forall x y, (x, y) ∈ forbidden b c r -> is_inbounds b x y = true ->
                              is_mine (st b0 x y) = false).
  { intros x y Hf Hin. destruct (is_mine (st b0 x y)) eqn:Hm; [|reflexivity].
    apply Hpool, elem_of_pool in Hm as [_ Hn]; [contradiction|assumption]. }
  split; [exact Hsafe|]. intros Hin.
  assert (Hin0 : is_inbounds b0 c r = true)
    by (rewrite (related_inbounds _ _ _ _ _ Hrel); assumption).
  rewrite (inv_adj b0 HI0 Hp0 c r Hin0), (Hsafe c r) by (assumption || left).
  unfold mine_neighbors. rewrite count_if_Forall_false; [reflexivity|].
  rewrite (related_neighbors _ _ _ _ _ Hrel). apply Forall_forall.
  intros [x y] Hxy. simpl. apply Hsafe.
  - right. assumption.
  - eapply neighbors_inbounds. eassumption.
Qed.

Lemma reveal_placed_outcome rnd b b0 c r :
  ready rnd b c r b0 -> is_inbounds b c r = true -> is_inbounds b0 c r = true ->
  length (cells b0) = length (cells b) ->
  reveal_outcome rnd b c r (reveal_body (reveal_rec (length (cells b)) rnd) rnd b0 c r).
Proof.
  intros Hready Hin Hin0 Hlen. pose proof Hready as (HI0 & Hp0 & _).
  destruct (is_mine (st b0 c r)) eqn:Hm.
  - rewrite reveal_body_eq by assumption.
    destruct (is_revealed (st b0 c r)) eqn:Hrev; [apply out_skip; auto|].
    destruct (is_flagged (st b0 c r)) eqn:Hfl; [apply out_skip; auto|].
    simpl orb. cbv iota.
    rewrite (open_cell_st b0 c r (inv_wf b0 HI0) Hin0). simpl is_mine. rewrite Hm.
    apply out_mine; assumption.
  - destruct (reveal_body_Post (reveal_rec (length (cells b)) rnd) (length (cells b))
                (fun b1 c1 r1 HI1 Hp1 _ Hm1 Hh1 =>
                   reveal_rec_Post _ rnd b1 c1 r1 HI1 Hp1 (fun _ => Hm1) Hh1)
                rnd b0 c r HI0 Hp0 (fun _ => Hm)) as (b' & Heq & HP).
    { rewrite <- Hlen. apply count_hidden_le_length. }
    rewrite Heq.
    destruct (is_revealed (st b0 c r)) eqn:Hrev.
    { rewrite reveal_body_eq, Hrev in Heq by assumption. simpl in Heq.
      injection Heq as <-. apply out_skip; auto. }
    destruct (is_flagged (st b0 c r)) eqn:Hfl.
    { rewrite reveal_body_eq, Hrev, Hfl in Heq by assumption. simpl in Heq.
      injection Heq as <-. apply out_skip; auto. }
    eapply out_safe; eassumption.
Qed.

Lemma reveal_outcome_ok rnd b c r :
  Inv b -> reveal_outcome rnd b c r (reveal rnd b c r).
Proof.
  intros HI. unfold reveal. simpl reveal_rec.
  destruct (is_inbounds b c r) eqn:Hin.
  2:{ unfold reveal_body. rewrite Hin. apply out_oob. assumption. }
  destruct (mines_placed b) eqn:Hp.
  - apply reveal_placed_outcome; auto. split; auto.
  - pose proof (place_mines_spec rnd b c r HI Hp) as Hspec.
    destruct (place_mines rnd b c r) as [b0|e b0|] eqn:Hpm; [| |contradiction].
    + destruct Hspec as (_ & HI0 & Hp0 & Hrel & _).
      assert (Hin0 : is_inbounds b0 c r = true)
        by (rewrite (related_inbounds _ _ _ _ _ Hrel); assumption).
      assert (Heq : forall rec, reveal_body rec rnd b c r = reveal_body rec rnd b0 c r).
      { intros rec. unfold reveal_body. rewrite Hin, Hin0, Hp, Hp0, Hpm. reflexivity. }
      rewrite Heq. apply reveal_placed_outcome; auto.
      * split; auto.
      * destruct Hrel as (_ & _ & _ & HF). symmetry. eapply Forall2_length. eassumption.
    + destruct Hspec as [-> _].
      assert (e = ValueError) as ->.
      { revert Hpm. unfold place_mines.
        destruct (random_sample rnd (pool b c r) (num_mines b)); congruence. }
      unfold reveal_body. rewrite Hin, Hp, Hpm. simpl. apply out_raise; assumption.
Qed.

(** ** Flags *)

Lemma R_flag_refl s : R_flag s s.
Proof. repeat split. Qed.

Lemma toggle_flag_cases b c r :
  (toggle_flag b c r = b /\
   (is_inbounds b c r = false \/ is_revealed (st b c r) = true)) \/
  (toggle_flag b c r =
     update_state b (index b c r) (fun s => set_is_flagged (negb (is_flagged s)) s) /\
   is_inbounds b c r = true /\ is_revealed (st b c r) = false).
Proof.
  unfold toggle_flag, st. destruct (is_inbounds b c r); simpl; [|auto].
  destruct (is_revealed (cell_state b (index b c r))); simpl; auto.
Qed.

Lemma toggle_flag_related b c r : cells_related R_flag b (toggle_flag b c r).
Proof.
  destruct (toggle_flag_cases b c r) as [[-> _]|[-> _]].
  - apply related_refl, R_flag_refl.
  - apply related_update; [apply R_flag_refl|]. intros s. repeat split.
Qed.

Lemma toggle_flag_flags b c r : same_flags b (toggle_flag b c r).
Proof.
  destruct (toggle_flag_cases b c r) as [[-> _]|[-> _]]; repeat split.
Qed.

Lemma toggle_flag_Inv b c r : Inv b -> Inv (toggle_flag b c r).
Proof.
  intros HI. pose proof (toggle_flag_related b c r) as Hrel.
  destruct (toggle_flag_cases b c r) as [[Heq _]|(Heq & Hin & Hrev)];
    [rewrite Heq; assumption|].
  rewrite Heq in *. clear Heq.
  set (f := fun s => set_is_flagged (negb (is_flagged s)) s) in *.
  pose proof (inv_wf b HI) as Hwf.
  destruct (lookup_index b c r Hwf Hin) as (cell & Hcell & Hst).
  assert (Hstates := related_states _ _ _ Hrel).
  assert (Hrevs : count_revealed (update_state b (index b c r) f) = count_revealed b).
  { symmetry. apply count_if_Forall2. eapply Forall2_impl; [exact Hstates|].
    simpl. intros x y (_ & H & _). exact H. }
  split.
  - eapply related_wf; eassumption.
  - intros Hp. destruct (inv_fresh b HI Hp) as (HF & Hrest). split; [|exact Hrest].
    eapply Forall2_Forall_transfer; [|exact Hstates|exact HF].
    simpl. intros x y (? & ? & ?) (? & ? & ?). repeat split; congruence.
  - intros Hp c' r' Hin'. rewrite (related_inbounds _ _ _ _ _ Hrel) in Hin'.
    destruct (related_st R_flag _ _ c' r' (R_flag_refl _) Hrel) as (<- & _ & <-).
    rewrite (mine_neighbors_related R_flag b); auto using R_flag_refl.
    + apply (inv_adj b HI Hp c' r' Hin').
    + intros s s' (? & _). assumption.
  - intros Hp. change (Z.of_nat (count_mines (update_state b (index b c r) f)) = num_mines b).
    rewrite <- (inv_mines b HI Hp). f_equal. symmetry. apply count_if_Forall2.
    eapply Forall2_impl; [exact Hstates|]. simpl. intros x y (H & _). exact H.
  - intros Hgo. rewrite Hrevs. apply (inv_count b HI Hgo).
  - intros Hgo. simpl. apply Forall_alter; [apply (inv_live b HI Hgo)|].
    intros x Hx _. simplify_eq. simpl. rewrite Hst in Hrev. rewrite Hrev. discriminate.
  - intros Hw. eapply Forall2_Forall_transfer; [|exact Hstates|exact (inv_won b HI Hw)].
    simpl. intros x y (Hm & Hr & _) H Hy. rewrite <- Hr. apply H. congruence.
  - intros Hgo. eapply Forall2_Forall_transfer; [|exact Hstates|exact (inv_lost b HI Hgo)].
    simpl. intros x y (Hm & Hr & _) H Hy. rewrite <- Hr. apply H. congruence.
  - simpl. apply Forall_alter; [apply (inv_flag b HI)|].
    intros x Hx _. simplify_eq. simpl. congruence.
  - rewrite Hrevs. apply (inv_count_le b HI).
Qed.

(** ** Reachable boards satisfy the invariant *)

Lemma reveal_outcome_Inv rnd b c r res :
  Inv b -> reveal_outcome rnd b c r res ->
  match res with
  | Ok b' => Inv b'
  | Raise _ b' => b' = b
  | OutOfFuel => False
  end.
Proof.
  intros HI [Hin|Hin Hp Hpm|b0 Hin (HI0 & _) _|b0 Hin (HI0 & Hp0 & Hb0) Hrev Hfl Hm
            |b0 b' Hin _ _ _ _ HP]; auto.
  - assert (Hin0 : is_inbounds b0 c r = true).
    { destruct Hb0 as [[_ ->]|[Hp Hpm]]; [assumption|].
      pose proof (place_mines_spec rnd b c r HI Hp) as Hspec. rewrite Hpm in Hspec.
      destruct Hspec as (_ & _ & _ & Hrel & _).
      rewrite (related_inbounds _ _ _ _ _ Hrel). assumption. }
    apply lose_spec; assumption.
  - apply HP.
Qed.

Lemma step_Inv b o : Inv b -> Inv (step b o).
Proof.
  intros HI. destruct o as [c r rnd|c r]; simpl.
  - pose proof (reveal_outcome_Inv rnd b c r _ HI (reveal_outcome_ok rnd b c r HI)) as H.
    destruct (reveal rnd b c r); [assumption|subst; assumption|assumption].
  - apply toggle_flag_Inv. assumption.
Qed.

Lemma reachable_Inv b : reachable b -> Inv b.
Proof.
  induction 1 as [ncols nrows mines|b o _ IH]; [apply Inv_new_Board|apply step_Inv, IH].
Qed.

Lemma run_Inv ops : forall b, Inv b -> Inv (run b ops).
Proof.
  induction ops as [|o ops IH]; intros b HI; [assumption|].
  apply IH, step_Inv, HI.
Qed.

Lemma run_reachable ops : forall b, reachable b -> reachable (run b ops).
Proof.
  induction ops as [|o ops IH]; intros b Hb; [assumption|].
  apply IH. constructor. assumption.
Qed.

(** A call to [reveal] on a reachable board returns, or raises the sampler's
    exception before anything has been written. *)
Lemma reveal_returns rnd b c r :
  Inv b ->
  (exists b', reveal rnd b c r = Ok b') \/
  (reveal rnd b c r = Raise ValueError b /\ mines_placed b = false).
Proof.
  intros HI. pose proof (reveal_outcome_ok rnd b c r HI) as H.
  inversion H; eauto.
Qed.

Lemma ready_unplaced rnd b c r b0 :
  ready rnd b c r b0 -> mines_placed b = false -> place_mines rnd b c r = Ok b0.
Proof. intros (_ & _ & [[Hp _]|[_ H]]) Hp'; [congruence|assumption]. Qed.

Lemma ready_placed rnd b c r b0 :
  ready rnd b c r b0 -> mines_placed b = true -> b0 = b.
Proof. intros (_ & _ & [[_ H]|[Hp _]]) Hp'; [assumption|congruence]. Qed.

(** ** Mines and counts never change after placement *)

Lemma R_static_trans s1 s2 s3 : R_static s1 s2 -> R_static s2 s3 -> R_static s1 s3.
Proof. intros [? ?] [? ?]. split; congruence. Qed.

Lemma step_static b o :
  Inv b -> mines_placed b = true ->
  mines_placed (step b o) = true /\ cells_related R_static b (step b o).
Proof.
  intros HI Hp.
  assert (Hrev : forall b', cells_related R_reveal b b' -> cells_related R_static b b').
  { intros b'. apply related_impl. intros s s' (? & _ & ? & _). split; assumption. }
  destruct o as [c r rnd|c r]; simpl.
  - pose proof (reveal_outcome_ok rnd b c r HI) as Hout.
    destruct Hout as [Hin|Hin Hp' Hpm|b0 Hin Hr _|b0 Hin Hr Hh Hf Hm|b0 b' Hin Hr _ _ _ HP].
    + split; [assumption|]. apply Hrev, related_refl, R_reveal_refl.
    + congruence.
    + rewrite (ready_placed _ _ _ _ _ Hr Hp). split; [assumption|].
      apply Hrev, related_refl, R_reveal_refl.
    + rewrite (ready_placed _ _ _ _ _ Hr Hp) in *.
      destruct (lose_spec b c r HI Hp Hin Hh Hf) as (_ & Hrel & Hp' & _). auto.
    + rewrite (ready_placed _ _ _ _ _ Hr Hp) in *.
      pose proof (post_frame _ _ _ _ HP) as HF. split.
      * rewrite (fr_placed _ _ HF). assumption.
      * apply Hrev, HF.
  - destruct (toggle_flag_flags b c r) as (<- & _). split; [assumption|].
    eapply related_impl; [|apply toggle_flag_related].
    intros s s' (? & _ & ?). split; assumption.
Qed.

Lemma run_static ops :
  forall b, Inv b -> mines_placed b = true ->
    mines_placed (run b ops) = true /\ cells_related R_static b (run b ops).
Proof.
  induction ops as [|o ops IH]; intros b HI Hp; simpl.
  - split; [assumption|]. apply related_refl. intros s. split; reflexivity.
  - destruct (step_static b o HI Hp) as [Hp1 Hrel1].
    destruct (IH (step b o) (step_Inv b o HI) Hp1) as [Hp2 Hrel2].
    split; [assumption|]. eapply related_trans; [apply R_static_trans|eassumption..].
Qed.

(** ** The recursion limit *)

Lemma place_mines_raises rnd b c r e b' :
  place_mines rnd b c r = Raise e b' -> e = ValueError.
Proof.
  unfold place_mines.
  destruct (random_sample rnd (pool b c r) (num_mines b)); congruence.
Qed.

(** Two ways of making the nested calls that agree on the calls that run to
    their end give the same loop and the same body. *)
Lemma reveal_each_agree rec1 rec2 ps :
  (forall b c r, completes (rec1 b c r) -> rec2 b c r = rec1 b c r) ->
  forall b, completes (reveal_each rec1 ps b) ->
    reveal_each rec2 ps b = reveal_each rec1 ps b.
Proof.
  intros H. induction ps as [|p ps IH]; intros b Hc; [reflexivity|].
  cbn [reveal_each] in *.
  destruct (rec1 b (fst p) (snd p)) as [b1|e b1|] eqn:E1.
  - rewrite (H b (fst p) (snd p)), E1 by (rewrite E1; exact I).
    cbn [bind] in *. apply IH, Hc.
  - rewrite (H b (fst p) (snd p)), E1 by (rewrite E1; exact Hc). reflexivity.
  - contradiction.
Qed.

Lemma reveal_body_agree rec1 rec2 rnd b c r :
  (forall b c r, completes (rec1 b c r) -> rec2 b c r = rec1 b c r) ->
  completes (reveal_body rec1 rnd b c r) ->
  reveal_body rec2 rnd b c r = reveal_body rec1 rnd b c r.
Proof.
  intros H. unfold reveal_body.
  destruct (negb (is_inbounds b c r)); [reflexivity|].
  destruct (if negb (mines_placed b) then place_mines rnd b c r else Ok b)
    as [b0|e b0|]; cbn [bind]; [|reflexivity..].
  cbv zeta.
  destruct (is_revealed (cell_state b0 (index b0 c r)) ||
            is_flagged (cell_state b0 (index b0 c r))); [reflexivity|].
  match goal with |- context [if is_mine ?s then _ else _] => destruct (is_mine s) end;
    [reflexivity|].
  match goal with |- context [if ?a =? 0 then _ else _] => destruct (a =? 0) end;
    [|reflexivity].
  match goal with |- context [reveal_each rec1 ?ps ?b1] =>
    intros Hc; rewrite (reveal_each_agree rec1 rec2 ps H b1); [reflexivity|];
    destruct (reveal_each rec1 ps b1); exact Hc
  end.
Qed.

Lemma reveal_rec_limited fuel :
  forall depth rnd b c r, (fuel <= depth)%nat ->
    completes (reveal_rec fuel rnd b c r) ->
    reveal_limited depth rnd b c r = reveal_rec fuel rnd b c r.
Proof.
  induction fuel as [|fuel IH]; intros depth rnd b c r Hle Hc; [contradiction|].
  destruct depth as [|depth]; [lia|]. cbn [reveal_rec reveal_limited] in *.
  apply reveal_body_agree; [|exact Hc]. intros; apply IH; [lia|assumption].
Qed.

Lemma reveal_limited_rec depth :
  forall fuel rnd b c r, (depth <= fuel)%nat ->
    completes (reveal_limited depth rnd b c r) ->
    reveal_rec fuel rnd b c r = reveal_limited depth rnd b c r.
Proof.
  induction depth as [|depth IH]; intros fuel rnd b c r Hle Hc; [contradiction|].
  destruct fuel as [|fuel]; [lia|]. cbn [reveal_rec reveal_limited] in *.
  apply reveal_body_agree; [|exact Hc]. intros; apply IH; [lia|assumption].
Qed.

Lemma reveal_rec_more fuel :
  forall fuel' rnd b c r, (fuel <= fuel')%nat ->
    completes (reveal_rec fuel rnd b c r) ->
    reveal_rec fuel' rnd b c r = reveal_rec fuel rnd b c r.
Proof.
  induction fuel as [|fuel IH]; intros fuel' rnd b c r Hle Hc; [contradiction|].
  destruct fuel' as [|fuel']; [lia|]. cbn [reveal_rec] in *.
  apply reveal_body_agree; [|exact Hc]. intros; apply IH; [lia|assumption].
Qed.

Lemma reveal_each_defined rec ps :
  (forall b c r, rec b c r <> OutOfFuel) ->
  forall b, reveal_each rec ps b <> OutOfFuel.
Proof.
  intros H. induction ps as [|p ps IH]; intros b; cbn [reveal_each]; [discriminate|].
  pose proof (H b (fst p) (snd p)) as Hp.
  destruct (rec b (fst p) (snd p)); cbn [bind]; [apply IH|discriminate|congruence].
Qed.

Lemma reveal_limited_defined depth :
  forall rnd b c r, reveal_limited depth rnd b c r <> OutOfFuel.
Proof.
  induction depth as [|depth IH]; intros rnd b c r; [discriminate|].
  cbn [reveal_limited]. unfold reveal_body.
  destruct (negb (is_inbounds b c r)); [discriminate|].
  assert (Hpm : place_mines rnd b c r <> OutOfFuel).
  { unfold place_mines.
    destruct (random_sample rnd (pool b c r) (num_mines b)); discriminate. }
  destruct (if negb (mines_placed b) then place_mines rnd b c r else Ok b)
    as [b0|e b0|] eqn:E0; cbn [bind]; [|discriminate|].
  2:{ destruct (negb (mines_placed b)); congruence. }
  cbv zeta.
  destruct (is_revealed (cell_state b0 (index b0 c r)) ||
            is_flagged (cell_state b0 (index b0 c r))); [discriminate|].
  match goal with |- context [if is_mine ?s then _ else _] => destruct (is_mine s) end;
    [discriminate|].
  match goal with |- context [if ?a =? 0 then _ else _] => destruct (a =? 0) end;
    [|discriminate].
  match goal with |- context [reveal_each ?f ?ps ?b1] =>
    pose proof (reveal_each_defined f ps (IH rnd) b1) as Hl;
    destruct (reveal_each f ps b1); cbn [bind]; congruence
  end.
Qed.

(** With as many nested frames as the board has hidden cells, and one more,
    a call runs to its end. *)
Lemma reveal_rec_completes h rnd b c r :
  Inv b -> (count_hidden b <= h)%nat -> completes (reveal_rec (S h) rnd b c r).
Proof.
  intros HI Hh. cbn [reveal_rec].
  assert (Hplaced : forall b0, Inv b0 -> mines_placed b0 = true ->
            is_inbounds b0 c r = true -> (count_hidden b0 <= h)%nat ->
            completes (reveal_body (reveal_rec h rnd) rnd b0 c r)).
  { intros b0 HI0 Hp0 Hin0 Hh0. destruct (is_mine (st b0 c r)) eqn:Hm.
    - rewrite reveal_body_eq by assumption.
      destruct (is_revealed (st b0 c r) || is_flagged (st b0 c r)); [exact I|].
      rewrite (open_cell_st b0 c r (inv_wf b0 HI0) Hin0). simpl is_mine.
      rewrite Hm. exact I.
    - destruct (reveal_body_Post (reveal_rec h rnd) h
                  (fun b1 c1 r1 HI1 Hp1 _ Hm1 Hh1 =>
                     reveal_rec_Post _ rnd b1 c1 r1 HI1 Hp1 (fun _ => Hm1) Hh1)
                  rnd b0 c r HI0 Hp0 (fun _ => Hm) Hh0) as (b' & -> & _).
      exact I. }
  destruct (is_inbounds b c r) eqn:Hin.
  2:{ unfold reveal_body. rewrite Hin. exact I. }
  destruct (mines_placed b) eqn:Hp; [apply Hplaced; assumption|].
  pose proof (place_mines_spec rnd b c r HI Hp) as Hspec.
  destruct (place_mines rnd b c r) as [b0|e b0|] eqn:Hpm; [| |contradiction].
  - destruct Hspec as (_ & HI0 & Hp0 & Hrel & _).
    assert (Hin0 : is_inbounds b0 c r = true)
      by (rewrite (related_inbounds _ _ _ _ _ Hrel); assumption).
    assert (Heq : forall rec, reveal_body rec rnd b c r = reveal_body rec rnd b0 c r).
    { intros rec. unfold reveal_body. rewrite Hin, Hin0, Hp, Hp0, Hpm. reflexivity. }
    rewrite Heq. apply Hplaced; try assumption.
    assert (Hcnt : count_hidden b = count_hidden b0).
    { apply count_if_Forall2. eapply Forall2_impl; [exact (related_states _ _ _ Hrel)|].
      simpl. intros x y (-> & _). reflexivity. }
    lia.
  - pose proof (place_mines_raises _ _ _ _ _ _ Hpm) as ->.
    unfold reveal_body. rewrite Hin, Hp, Hpm. exact I.
Qed.

Lemma reveal_completes rnd b c r : Inv b -> completes (reveal rnd b c r).
Proof. intros HI. apply reveal_rec_completes; [assumption|apply count_hidden_le_length]. Qed.

(** More depth than hidden cells: the limit is not met. *)
Lemma reveal_limited_enough depth rnd b c r :
  Inv b -> (count_hidden b < depth)%nat ->
  reveal_limited depth rnd b c r = reveal rnd b c r.
Proof.
  intros HI Hd.
  pose proof (reveal_rec_completes (count_hidden b) rnd b c r HI (le_n _)) as Hc.
  rewrite (reveal_rec_limited _ depth rnd b c r Hd Hc). unfold reveal. symmetry.
  apply reveal_rec_more; [|exact Hc]. pose proof (count_hidden_le_length b). lia.
Qed.

(** A call that meets no limit does what [reveal] does. *)
Lemma reveal_limited_complete depth rnd b c r :
  Inv b -> completes (reveal_limited depth rnd b c r) ->
  reveal_limited depth rnd b c r = reveal rnd b c r.
Proof.
  intros HI Hc. set (fuel := Nat.max depth (S (length (cells b)))).
  rewrite <- (reveal_limited_rec depth fuel rnd b c r (Nat.le_max_l _ _) Hc).
  apply reveal_rec_more; [apply Nat.le_max_r|apply reveal_completes, HI].
Qed.

(** *** A cascade cut by the limit *)

Section Cut.
Variable rec : Board -> Z -> Z -> result.
Hypothesis Hrec :
  forall b c r, Inv b -> mines_placed b = true ->
    is_inbounds b c r = true -> is_mine (st b c r) = false ->
    cut_post b (rec b c r).

Lemma cut_post_trans b b1 res :
  Frame b b1 -> cut_post b1 res -> cut_post b res.
Proof.
  intros HF. destruct res as [b2|[|] b2|]; simpl; try contradiction;
    intros HF2; eapply Frame_trans; eassumption.
Qed.

Lemma reveal_each_cut ps :
  forall b, Inv b -> mines_placed b = true ->
    (forall p, p ∈ ps -> is_inbounds b (fst p) (snd p) = true /\
                         is_mine (st b (fst p) (snd p)) = false) ->
    cut_post b (reveal_each rec ps b).
Proof.
  induction ps as [|p ps IH]; intros b HI Hp Hps; cbn [reveal_each].
  - apply Frame_refl. assumption.
  - destruct (Hps p ltac:(left)) as [Hpin Hpm].
    pose proof (Hrec b (fst p) (snd p) HI Hp Hpin Hpm) as H1.
    destruct (rec b (fst p) (snd p)) as [b1|[|] b1|]; simpl in H1; try contradiction;
      cbn [bind]; [|exact H1].
    pose proof (fr_ext _ _ H1) as Hrel1.
    apply (cut_post_trans b b1); [exact H1|]. apply IH.
    + apply H1.
    + rewrite (fr_placed _ _ H1). assumption.
    + intros q Hq. destruct (Hps q ltac:(right; exact Hq)) as [Hqin Hqm].
      rewrite (related_inbounds _ _ _ _ _ Hrel1).
      destruct (related_st R_reveal b b1 (fst q) (snd q)) as (<- & _);
        [auto with board|assumption|]. split; assumption.
Qed.

Lemma reveal_body_cut rnd b c r :
  Inv b -> mines_placed b = true ->
  (is_inbounds b c r = true -> is_mine (st b c r) = false) ->
  cut_post b (reveal_body rec rnd b c r).
Proof.
  intros HI Hp Hsafe. destruct (is_inbounds b c r) eqn:Hin.
  2:{ unfold reveal_body. rewrite Hin. apply Frame_refl. assumption. }
  specialize (Hsafe eq_refl). rewrite reveal_body_eq by assumption.
  destruct (is_revealed (st b c r)) eqn:Hrev; [apply Frame_refl; assumption|].
  destruct (is_flagged (st b c r)) eqn:Hfl; [apply Frame_refl; assumption|].
  simpl orb. cbv iota.
  pose proof (inv_wf b HI) as Hwf.
  pose proof (open_cell_Frame b c r HI Hp Hin Hrev Hfl Hsafe) as HF1.
  pose proof (open_cell_related b c r) as Hrel1.
  rewrite (open_cell_st b c r Hwf Hin), (related_neighbors _ _ _ _ _ Hrel1).
  simpl is_mine. simpl adjacent. rewrite Hsafe.
  set (b1 := open_cell b c r) in *.
  apply is_inbounds_iff in Hin as Hdims.
  assert (Hcheck : forall b2, Frame b1 b2 -> Frame b (_check_win b2)).
  { intros b2 HF2. pose proof (fr_ext _ _ HF2) as Hrel2.
    assert (Hrel : cells_related R_reveal b b2)
      by (eapply related_trans; eauto with board).
    destruct (check_win_spec b2) as [_ HF3].
    { apply HF2. } { rewrite (fr_placed _ _ HF2), (fr_placed _ _ HF1). assumption. }
    { destruct Hrel as (<- & _). lia. } { destruct Hrel as (_ & <- & _). lia. }
    eapply Frame_trans; [exact HF1|]. eapply Frame_trans; eassumption. }
  destruct (adjacent (st b c r) =? 0) eqn:Hadj.
  2:{ cbn [bind]. apply Hcheck, Frame_refl, HF1. }
  apply Z.eqb_eq in Hadj.
  assert (Hloop : cut_post b1 (reveal_each rec (neighbors b c r) b1)).
  { apply reveal_each_cut; [apply HF1|rewrite (fr_placed _ _ HF1); assumption|].
    intros [x y] Hp'. simpl. rewrite (related_inbounds _ _ _ _ _ Hrel1).
    split; [eapply neighbors_inbounds; eassumption|].
    destruct (related_st R_reveal b b1 x y) as (<- & _); [auto with board|assumption|].
    pose proof (inv_adj b HI Hp c r Hin) as Hok.
    rewrite Hsafe, Hadj in Hok. unfold mine_neighbors in Hok.
    apply (count_if_zero (fun p => is_mine (st b (fst p) (snd p)))
             (neighbors b c r) (x, y)); [lia|assumption]. }
  destruct (reveal_each rec (neighbors b c r) b1) as [b2|[|] b2|]; cbn [bind];
    try contradiction.
  - apply Hcheck, Hloop.
  - apply (cut_post_trans b b1 (Raise RecursionError b2) HF1), Hloop.
Qed.
End Cut.

Lemma reveal_limited_cut depth :
  forall rnd b c r, Inv b -> mines_placed b = true ->
    (is_inbounds b c r = true -> is_mine (st b c r) = false) ->
    cut_post b (reveal_limited depth rnd b c r).
Proof.
  induction depth as [|depth IH]; intros rnd b c r HI Hp Hsafe.
  - apply Frame_refl. assumption.
  - cbn [reveal_limited]. apply reveal_body_cut; try assumption.
    intros b1 c1 r1 HI1 Hp1 _ Hm1. apply IH; auto.
Qed.

(** A call cut by [RecursionError] has placed the mines as the call run to
    its end does, and has then only opened cells. *)
Lemma reveal_limited_cut_short depth rnd b c r b' :
  Inv b -> reveal_limited depth rnd b c r = Raise RecursionError b' ->
  b' = b \/
  (is_inbounds b c r = true /\ exists b0, ready rnd b c r b0 /\ Frame b0 b').
Proof.
  intros HI Heq. destruct depth as [|depth]; [left; simpl in Heq; congruence|].
  right. cbn [reveal_limited] in Heq.
  destruct (is_inbounds b c r) eqn:Hin.
  2:{ unfold reveal_body in Heq. rewrite Hin in Heq. discriminate. }
  split; [reflexivity|].
  assert (Hplaced : forall b0, ready rnd b c r b0 -> is_inbounds b0 c r = true ->
            reveal_body (reveal_limited depth rnd) rnd b0 c r = Raise RecursionError b' ->
            Frame b0 b').
  { intros b0 Hr Hin0 Heq0. destruct Hr as (HI0 & Hp0 & _).
    destruct (is_mine (st b0 c r)) eqn:Hm.
    - rewrite reveal_body_eq in Heq0 by assumption.
      destruct (is_revealed (st b0 c r) || is_flagged (st b0 c r)); [discriminate|].
      rewrite (open_cell_st b0 c r (inv_wf b0 HI0) Hin0) in Heq0. simpl is_mine in Heq0.
      rewrite Hm in Heq0. discriminate.
    - pose proof (reveal_body_cut (reveal_limited depth rnd)
                    (fun b1 c1 r1 HI1 Hp1 _ Hm1 =>
                       reveal_limited_cut depth rnd b1 c1 r1 HI1 Hp1 (fun _ => Hm1))
                    rnd b0 c r HI0 Hp0 (fun _ => Hm)) as Hcut.
      rewrite Heq0 in Hcut. exact Hcut. }
  destruct (mines_placed b) eqn:Hp.
  - exists b. assert (Hr : ready rnd b c r b) by (split; auto).
    split; [exact Hr|]. apply Hplaced; assumption.
  - pose proof (place_mines_spec rnd b c r HI Hp) as Hspec.
    destruct (place_mines rnd b c r) as [b0|e b0|] eqn:Hpm; [| |contradiction].
    + destruct Hspec as (_ & HI0 & Hp0 & Hrel & _).
      assert (Hin0 : is_inbounds b0 c r = true)
        by (rewrite (related_inbounds _ _ _ _ _ Hrel); assumption).
      assert (Hr : ready rnd b c r b0) by (split; auto).
      exists b0. split; [exact Hr|]. apply Hplaced; try assumption.
      rewrite <- Heq. unfold reveal_body. rewrite Hin, Hin0, Hp, Hp0, Hpm. reflexivity.
    + pose proof (place_mines_raises _ _ _ _ _ _ Hpm) as ->.
      unfold reveal_body in Heq. rewrite Hin, Hp, Hpm in Heq. discriminate.
Qed.

(** The invariant holds on the board that a call leaves, however it ends. *)
Lemma reveal_limited_Inv depth rnd b c r :
  Inv b ->
  match reveal_limited depth rnd b c r with
  | Ok b' => Inv b'
  | Raise ValueError b' => b' = b
  | Raise RecursionError b' => Inv b'
  | OutOfFuel => False
  end.
Proof.
  intros HI. pose proof (reveal_limited_complete depth rnd b c r HI) as Hc.
  pose proof (reveal_limited_defined depth rnd b c r) as Hdef.
  pose proof (reveal_outcome_Inv rnd b c r _ HI (reveal_outcome_ok rnd b c r HI)) as Hout.
  destruct (reveal_limited depth rnd b c r) as [b'|[|] b'|] eqn:Heq.
  - rewrite <- (Hc I) in Hout. exact Hout.
  - rewrite <- (Hc I) in Hout. exact Hout.
  - destruct (reveal_limited_cut_short depth rnd b c r b' HI Heq)
      as [->|(_ & b0 & _ & HF)]; [assumption|apply HF].
  - contradiction.
Qed.

Lemma step_limited_Inv depth b o : Inv b -> Inv (step_limited depth b o).
Proof.
  intros HI. destruct o as [c r rnd|c r]; cbn [step_limited].
  - pose proof (reveal_limited_Inv depth rnd b c r HI) as H.
    destruct (reveal_limited depth rnd b c r) as [b'|[|] b'|];
      [assumption|subst; assumption|assumption|assumption].
  - apply toggle_flag_Inv. assumption.
Qed.

Lemma reachable_limited_Inv b : reachable_limited b -> Inv b.
Proof.
  induction 1 as [ncols nrows mines|b depth o _ IH];
    [apply Inv_new_Board|apply step_limited_Inv, IH].
Qed.

(** A call that runs to its end is a call under a limit that is not met. *)
Lemma step_is_limited b o :
  Inv b -> step b o = step_limited (S (count_hidden b)) b o.
Proof.
  intros HI. destruct o as [c r rnd|c r]; cbn [step step_limited]; [|reflexivity].
  rewrite (reveal_limited_enough _ rnd b c r HI (Nat.lt_succ_diag_r _)). reflexivity.
Qed.

Lemma reachable_is_limited b : reachable b -> reachable_limited b.
Proof.
  induction 1 as [ncols nrows mines|b o Hb IH]; [constructor|].
  rewrite (step_is_limited b o (reachable_Inv b Hb)). constructor. assumption.
Qed.

(** ** Further facts about calls on reachable boards *)

Lemma played_reachable b : played b -> reachable b.
Proof. induction 1; constructor; assumption. Qed.

Lemma ready_same rnd b c r b0 :
  Inv b -> ready rnd b c r b0 ->
  cells_related R_place b b0 /\ win b0 = win b /\ game_over b0 = game_over b /\
  revealed_count b0 = revealed_count b.
Proof.
  intros HI Hr. destruct (mines_placed b) eqn:Hp.
  - rewrite (ready_placed _ _ _ _ _ Hr Hp). split; [|auto].
    apply related_refl. intros s. split; reflexivity.
  - pose proof (place_mines_spec rnd b c r HI Hp) as Hspec.
    rewrite (ready_unplaced _ _ _ _ _ Hr Hp) in Hspec.
    destruct Hspec as (_ & _ & _ & Hrel & Hrc & Hgo & Hw & _).
    destruct (inv_fresh b HI Hp) as (_ & Hrc' & Hgo' & Hw').
    split; [assumption|]. repeat split; congruence.
Qed.

Lemma ready_inbounds rnd b c r b0 x y :
  Inv b -> ready rnd b c r b0 -> is_inbounds b0 x y = is_inbounds b x y.
Proof.
  intros HI Hr. destruct (ready_same _ _ _ _ _ HI Hr) as (Hrel & _).
  apply (related_inbounds _ _ _ _ _ Hrel).
Qed.

Lemma win_count b :
  Inv b -> mines_placed b = true -> 0 <= cols b -> 0 <= rows b ->
  win b = true -> game_over b = false ->
  revealed_count b = cols b * rows b - num_mines b.
Proof.
  intros HI Hp Hc Hr Hw Hgo.
  pose proof (inv_won b HI Hw) as Hwon. pose proof (inv_live b HI Hgo) as Hlive.
  rewrite Forall_forall in Hwon, Hlive.
  assert (Heq : count_revealed b =
                count_if (fun cell => negb (is_mine (state cell))) (cells b)).
  { apply count_if_ext. intros x Hx. specialize (Hwon x Hx). specialize (Hlive x Hx).
    destruct (is_mine (state x)), (is_revealed (state x)); simpl; try reflexivity.
    - destruct (Hlive eq_refl). discriminate.
    - apply Hwon. reflexivity. }
  pose proof (count_if_negb (fun cell => is_mine (state cell)) (cells b)) as Hsum.
  cbv beta in Hsum. fold (count_mines b) in Hsum. rewrite <- Heq in Hsum.
  pose proof (inv_wf b HI) as Hwf. unfold wf in Hwf.
  rewrite (inv_count b HI Hgo), <- (inv_mines b HI Hp).
  assert (Hlen : Z.of_nat (length (cells b)) = cols b * rows b).
  { rewrite Hwf, Nat2Z.inj_mul, !Z2Nat.id by assumption. lia. }
  lia.
Qed.

Lemma length_filter_lt {A} (p : A -> bool) (l : list A) x :
  x ∈ l -> p x = false -> (length (List.filter p l) < length l)%nat.
Proof.
  induction l as [|y l IH]; intros Hx Hp; [inversion Hx|].
  pose proof (count_if_le_length p l) as Hle. unfold count_if in Hle.
  apply elem_of_cons in Hx as [->|Hx]; simpl.
  - rewrite Hp. lia.
  - specialize (IH Hx Hp). destruct (p y); simpl; lia.
Qed.

Lemma length_pool_lt b c r :
  is_inbounds b c r = true ->
  Z.of_nat (length (pool b c r)) < cols b * rows b.
Proof.
  intros Hin. pose proof (length_filter_lt
    (fun p => negb (mem p (forbidden b c r))) (all_positions b) (c, r)) as Hlt.
  fold (pool b c r) in Hlt. unfold all_positions in Hlt at 2.
  rewrite length_grid in Hlt. apply is_inbounds_iff in Hin as Hdims.
  assert (Hlen : Z.of_nat (Z.to_nat (rows b) * Z.to_nat (cols b)) = cols b * rows b)
    by (rewrite Nat2Z.inj_mul, !Z2Nat.id by lia; lia).
  rewrite <- Hlen. apply inj_lt, Hlt.
  - apply elem_of_all_positions. assumption.
  - apply negb_false_iff, mem_iff. left.
Qed.

Lemma step_started b o : Inv b -> started b -> started (step b o).
Proof.
  intros HI Hs. destruct o as [c r rnd|c r]; cbn [step].
  2:{ destruct (toggle_flag_flags b c r) as (Hp & Hrc & Hgo & Hw).
      destruct (toggle_flag_related b c r) as (Hc & Hr & Hn & _).
      intros Hp'. unfold win_condition. rewrite <- Hc, <- Hr, <- Hn, <- Hrc, <- Hgo, <- Hw.
      apply Hs. congruence. }
  pose proof (reveal_outcome_ok rnd b c r HI) as Hout.
  destruct Hout as [Hin|Hin Hp' Hpm|b0 Hin Hr _|b0 Hin Hr Hh Hf Hm|b0 b1 Hin Hr Hh Hf _ HP];
    try assumption.
  - intros _. destruct (mines_placed b) eqn:Hp.
    { rewrite (ready_placed _ _ _ _ _ Hr Hp). auto. }
    pose proof (place_mines_spec rnd b c r HI Hp) as Hspec.
    rewrite (ready_unplaced _ _ _ _ _ Hr Hp) in Hspec.
    destruct Hspec as (Hk & _ & _ & (Hc & Hr' & Hn & _) & Hrc & _).
    pose proof (length_pool_lt b c r Hin) as Hlt. apply is_inbounds_iff in Hin.
    split; [lia|]. unfold win_condition. rewrite Hrc, <- Hc, <- Hr', <- Hn.
    intros Hcond. apply andb_true_iff in Hcond as [Hcond _].
    apply Z.eqb_eq in Hcond. lia.
  - destruct (ready_same _ _ _ _ _ HI Hr) as ((Hc & Hr' & _) & _).
    destruct Hr as (HI0 & Hp0 & _).
    assert (Hin0 : is_inbounds b0 c r = true)
      by (unfold is_inbounds; rewrite <- Hc, <- Hr'; assumption).
    destruct (lose_spec b0 c r HI0 Hp0 Hin0 Hh Hf) as (_ & (Hc1 & Hr1 & _) & _ & Hgo & _).
    intros _. apply is_inbounds_iff in Hin0. split; [lia|].
    unfold win_condition. rewrite Hgo, andb_false_r. discriminate.
  - destruct (ready_same _ _ _ _ _ HI Hr) as ((Hc & Hr' & _) & _).
    assert (Hin0 : is_inbounds b0 c r = true)
      by (unfold is_inbounds; rewrite <- Hc, <- Hr'; assumption).
    pose proof (post_frame _ _ _ _ HP) as HF.
    destruct (fr_ext _ _ HF) as (Hc1 & Hr1 & Hn1 & _).
    intros _. apply is_inbounds_iff in Hin0 as Hdims. split; [lia|].
    unfold win_condition. intros Hcond. apply andb_true_iff in Hcond as [Hcnt Hgo].
    apply Z.eqb_eq in Hcnt. apply negb_true_iff in Hgo.
    apply (post_win_set _ _ _ _ HP); try assumption.
    + rewrite <- (fr_game_over _ _ HF). assumption.
    + congruence.
Qed.

Lemma reachable_started b : reachable b -> started b.
Proof.
  induction 1 as [ncols nrows mines|b o Hb IH]; [intros Hp; discriminate|].
  apply step_started; [apply reachable_Inv|]; assumption.
Qed.

Lemma Post_complete b c r b' x y :
  Post b c r b' -> Region b c r x y -> is_revealed (st b' x y) = true.
Proof.
  intros HP. induction 1 as [Hin Hh Hf|x y x' y' HR IH Hm Ha Hn Hh Hf].
  - destruct (post_target _ _ _ _ HP Hin); congruence.
  - destruct (Region_hidden _ _ _ _ _ HR) as [Hxh _].
    destruct (post_closed _ _ _ _ HP x y (Region_inbounds _ _ _ _ _ HR) Hxh IH Ha
                (x', y') Hn) as [H|H]; simpl in H; congruence.
Qed.

(** A board with no room for its mines is never started. *)
Lemma step_overfull b o :
  Inv b -> mines_placed b = false -> cols b * rows b <= num_mines b ->
  mines_placed (step b o) = false /\ cols (step b o) = cols b /\
  rows (step b o) = rows b /\ num_mines (step b o) = num_mines b.
Proof.
  intros HI Hp Hfull. destruct o as [c r rnd|c r]; cbn [step].
  2:{ destruct (toggle_flag_flags b c r) as (<- & _).
      destruct (toggle_flag_related b c r) as (<- & <- & <- & _). auto. }
  assert (Hraise : is_inbounds b c r = true -> forall b0, place_mines rnd b c r <> Ok b0).
  { intros Hin b0 Hpm. pose proof (place_mines_spec rnd b c r HI Hp) as Hspec.
    rewrite Hpm in Hspec. destruct Hspec as (Hk & _).
    pose proof (length_pool_lt b c r Hin). lia. }
  pose proof (reveal_outcome_ok rnd b c r HI) as Hout.
  destruct Hout as [Hin|Hin Hp' Hpm|b0 Hin Hr _|b0 Hin Hr _ _ _|b0 b1 Hin Hr _ _ _ _];
    auto; destruct (Hraise Hin b0 (ready_unplaced _ _ _ _ _ Hr Hp)).
Qed.

Lemma run_overfull ops :
  forall b, Inv b -> mines_placed b = false -> cols b * rows b <= num_mines b ->
    mines_placed (run b ops) = false /\ cols (run b ops) = cols b /\
    rows (run b ops) = rows b /\ num_mines (run b ops) = num_mines b.
Proof.
  induction ops as [|o ops IH]; intros b HI Hp Hfull; [auto|].
  destruct (step_overfull b o HI Hp Hfull) as (Hp1 & Hc1 & Hr1 & Hn1).
  destruct (IH (step b o) (step_Inv b o HI) Hp1) as (Hp2 & Hc2 & Hr2 & Hn2);
    [rewrite Hc1, Hr1, Hn1; assumption|].
  change (run b (o :: ops)) with (run (step b o) ops).
  repeat split; congruence.
Qed.

(** What a call of [reveal] that returns does to [win]. *)
Lemma reveal_win b rnd c r b' :
  Inv b -> reveal rnd b c r = Ok b' ->
  (win b = false -> win b' = true ->
   revealed_count b' = cols b' * rows b' - num_mines b' /\ game_over b' = false) /\
  (revealed_count b' <> revealed_count b ->
   revealed_count b' = cols b' * rows b' - num_mines b' -> game_over b' = false ->
   win b' = true).
Proof.
  intros HI Heq. pose proof (reveal_outcome_ok rnd b c r HI) as Hout.
  rewrite Heq in Hout.
  inversion Hout as [Hin Hb|Hin Hp' Hpm Hb|b0 Hin Hr _ Hb|b0 Hin Hr Hh Hf Hm Hb
                    |b0 b1 Hin Hr Hh Hf _ HP Hb]; subst.
  - split; intros; congruence.
  - destruct (ready_same _ _ _ _ _ HI Hr) as (_ & Hwin & _ & Hrc).
    split; intros; congruence.
  - destruct (ready_same _ _ _ _ _ HI Hr) as (Hrel & Hwin & _).
    pose proof (ready_inbounds _ _ _ _ _ c r HI Hr) as Hin0.
    destruct Hr as (HI0 & Hp0 & _).
    destruct (lose_spec b0 c r HI0 Hp0) as (_ & _ & _ & Hgo & Hwl & _);
      [congruence|assumption|assumption|].
    split; intros; congruence.
  - destruct (ready_same _ _ _ _ _ HI Hr) as (Hrel & Hwin & _).
    pose proof (ready_inbounds _ _ _ _ _ c r HI Hr) as Hin0.
    pose proof (post_frame _ _ _ _ HP) as HF.
    destruct (fr_ext _ _ HF) as (Hc1 & Hr1 & Hn1 & _).
    assert (Hin1 : is_inbounds b0 c r = true) by congruence.
    apply is_inbounds_iff in Hin1 as Hdims. split.
    + intros Hw Hw'. destruct (game_over b0) eqn:Hgo0.
      { rewrite (fr_win_lost _ _ HF Hgo0) in Hw'. congruence. }
      assert (Hgo1 : game_over b' = false) by (rewrite (fr_game_over _ _ HF); assumption).
      split; [|assumption].
      apply win_count; try assumption; try lia; [apply HF|].
      rewrite (fr_placed _ _ HF). apply Hr.
    + intros _ Hcnt Hgo. apply (post_win_set _ _ _ _ HP); try assumption.
      * rewrite <- (fr_game_over _ _ HF). assumption.
      * congruence.
Qed.

Lemma Region_Connected b c r x y : Region b c r x y -> Connected b c r x y.
Proof.
  induction 1 as [Hin _ _|x y x' y' _ IH Hm Ha Hn _ _];
    [constructor; assumption|econstructor; eassumption].
Qed.

Lemma Connected_Region b c r :
  (forall x y, Connected b c r x y ->
     is_revealed (st b x y) = false /\ is_flagged (st b x y) = false) ->
  forall x y, Connected b c r x y -> Region b c r x y.
Proof.
  intros Hall x y HC. induction HC as [Hin|x y x' y' HC IH Hm Ha Hn].
  - destruct (Hall c r (connected_start b c r Hin)). constructor; assumption.
  - destruct (Hall x' y' (connected_step b c r x y x' y' HC Hm Ha Hn)).
    econstructor; eassumption.
Qed.

(** The cascade of a call of [reveal] on a cell without adjacent mines. *)
Lemma reveal_region b rnd c r :
  Inv b -> mines_placed b = true -> is_inbounds b c r = true ->
  is_revealed (st b c r) = false -> is_flagged (st b c r) = false ->
  is_mine (st b c r) = false ->
  exists b', reveal rnd b c r = Ok b' /\
    (forall x y, is_inbounds b x y = true ->
       (is_revealed (st b' x y) = true <->
        is_revealed (st b x y) = true \/ Region b c r x y)) /\
    (forall x y, is_flagged (st b' x y) = is_flagged (st b x y) /\
                 is_mine (st b' x y) = is_mine (st b x y) /\
                 adjacent (st b' x y) = adjacent (st b x y)) /\
    revealed_count b' - revealed_count b =
    Z.of_nat (count_revealed b') - Z.of_nat (count_revealed b).
Proof.
  intros HI Hp Hin Hh Hf Hm.
  pose proof (reveal_outcome_ok rnd b c r HI) as Hout.
  inversion Hout as [Hc Heq|Hc Hp' Hpm' Heq|b0 Hc Hr Hsk Heq|b0 Hc Hr Hh0 Hf0 Hm0 Heq
                    |b0 b' Hc Hr Hh0 Hf0 Hm0 HP Heq]; try congruence;
    rewrite (ready_placed _ _ _ _ _ Hr Hp) in *.
  - destruct Hsk; congruence.
  - congruence.
  - exists b'. split; [reflexivity|]. pose proof (post_frame _ _ _ _ HP) as HF.
    assert (Hst : forall x y, R_reveal (st b x y) (st b' x y))
      by (intros; apply related_st; [auto with board|apply HF]).
    split; [|split].
    + intros x y Hxy. split.
      * intros Hrev. destruct (is_revealed (st b x y)) eqn:Hx; [left; reflexivity|].
        right. apply (post_sound _ _ _ _ HP); assumption.
      * intros [Hrev|HR].
        -- destruct (Hst x y) as (_ & _ & _ & Hmono). auto.
        -- eapply Post_complete; eassumption.
    + intros x y. destruct (Hst x y) as (? & ? & ? & _). auto.
    + pose proof (fr_count _ _ HF). lia.
Qed.

(** * The claims *)

(** C1. On a board on which no mine has been placed yet, when
    [place_mines(c, r)] succeeds for an in-bounds first click [(c, r)], the
    clicked cell and all its in-bounds neighbours have [is_mine = false];
    the first [reveal(c, r)] then returns without setting [game_over], and
    the clicked cell has no mine and an adjacent count of 0 (it has no
    adjacent mine). *)
Theorem first_click_is_safe (b : Board) (rnd : list nat) (c r : Z) (b1 : Board) :
  reachable b -> mines_placed b = false -> is_inbounds b c r = true ->
  place_mines rnd b c r = Ok b1 ->
  (is_mine (st b1 c r) = false /\
   forall x y, (x, y) ∈ neighbors b1 c r -> is_mine (st b1 x y) = false) /\
  exists b', reveal rnd b c r = Ok b' /\
    game_over b' = false /\ is_mine (st b' c r) = false /\
    adjacent (st b' c r) = 0 /\ mine_neighbors b' c r = 0.
Proof.
  intros Hreach Hp Hin Hpm. pose proof (reachable_Inv b Hreach) as HI.
  destruct (place_mines_safe rnd b c r b1 HI Hp Hpm) as [Hsafe Hadj].
  pose proof (place_mines_spec rnd b c r HI Hp) as Hspec. rewrite Hpm in Hspec.
  destruct Hspec as (_ & HI1 & Hp1 & Hrel & _ & Hgo & _).
  assert (Hin1 : is_inbounds b1 c r = true)
    by (rewrite (related_inbounds _ _ _ _ _ Hrel); assumption).
  assert (Hm1 : is_mine (st b1 c r) = false) by (apply Hsafe; [left|assumption]).
  assert (Hn1 : mine_neighbors b1 c r = 0).
  { pose proof (inv_adj b1 HI1 Hp1 c r Hin1) as H. rewrite Hm1, Hadj in H; auto. }
  split.
  { split; [assumption|]. intros x y Hxy.
    rewrite (related_neighbors _ _ _ _ _ Hrel) in Hxy. apply Hsafe.
    - right. assumption.
    - eapply neighbors_inbounds. eassumption. }
  pose proof (reveal_outcome_ok rnd b c r HI) as Hout.
  inversion Hout as [Hc Heq|Hc Hp' Hpm' Heq|b0 Hc Hr Hsk Heq|b0 Hc Hr Hh Hf Hm Heq
                    |b0 b' Hc Hr Hh Hf Hm HP Heq]; try congruence.
  - assert (b0 = b1) as -> by (pose proof (ready_unplaced _ _ _ _ _ Hr Hp); congruence).
    exists b1. repeat split; auto.
  - assert (b0 = b1) as -> by (pose proof (ready_unplaced _ _ _ _ _ Hr Hp); congruence).
    congruence.
  - assert (b0 = b1) as -> by (pose proof (ready_unplaced _ _ _ _ _ Hr Hp); congruence).
    exists b'. split; [reflexivity|]. pose proof (post_frame _ _ _ _ HP) as HF.
    destruct (related_st R_reveal b1 b' c r (R_reveal_refl _) (fr_ext _ _ HF))
      as (<- & _ & <- & _).
    rewrite (fr_game_over _ _ HF).
    rewrite (mine_neighbors_related R_reveal b1 b' c r (R_reveal_refl _)
               (fun s s' H => proj1 H) (fr_ext _ _ HF)).
    rewrite Hadj by assumption. auto.
Qed.

Lemma first_click_is_safe_witness :
  place_mines [] first_click_board 0 0 = Ok first_click_placed /\
  exists b', reveal [] first_click_board 0 0 = Ok b' /\
    game_over b' = false /\ is_mine (st b' 0 0) = false /\
    adjacent (st b' 0 0) = 0 /\ mine_neighbors b' 0 0 = 0.
Proof.
  split; [reflexivity|].
  apply (first_click_is_safe first_click_board [] 0 0 first_click_placed);
    [apply reachable_new|reflexivity|reflexivity|reflexivity].
Defined.

(** C2. [flagged_count()] does not return the number of flagged cells: its
    body is [pass], so the call returns [None]; it leaves the board as it
    is. On the 2x2 board with one flag the count of flagged cells is 1. *)
Theorem flagged_count_returns_None :
  let b := toggle_flag (new_Board 2 2 0) 0 0 in
  fst (flagged_count b) = None /\ snd (flagged_count b) = b /\
  count_flagged b = 1%nat.
Proof. repeat split. Qed.

(** C3 (as stated, refuted). On the reachable board [Board(1, 1, 1)] no call
    ever opens a cell, since every in-bounds [reveal] raises in the sampler:
    after every sequence of calls [revealed_count == cols*rows - num_mines]
    holds with [game_over] false, and [win] is false. And a cascade that is
    cut by [RecursionError] after it has opened the last cell leaves a board
    on which the equation is true and [win] is false: the exception skips
    every [_check_win]. Here the 997 cells of a 997x1 board without mines are
    opened with 997 nested frames allowed. *)
Lemma win_condition_without_win :
  (let b := new_Board 1 1 1 in
   reachable b /\
   forall ops, let b' := run b ops in
     revealed_count b' = cols b' * rows b' - num_mines b' /\
     game_over b' = false /\ win b' = false) /\
  (reachable_limited cut_board /\
   reveal_limited 997 [] (new_Board 997 1 0) 0 0 = Raise RecursionError cut_board /\
   mines_placed cut_board = true /\
   revealed_count cut_board = cols cut_board * rows cut_board - num_mines cut_board /\
   game_over cut_board = false /\ win cut_board = false).
Proof.
  split.
  2:{ split; [apply reachable_limited_step, reachable_limited_new|].
      vm_compute. repeat split. }
  split; [apply reachable_new|].
  intros ops b'. pose proof (Inv_new_Board 1 1 1) as HI.
  destruct (run_overfull ops (new_Board 1 1 1) HI eq_refl) as (Hp & Hc & Hr & Hn);
    [simpl; lia|].
  fold b' in Hp, Hc, Hr, Hn. pose proof (run_Inv ops _ HI) as HI'. fold b' in HI'.
  destruct (inv_fresh b' HI' Hp) as (_ & Hrc & Hgo & Hw).
  rewrite Hrc, Hc, Hr, Hn. repeat split; assumption.
Qed.

(** C3 (amended). [_check_win] sets [win] exactly when
    [revealed_count == cols*rows - num_mines] and [game_over] is false, and
    every cell without a mine is revealed once it has done so. For a call of
    [reveal] that returns, on a board reached by calls of which some may
    have been cut by [RecursionError]: if it has made [win] true,
    then [revealed_count == cols*rows - num_mines] holds afterwards with
    [game_over] false; if it has opened a cell, so that [revealed_count] has
    changed, and that equation holds afterwards with [game_over] false, then
    [win] is true; and whenever [win] is true afterwards every cell without
    a mine is revealed. [toggle_flag] leaves [win] as it is. *)
Theorem win_detection (b : Board) (depth : nat) (rnd : list nat) (c r : Z)
  (b' : Board) :
  reachable_limited b -> reveal_limited depth rnd b c r = Ok b' ->
  (win (_check_win b) = true <->
   win b = true \/
   (revealed_count b = cols b * rows b - num_mines b /\ game_over b = false)) /\
  (revealed_count b = cols b * rows b - num_mines b -> game_over b = false ->
   Forall (fun cell => is_mine (state cell) = false -> is_revealed (state cell) = true)
          (cells (_check_win b))) /\
  (win b = false -> win b' = true ->
   revealed_count b' = cols b' * rows b' - num_mines b' /\ game_over b' = false) /\
  (revealed_count b' <> revealed_count b ->
   revealed_count b' = cols b' * rows b' - num_mines b' -> game_over b' = false ->
   win b' = true) /\
  (win b' = true ->
   Forall (fun cell => is_mine (state cell) = false -> is_revealed (state cell) = true)
          (cells b')) /\
  (forall x y, win (toggle_flag b x y) = win b).
Proof.
  intros Hreach Hlim. pose proof (reachable_limited_Inv b Hreach) as HI.
  assert (Heq : reveal rnd b c r = Ok b').
  { rewrite <- (reveal_limited_complete depth rnd b c r HI); [assumption|].
    rewrite Hlim. exact I. }
  assert (HI' : Inv b').
  { pose proof (step_Inv b (Reveal c r rnd) HI) as H. cbn [step] in H.
    rewrite Heq in H. exact H. }
  destruct (reveal_win b rnd c r b' HI Heq) as [Honly Hif].
  split; [|split; [|split; [exact Honly|split; [exact Hif|split]]]].
  - unfold _check_win.
    destruct ((revealed_count b =? cols b * rows b - num_mines b) && negb (game_over b))
      eqn:Hcond.
    + apply andb_true_iff in Hcond as [H1 H2].
      apply Z.eqb_eq in H1. apply negb_true_iff in H2. simpl. tauto.
    + apply andb_false_iff in Hcond. rewrite Z.eqb_neq, negb_false_iff in Hcond.
      split; [auto|]. intros [?|[? ?]]; [assumption|]. destruct Hcond; congruence.
  - intros Hcnt Hgo. unfold _check_win.
    rewrite (proj2 (Z.eqb_eq _ _) Hcnt), Hgo. simpl.
    apply Forall_forall. intros x Hx. apply list_elem_of_fmap in Hx as (y & -> & _).
    destruct (is_revealed (state y)) eqn:Hr, (is_mine (state y)) eqn:Hm; simpl; congruence.
  - apply (inv_won b' HI').
  - intros x y. destruct (toggle_flag_flags b x y) as (_ & _ & _ & Hwin). congruence.
Qed.

Lemma win_detection_witness :
  win (step (new_Board 4 1 1) (Reveal 0 0 [1%nat])) = true /\
  Forall (fun cell => is_mine (state cell) = false -> is_revealed (state cell) = true)
         (cells (step (new_Board 4 1 1) (Reveal 0 0 [1%nat]))).
Proof.
  destruct (win_detection (new_Board 4 1 1) 10 [1%nat] 0 0
              (step (new_Board 4 1 1) (Reveal 0 0 [1%nat])))
    as (_ & _ & _ & H1 & H2 & _); [apply reachable_limited_new|reflexivity|].
  split; [apply H1; [vm_compute; discriminate|reflexivity..]|apply H2; reflexivity].
Defined.

(** C4 (as stated, refuted). On the reachable 5x1 board without mines on
    which only column 2 is revealed, every cell is connected to column 1
    through cells without adjacent mines, but [reveal(1, 0)] opens columns 0
    and 1 only: the cascade does not go through the revealed column 2, and
    columns 3 and 4 stay hidden. And the cascade does not always come to its
    end: on the 1100x1 board without mines, with 997 nested frames allowed,
    [reveal(0, 0)] opens columns 0 to 996 and then leaves with
    [RecursionError]; [win] is not set. *)
Lemma cascade_stops_at_revealed_cell :
  (reachable split_board /\ mines_placed split_board = true /\
   is_inbounds split_board 1 0 = true /\
   is_revealed (st split_board 1 0) = false /\
   is_flagged (st split_board 1 0) = false /\
   is_mine (st split_board 1 0) = false /\ adjacent (st split_board 1 0) = 0 /\
   Connected split_board 1 0 3 0 /\
   exists b', reveal [] split_board 1 0 = Ok b' /\
     is_revealed (st b' 3 0) = false /\ is_revealed (st b' 4 0) = false) /\
  (reachable long_board /\ mines_placed long_board = true /\
   is_revealed (st long_board 0 0) = false /\
   is_flagged (st long_board 0 0) = false /\
   is_mine (st long_board 0 0) = false /\ adjacent (st long_board 0 0) = 0 /\
   exists b', reveal_limited 997 [] long_board 0 0 = Raise RecursionError b' /\
     revealed_count b' = 997 /\ is_revealed (st b' 996 0) = true /\
     is_revealed (st b' 997 0) = false /\ win b' = false).
Proof.
  split.
  - split; [apply run_reachable, reachable_new|].
    do 6 (split; [reflexivity|]). split; [|vm_compute; eexists; repeat split].
    apply (connected_step split_board 1 0 2 0 3 0); [|reflexivity|reflexivity|].
    + apply (connected_step split_board 1 0 1 0 2 0);
        [constructor; reflexivity|reflexivity|reflexivity|].
      rewrite list_elem_of_In. vm_compute. auto.
    + rewrite list_elem_of_In. vm_compute. auto.
  - split; [apply run_reachable, reachable_new|].
    vm_compute. repeat split. eexists. repeat split.
Qed.

(** C4 (amended). On a board with mines placed, reached by calls of which
    some may have been cut by [RecursionError], [reveal] of a hidden,
    unflagged cell without a mine and without adjacent mines, called with
    more nested frames allowed than the board has hidden cells, returns;
    the cells revealed afterwards are those revealed before and those of the
    region of the cell: the cells connected to it through cells that are
    hidden, unflagged and without adjacent mines when the call starts, and
    their hidden, unflagged neighbours (the numbered border). Cells revealed
    or flagged before are not expanded; the region is a part of the cells
    connected to the clicked cell through cells without adjacent mines, and
    all of them when none of them is revealed or flagged. Flags are
    untouched, and [revealed_count] grows by the number of cells that became
    revealed: each is opened once. *)
Theorem cascade_reveals_region (b : Board) (depth : nat) (rnd : list nat) (c r : Z) :
  reachable_limited b -> mines_placed b = true -> is_inbounds b c r = true ->
  is_revealed (st b c r) = false -> is_flagged (st b c r) = false ->
  is_mine (st b c r) = false -> adjacent (st b c r) = 0 ->
  (count_hidden b < depth)%nat ->
  exists b', reveal_limited depth rnd b c r = Ok b' /\
    (forall x y, is_inbounds b x y = true ->
       (is_revealed (st b' x y) = true <->
        is_revealed (st b x y) = true \/ Region b c r x y)) /\
    (forall x y, Region b c r x y -> Connected b c r x y) /\
    ((forall x y, Connected b c r x y ->
        is_revealed (st b x y) = false /\ is_flagged (st b x y) = false) ->
     forall x y, Connected b c r x y -> Region b c r x y) /\
    (forall x y, is_flagged (st b' x y) = is_flagged (st b x y) /\
                 is_mine (st b' x y) = is_mine (st b x y) /\
                 adjacent (st b' x y) = adjacent (st b x y)) /\
    revealed_count b' - revealed_count b =
    Z.of_nat (count_revealed b') - Z.of_nat (count_revealed b).
Proof.
  intros Hreach Hp Hin Hh Hf Hm Ha Hd.
  pose proof (reachable_limited_Inv b Hreach) as HI.
  destruct (reveal_region b rnd c r HI Hp Hin Hh Hf Hm) as (b' & Heq & Hiff & Hsame & Hcnt).
  exists b'. rewrite (reveal_limited_enough depth rnd b c r HI Hd).
  split; [exact Heq|]. split; [exact Hiff|].
  split; [apply Region_Connected|]. split; [apply Connected_Region|].
  split; assumption.
Qed.

Lemma cascade_reveals_region_witness :
  exists b', reveal_limited 7 [] two_regions 5 0 = Ok b' /\
    (is_revealed (st b' 4 0) = true <->
     is_revealed (st two_regions 4 0) = true \/ Region two_regions 5 0 4 0) /\
    revealed_count b' - revealed_count two_regions =
    Z.of_nat (count_revealed b') - Z.of_nat (count_revealed two_regions).
Proof.
  destruct (cascade_reveals_region two_regions 7 [] 5 0)
    as (b' & Heq & Hiff & _ & _ & _ & Hcount);
    [apply reachable_is_limited, run_reachable, reachable_new
    |reflexivity..|vm_compute; lia|].
  exists b'. split; [exact Heq|]. split; [apply Hiff; reflexivity|exact Hcount].
Defined.

(** C5. After a successful [place_mines] on a board without mines, the
    [adjacent] field of every cell without a mine is the number of its
    in-bounds neighbours with a mine, and that of every mine cell is 0;
    no later [reveal] or [toggle_flag] changes [is_mine] or [adjacent]. *)
Theorem adjacency_is_exact (b : Board) (rnd : list nat) (sc sr : Z) (b1 : Board)
  (ops : list op) (c r : Z) :
  reachable b -> mines_placed b = false ->
  place_mines rnd b sc sr = Ok b1 -> is_inbounds b1 c r = true ->
  (is_mine (st b1 c r) = false -> adjacent (st b1 c r) = mine_neighbors b1 c r) /\
  (is_mine (st b1 c r) = true -> adjacent (st b1 c r) = 0) /\
  is_mine (st (run b1 ops) c r) = is_mine (st b1 c r) /\
  adjacent (st (run b1 ops) c r) = adjacent (st b1 c r).
Proof.
  intros Hreach Hp Hpm Hin. pose proof (reachable_Inv b Hreach) as HI.
  pose proof (place_mines_spec rnd b sc sr HI Hp) as Hspec. rewrite Hpm in Hspec.
  destruct Hspec as (_ & HI1 & Hp1 & _).
  pose proof (inv_adj b1 HI1 Hp1 c r Hin) as Hadj.
  destruct (run_static ops b1 HI1 Hp1) as [_ Hrel].
  destruct (related_st R_static b1 (run b1 ops) c r) as [Hm Ha];
    [split; reflexivity|assumption|].
  repeat split; try congruence; intros Hmine; rewrite Hmine in Hadj; assumption.
Qed.

Lemma adjacency_is_exact_witness :
  adjacent (st first_click_placed 4 3) = mine_neighbors first_click_placed 4 3 /\
  adjacent (st (run first_click_placed [Reveal 0 0 []; ToggleFlag 4 4]) 4 3) =
  adjacent (st first_click_placed 4 3).
Proof.
  destruct (adjacency_is_exact first_click_board [] 0 0 first_click_placed
              [Reveal 0 0 []; ToggleFlag 4 4] 4 3) as (H1 & _ & _ & H2);
    [apply reachable_new|reflexivity|reflexivity|reflexivity|].
  split; [apply H1; reflexivity|exact H2].
Defined.

(** C6 (as stated, refuted). The first reveal wins the 4x1 game; the reveal
    of the mine that follows sets [game_over] and leaves [win] set. *)
Lemma win_and_game_over_both_true :
  reachable won_then_lost_game /\
  win won_then_lost_game = true /\ game_over won_then_lost_game = true.
Proof.
  split; [apply run_reachable, reachable_new|]. split; reflexivity.
Qed.

(** C6 (amended). On every board reached from construction by [reveal] and
    [toggle_flag] calls in which no [reveal] is made once [win] is true,
    [win] and [game_over] are never both true. *)
Theorem win_excludes_game_over (b : Board) :
  played b -> ~ (win b = true /\ game_over b = true).
Proof.
  induction 1 as [ncols nrows mines|b c r Hb IH|b c r rnd Hb IH Hw].
  - simpl. intros [? _]. discriminate.
  - simpl. destruct (toggle_flag_flags b c r) as (_ & _ & <- & <-). exact IH.
  - pose proof (reachable_Inv b (played_reachable b Hb)) as HI.
    assert (Hw0 : forall b0, ready rnd b c r b0 -> win b0 = false).
    { intros b0 Hr. destruct (mines_placed b) eqn:Hp.
      - rewrite (ready_placed _ _ _ _ _ Hr Hp). assumption.
      - pose proof (place_mines_spec rnd b c r HI Hp) as Hspec.
        rewrite (ready_unplaced _ _ _ _ _ Hr Hp) in Hspec. apply Hspec. }
    simpl. pose proof (reveal_outcome_ok rnd b c r HI) as Hout.
    destruct Hout as [Hin|Hin Hp' Hpm|b0 Hin Hr _|b0 Hin Hr Hh Hf Hm|b0 b' Hin Hr _ _ _ HP].
    + intros [? _]. congruence.
    + intros [? _]. congruence.
    + intros [? _]. rewrite (Hw0 b0 Hr) in *. discriminate.
    + assert (Hin0 : is_inbounds b0 c r = true).
      { destruct (mines_placed b) eqn:Hp.
        - rewrite (ready_placed _ _ _ _ _ Hr Hp). assumption.
        - pose proof (place_mines_spec rnd b c r HI Hp) as Hspec.
          rewrite (ready_unplaced _ _ _ _ _ Hr Hp) in Hspec.
          destruct Hspec as (_ & _ & _ & Hrel & _).
          rewrite (related_inbounds _ _ _ _ _ Hrel). assumption. }
      destruct Hr as (HI0 & Hp0 & Hr).
      destruct (lose_spec b0 c r HI0 Hp0 Hin0 Hh Hf) as (_ & _ & _ & _ & Hwin & _).
      intros [Hw' _]. rewrite Hwin in Hw'.
      rewrite (Hw0 b0 (conj HI0 (conj Hp0 Hr))) in Hw'. discriminate.
    + pose proof (post_frame _ _ _ _ HP) as HF. intros [Hw' Hgo'].
      rewrite (fr_game_over _ _ HF) in Hgo'.
      rewrite (fr_win_lost _ _ HF Hgo'), (Hw0 b0 Hr) in Hw'. discriminate.
Qed.

Lemma win_excludes_game_over_witness :
  ~ (win (run (new_Board 4 1 1) [Reveal 0 0 [1%nat]]) = true /\
     game_over (run (new_Board 4 1 1) [Reveal 0 0 [1%nat]]) = true).
Proof.
  apply (win_excludes_game_over (run (new_Board 4 1 1) [Reveal 0 0 [1%nat]])).
  apply played_reveal; [apply played_new|reflexivity].
Defined.

(** C7 (as stated, refuted). After the loss, the flagged mine at column 5 is
    revealed by [_reveal_all_mines]: it is flagged and revealed. *)
Lemma flagged_mine_revealed_on_loss :
  reachable lost_game /\
  is_flagged (st lost_game 5 0) = true /\ is_revealed (st lost_game 5 0) = true.
Proof.
  split; [apply run_reachable, reachable_new|]. split; reflexivity.
Qed.

(** C7 (amended). On every reachable board, a cell that is flagged and
    revealed at the same time is a mine and the game is over: before a mine
    has been stepped on no cell is both flagged and revealed, and a cell
    without a mine never is. *)
Theorem flagged_revealed_only_after_loss (b : Board) :
  reachable b ->
  Forall (fun cell =>
            is_flagged (state cell) = true -> is_revealed (state cell) = true ->
            is_mine (state cell) = true /\ game_over b = true)
         (cells b).
Proof.
  intros Hreach. pose proof (reachable_Inv b Hreach) as HI.
  pose proof (inv_flag b HI) as Hflag. pose proof (inv_live b HI) as Hlive.
  destruct (game_over b) eqn:Hgo.
  - eapply Forall_impl; [exact Hflag|]. simpl. auto.
  - eapply Forall_impl; [exact (Hlive eq_refl)|]. simpl.
    intros x Hx Hf Hr. destruct (Hx Hr). congruence.
Qed.

Lemma flagged_revealed_only_after_loss_witness :
  Forall (fun cell =>
            is_flagged (state cell) = true -> is_revealed (state cell) = true ->
            is_mine (state cell) = true /\ game_over lost_game = true)
         (cells lost_game).
Proof.
  apply (flagged_revealed_only_after_loss lost_game).
  apply run_reachable, reachable_new.
Defined.

(** C8 (as stated, refuted). After the loss five cells are revealed (three
    opened by the player, two mines) and [revealed_count] is 4. *)
Lemma revealed_count_after_loss :
  reachable lost_game /\
  revealed_count lost_game = 4 /\ count_revealed lost_game = 5%nat.
Proof.
  split; [apply run_reachable, reachable_new|]. split; reflexivity.
Qed.

(** C8 (amended). On every reachable board on which [game_over] is false,
    [revealed_count] is the number of revealed cells; on every reachable
    board it is at most that number. *)
Theorem revealed_count_exact_until_loss (b : Board) :
  reachable b ->
  (game_over b = false -> revealed_count b = Z.of_nat (count_revealed b)) /\
  revealed_count b <= Z.of_nat (count_revealed b).
Proof.
  intros Hreach. pose proof (reachable_Inv b Hreach) as HI.
  split; [apply (inv_count b HI)|apply (inv_count_le b HI)].
Qed.

Lemma revealed_count_exact_until_loss_witness :
  revealed_count (run (new_Board 4 1 1) [Reveal 0 0 [1%nat]]) =
  Z.of_nat (count_revealed (run (new_Board 4 1 1) [Reveal 0 0 [1%nat]])).
Proof.
  apply (revealed_count_exact_until_loss (run (new_Board 4 1 1) [Reveal 0 0 [1%nat]]));
    [apply run_reachable, reachable_new|reflexivity].
Defined.

(** C9 (as stated, refuted). With a negative mine count the sample is
    rejected although the count does not exceed the size of the pool. *)
Lemma place_mines_negative_count :
  let b := new_Board 3 3 (-1) in
  place_mines [] b 0 0 = Raise ValueError b /\
  ~ Z.of_nat (length (pool b 0 0)) < num_mines b.
Proof. split; [reflexivity|]. vm_compute. discriminate. Qed.

(** C9 (amended). [place_mines] raises (the [ValueError] of [random.sample])
    exactly when [num_mines] exceeds the size of the pool or is negative; it
    succeeds otherwise; when it raises, the board is unchanged. *)
Theorem place_mines_failure (rnd : list nat) (b : Board) (sc sr : Z) :
  (place_mines rnd b sc sr = Raise ValueError b <->
   num_mines b < 0 \/ Z.of_nat (length (pool b sc sr)) < num_mines b) /\
  ((exists b1, place_mines rnd b sc sr = Ok b1) <->
   0 <= num_mines b <= Z.of_nat (length (pool b sc sr))) /\
  (forall e b', place_mines rnd b sc sr = Raise e b' ->
     b' = b /\ mines_placed b' = mines_placed b /\ cells b' = cells b).
Proof.
  unfold place_mines.
  destruct (random_sample rnd (pool b sc sr) (num_mines b)) as [s|] eqn:Hs.
  - apply random_sample_Some in Hs as (Hk & _). split; [|split].
    + split; [discriminate|lia].
    + split; [intros _; exact Hk|eauto].
    + discriminate.
  - apply random_sample_None in Hs. split; [|split].
    + split; auto.
    + split; [intros [b1 H]; discriminate|lia].
    + intros e b' H. inversion H; subst. auto.
Qed.

(** C10. On a reachable board on which [game_over] or [win] is already
    true, [reveal] of an in-bounds, hidden, unflagged cell returns with that
    cell revealed and [revealed_count] increased (by one for the cell itself,
    and by the cells of the cascade it starts, if any). *)
Theorem reveal_after_end (b : Board) (rnd : list nat) (c r : Z) :
  reachable b -> game_over b = true \/ win b = true ->
  is_inbounds b c r = true ->
  is_revealed (st b c r) = false -> is_flagged (st b c r) = false ->
  exists b', reveal rnd b c r = Ok b' /\
    is_revealed (st b' c r) = true /\ revealed_count b + 1 <= revealed_count b'.
Proof.
  intros Hreach Hend Hin Hh Hf. pose proof (reachable_Inv b Hreach) as HI.
  assert (Hp : mines_placed b = true).
  { destruct (mines_placed b) eqn:Hp; [reflexivity|].
    destruct (inv_fresh b HI Hp) as (_ & _ & Hgo & Hw). destruct Hend; congruence. }
  pose proof (reveal_outcome_ok rnd b c r HI) as Hout.
  inversion Hout as [Hc Heq|Hc Hp' Hpm' Heq|b0 Hc Hr Hsk Heq|b0 Hc Hr Hh0 Hf0 Hm Heq
                    |b0 b' Hc Hr Hh0 Hf0 Hm HP Heq]; try congruence;
    rewrite (ready_placed _ _ _ _ _ Hr Hp) in *.
  - destruct Hsk; congruence.
  - destruct (lose_spec b c r HI Hp Hin Hh Hf) as (_ & _ & _ & _ & _ & Hrc & Hrev).
    exists (lose b c r). repeat split; [assumption|lia].
  - exists b'. split; [reflexivity|]. split.
    + destruct (post_target _ _ _ _ HP Hin); congruence.
    + apply (post_opened _ _ _ _ HP); assumption.
Qed.

Lemma reveal_after_end_witness :
  exists b', reveal [] (run (new_Board 4 1 1) [Reveal 0 0 [1%nat]]) 3 0 = Ok b' /\
    is_revealed (st b' 3 0) = true /\
    revealed_count (run (new_Board 4 1 1) [Reveal 0 0 [1%nat]]) + 1 <= revealed_count b'.
Proof.
  apply (reveal_after_end (run (new_Board 4 1 1) [Reveal 0 0 [1%nat]]) [] 3 0);
    [apply run_reachable, reachable_new|right; reflexivity
    |reflexivity|reflexivity|reflexivity].
Defined.

(** * Further properties of the board *)

(** ** Coordinates and positions *)

Lemma lookup_flat_map_const {A B} (g : A -> list B) (n : nat) (l : list A) i j x :
  (forall y, length (g y) = n) -> l !! i = Some x -> (j < n)%nat ->
  flat_map g l !! (i * n + j)%nat = g x !! j.
Proof.
  intros Hg. revert i. induction l as [|y l IH]; intros i Hi Hj; [discriminate|].
  simpl flat_map. destruct i as [|i]; simpl in Hi.
  - simplify_eq. simpl. apply lookup_app_l. rewrite Hg. assumption.
  - rewrite lookup_app_r by (rewrite Hg; lia). rewrite Hg.
    replace (S i * n + j - n)%nat with (i * n + j)%nat by lia. apply IH; assumption.
Qed.

Lemma lookup_grid {A} (f : Z -> Z -> A) ncols nrows c r :
  0 <= c < ncols -> 0 <= r < nrows ->
  grid f ncols nrows !! Z.to_nat (r * ncols + c) = Some (f c r).
Proof.
  intros Hc Hr. unfold grid, range.
  replace (Z.to_nat (r * ncols + c))
    with (Z.to_nat r * Z.to_nat ncols + Z.to_nat c)%nat by nia.
  rewrite (lookup_flat_map_const _ (Z.to_nat ncols) _ _ _ r).
  - change (map (fun c0 => f c0 r) (seqZ 0 ncols)) with ((fun c0 => f c0 r) <$> seqZ 0 ncols).
    rewrite list_lookup_fmap.
    rewrite (proj2 (lookup_seqZ 0 ncols (Z.to_nat c) c)) by lia. reflexivity.
  - intros y. rewrite length_map, length_seqZ. reflexivity.
  - apply lookup_seqZ. lia.
  - lia.
Qed.

Lemma position_coords b i :
  wf b -> (i < length (cells b))%nat ->
  exists c r, is_inbounds b c r = true /\ Z.to_nat (index b c r) = i.
Proof.
  unfold wf. intros Hwf Hi. rewrite Hwf in Hi.
  assert (Hc : 0 < cols b) by nia.
  exists (Z.of_nat i mod cols b), (Z.of_nat i / cols b).
  pose proof (Z.mod_pos_bound (Z.of_nat i) (cols b) Hc) as Hmod.
  pose proof (Z.div_mod (Z.of_nat i) (cols b) ltac:(lia)) as Hdm.
  assert (Hdiv : 0 <= Z.of_nat i / cols b) by (apply Z.div_pos; lia).
  split.
  - apply is_inbounds_iff. split; [lia|]. split; [lia|].
    apply Z.div_lt_upper_bound; nia.
  - unfold index. apply Nat2Z.inj. rewrite Z2Nat.id by nia. lia.
Qed.

(** X1. For in-bounds coordinates [index] is a position of a
    [cols * rows] list, and the coordinates are recovered from it as
    remainder and quotient by [cols]. *)
Theorem index_round_trip (b : Board) (c r : Z) :
  is_inbounds b c r = true ->
  0 <= index b c r < cols b * rows b /\
  index b c r mod cols b = c /\ index b c r / cols b = r.
Proof.
  rewrite is_inbounds_iff. unfold index. intros [Hc Hr].
  split; [nia|]. split.
  - rewrite Z.add_comm, Z.mod_add by lia. apply Z.mod_small. lia.
  - rewrite Z.add_comm, Z.div_add by lia. rewrite Z.div_small by lia. lia.
Qed.

Lemma index_round_trip_witness :
  0 <= index empty_board 3 2 < cols empty_board * rows empty_board /\
  index empty_board 3 2 mod cols empty_board = 3 /\
  index empty_board 3 2 / cols empty_board = 2.
Proof. apply (index_round_trip empty_board 3 2). reflexivity. Defined.

(** X2. Every position [i] of a [cols * rows] list is the index of exactly
    one in-bounds coordinate, [(i mod cols, i / cols)]. *)
Theorem position_is_an_index (b : Board) (i : Z) :
  0 <= i < cols b * rows b -> 0 < cols b ->
  is_inbounds b (i mod cols b) (i / cols b) = true /\
  index b (i mod cols b) (i / cols b) = i /\
  forall c r, is_inbounds b c r = true -> index b c r = i ->
              c = i mod cols b /\ r = i / cols b.
Proof.
  intros Hi Hc.
  pose proof (Z.mod_pos_bound i (cols b) Hc) as Hmod.
  pose proof (Z.div_mod i (cols b) ltac:(lia)) as Hdm.
  assert (Hdiv : 0 <= i / cols b) by (apply Z.div_pos; lia).
  split; [|split].
  - apply is_inbounds_iff. split; [lia|]. split; [lia|].
    apply Z.div_lt_upper_bound; nia.
  - unfold index. lia.
  - intros c r Hin Heq. destruct (index_round_trip b c r Hin) as (_ & H1 & H2).
    rewrite Heq in H1, H2. auto.
Qed.

Lemma position_is_an_index_witness :
  is_inbounds empty_board (11 mod cols empty_board) (11 / cols empty_board) = true /\
  index empty_board (11 mod cols empty_board) (11 / cols empty_board) = 11.
Proof.
  destruct (position_is_an_index empty_board 11) as (H1 & H2 & _);
    [vm_compute; split; [discriminate|reflexivity]|reflexivity|].
  split; assumption.
Defined.

(** ** What a call can change *)

Lemma R_open_refl s : R_open s s.
Proof. split; auto. Qed.

Lemma R_open_trans s1 s2 s3 : R_open s1 s2 -> R_open s2 s3 -> R_open s1 s3.
Proof. intros [? ?] [? ?]. split; [congruence|auto]. Qed.

Lemma R_place_open s s' : R_place s s' -> R_open s s'.
Proof. intros [Hr Hf]. split; [assumption|congruence]. Qed.

Lemma R_reveal_open s s' : R_reveal s s' -> R_open s s'.
Proof. intros (_ & Hf & _ & Hr). split; assumption. Qed.

(** A [reveal] leaves every flag as it is and hides no cell. *)
Lemma reveal_step_related rnd b c r :
  Inv b -> cells_related R_open b (step b (Reveal c r rnd)).
Proof.
  intros HI. cbn [step]. pose proof (reveal_outcome_ok rnd b c r HI) as Hout.
  destruct Hout as [Hin|Hin Hp' Hpm|b0 Hin Hr _|b0 Hin Hr Hh Hf Hm|b0 b' Hin Hr _ _ _ HP].
  - apply related_refl, R_open_refl.
  - apply related_refl, R_open_refl.
  - apply (related_impl R_place); [apply R_place_open|].
    apply (ready_same _ _ _ _ _ HI Hr).
  - pose proof (ready_inbounds _ _ _ _ _ c r HI Hr) as Hin0.
    destruct (ready_same _ _ _ _ _ HI Hr) as (Hrel & _). destruct Hr as (HI0 & Hp0 & _).
    destruct (lose_spec b0 c r HI0 Hp0) as (_ & Hrel' & _); try assumption; [congruence|].
    eapply related_trans; [apply R_open_trans| |].
    + eapply related_impl; [apply R_place_open|exact Hrel].
    + eapply related_impl; [apply R_reveal_open|exact Hrel'].
  - destruct (ready_same _ _ _ _ _ HI Hr) as (Hrel & _).
    eapply related_trans; [apply R_open_trans| |].
    + eapply related_impl; [apply R_place_open|exact Hrel].
    + eapply related_impl; [apply R_reveal_open|]. apply HP.
Qed.

Lemma step_mono b o : Inv b -> cells_related R_mono b (step b o).
Proof.
  intros HI. destruct o as [c r rnd|c r].
  - eapply related_impl; [|apply reveal_step_related; assumption].
    intros s s' [_ H]. exact H.
  - eapply related_impl; [|apply toggle_flag_related].
    intros s s' (_ & Hr & _) H. congruence.
Qed.

Lemma run_mono ops : forall b, Inv b -> cells_related R_mono b (run b ops).
Proof.
  induction ops as [|o ops IH]; intros b HI; simpl.
  - apply related_refl. intros s H. exact H.
  - eapply related_trans; [|apply step_mono; assumption|apply IH, step_Inv, HI].
    unfold R_mono. auto.
Qed.

Lemma reachable_layout b :
  reachable b ->
  exists ncols nrows mines, cells_related R_any (new_Board ncols nrows mines) b.
Proof.
  induction 1 as [ncols nrows mines|b o Hb (ncols & nrows & mines & IH)].
  - exists ncols, nrows, mines. apply related_refl. intros s. exact I.
  - exists ncols, nrows, mines. eapply related_trans; [|exact IH|].
    + intros. exact I.
    + eapply related_impl; [|apply step_mono, reachable_Inv, Hb]. intros. exact I.
Qed.

(** X3. On every reachable board the list of cells has
    [max(rows, 0) * max(cols, 0)] entries; when [(c, r)] is in bounds this
    is [cols * rows], and the entry at [index(c, r)] is the cell created
    for [(c, r)]: its [col] is [c] and its [row] is [r]. *)
Theorem cell_at_index (b : Board) (c r : Z) :
  reachable b ->
  length (cells b) = (Z.to_nat (rows b) * Z.to_nat (cols b))%nat /\
  (is_inbounds b c r = true ->
   Z.of_nat (length (cells b)) = cols b * rows b /\
   exists cell, cells b !! Z.to_nat (index b c r) = Some cell /\
                col cell = c /\ row cell = r /\ state cell = st b c r).
Proof.
  intros Hreach. pose proof (inv_wf b (reachable_Inv b Hreach)) as Hwf.
  split; [exact Hwf|]. intros Hin.
  apply is_inbounds_iff in Hin as Hdims. split.
  { unfold wf in Hwf. rewrite Hwf, Nat2Z.inj_mul, !Z2Nat.id by lia. lia. }
  destruct (lookup_index b c r Hwf Hin) as (cell & Hcell & Hst).
  exists cell. split; [assumption|].
  destruct (reachable_layout b Hreach) as (ncols & nrows & mines & Hc & Hr & _ & HF).
  simpl in Hc, Hr, HF. subst ncols nrows.
  pose proof (lookup_grid new_Cell (cols b) (rows b) c r (proj1 Hdims) (proj2 Hdims)) as Hg.
  destruct (Forall2_lookup_lr _ _ _ _ _ _ HF Hg Hcell) as (Hcol & Hrow & _).
  simpl in Hcol, Hrow. auto.
Qed.

Lemma cell_at_index_witness :
  length (cells two_regions) = 6%nat /\
  exists cell, cells two_regions !! Z.to_nat (index two_regions 4 0) = Some cell /\
               col cell = 4 /\ row cell = 0 /\ state cell = st two_regions 4 0.
Proof.
  destruct (cell_at_index two_regions 4 0) as [Hlen Hcell];
    [apply run_reachable, reachable_new|].
  split; [exact Hlen|apply Hcell; reflexivity].
Defined.

(** ** Neighbours *)

Lemma NoDup_deltas : NoDup deltas.
Proof.
  unfold deltas. repeat (apply NoDup_cons; split; [|]); try apply NoDup_nil_2;
    rewrite ?elem_of_cons, elem_of_nil; intros H;
    repeat (destruct H as [H|H]; [discriminate H|]); exact H.
Qed.

Lemma elem_of_neighbors b c r x y :
  (x, y) ∈ neighbors b c r <->
  is_inbounds b x y = true /\ (x, y) <> (c, r) /\
  -1 <= x - c <= 1 /\ -1 <= y - r <= 1.
Proof.
  unfold neighbors. rewrite elem_of_filter, list_elem_of_In, in_map_iff. simpl. split.
  - intros [([dx dy] & Heq & Hd) Hin]. simpl in Heq. simplify_eq.
    split; [assumption|].
    repeat (destruct Hd as [Hd|Hd];
            [simplify_eq; split; [intros ?; simplify_eq; lia|lia]|]).
    destruct Hd.
  - intros (Hin & Hne & Hx & Hy). split; [|assumption].
    exists (x - c, y - r). split; [simpl; f_equal; lia|].
    assert (Hx' : x - c = -1 \/ x - c = 0 \/ x - c = 1) by lia.
    assert (Hy' : y - r = -1 \/ y - r = 0 \/ y - r = 1) by lia.
    destruct Hx' as [->|[Hx0| ->]], Hy' as [->|[Hy0| ->]];
      try rewrite Hx0; try rewrite Hy0; simpl; try tauto.
    exfalso. apply Hne. f_equal; lia.
Qed.

Lemma NoDup_neighbors b c r : NoDup (neighbors b c r).
Proof.
  unfold neighbors. apply NoDup_filter.
  assert (Hinj : Inj (=) (=) (fun d : Z * Z => (c + fst d, r + snd d))).
  { intros [d1 d2] [e1 e2] Heq. simpl in Heq. simplify_eq. f_equal; lia. }
  apply (NoDup_fmap_2 (fun d : Z * Z => (c + fst d, r + snd d))), NoDup_deltas.
Qed.

Lemma length_neighbors_le b c r : (length (neighbors b c r) <= 8)%nat.
Proof.
  unfold neighbors.
  pose proof (count_if_le_length (fun p : Z * Z => is_inbounds b (fst p) (snd p))
                (map (fun d : Z * Z => (c + fst d, r + snd d)) deltas)) as Hle.
  unfold count_if in Hle. rewrite length_map in Hle. exact Hle.
Qed.

(** X4. [neighbors(c, r)] lists, without repetition, exactly the in-bounds
    cells other than [(c, r)] whose column and row differ from [c] and [r]
    by at most one; there are at most 8; and being a neighbour is symmetric
    between in-bounds cells. *)
Theorem neighbors_spec (b : Board) (c r x y : Z) :
  ((x, y) ∈ neighbors b c r <->
   is_inbounds b x y = true /\ (x, y) <> (c, r) /\
   -1 <= x - c <= 1 /\ -1 <= y - r <= 1) /\
  NoDup (neighbors b c r) /\ (length (neighbors b c r) <= 8)%nat /\
  (is_inbounds b c r = true /\ (x, y) ∈ neighbors b c r <->
   is_inbounds b x y = true /\ (c, r) ∈ neighbors b x y).
Proof.
  split; [apply elem_of_neighbors|]. split; [apply NoDup_neighbors|].
  split; [apply length_neighbors_le|].
  rewrite !elem_of_neighbors. split.
  - intros (Hcr & Hxy & Hne & Hx & Hy).
    split; [assumption|]. split; [assumption|]. split; [|lia].
    intros Heq. apply Hne. congruence.
  - intros (Hxy & Hcr & Hne & Hx & Hy).
    split; [assumption|]. split; [assumption|]. split; [|lia].
    intros Heq. apply Hne. congruence.
Qed.

(** X5. A cell that is not on the border has the 8 surrounding cells as
    neighbours, in the order of the table of offsets. *)
Theorem neighbors_interior (b : Board) (c r : Z) :
  1 <= c -> c + 1 < cols b -> 1 <= r -> r + 1 < rows b ->
  neighbors b c r =
  [ (c - 1, r - 1); (c, r - 1); (c + 1, r - 1);
    (c - 1, r);                 (c + 1, r);
    (c - 1, r + 1); (c, r + 1); (c + 1, r + 1) ].
Proof.
  intros Hc1 Hc2 Hr1 Hr2. unfold neighbors, deltas. simpl.
  rewrite !(proj2 (is_inbounds_iff _ _ _)) by lia.
  repeat f_equal; lia.
Qed.

Lemma neighbors_interior_witness :
  neighbors empty_board 1 2 =
  [ (0, 1); (1, 1); (2, 1); (0, 2); (2, 2); (0, 3); (1, 3); (2, 3) ].
Proof.
  apply (neighbors_interior empty_board 1 2); vm_compute; congruence.
Defined.

(** ** The candidate pool *)

Lemma length_pool b c r :
  is_inbounds b c r = true ->
  Z.of_nat (length (pool b c r)) =
  cols b * rows b - 1 - Z.of_nat (length (neighbors b c r)).
Proof.
  intros Hin. apply is_inbounds_iff in Hin as Hdims.
  pose proof (count_if_negb (fun p => mem p (forbidden b c r)) (all_positions b)) as Hsum.
  unfold count_if in Hsum. fold (pool b c r) in Hsum.
  assert (Hperm : List.filter (fun p => mem p (forbidden b c r)) (all_positions b)
                  ≡ₚ forbidden b c r).
  { apply NoDup_Permutation.
    - apply NoDup_filter, NoDup_all_positions.
    - unfold forbidden. apply NoDup_cons. split; [apply neighbors_not_self|].
      apply NoDup_neighbors.
    - intros [x y]. rewrite elem_of_filter, mem_iff, elem_of_all_positions. split; [tauto|].
      intros H. split; [|assumption]. unfold forbidden in H.
      apply elem_of_cons in H as [H|H]; [simplify_eq; assumption|].
      eapply neighbors_inbounds. eassumption. }
  apply Permutation_length in Hperm. rewrite Hperm in Hsum.
  unfold all_positions in Hsum. rewrite length_grid in Hsum.
  unfold forbidden in Hsum. simpl length in Hsum.
  assert (Hlen : Z.of_nat (Z.to_nat (rows b) * Z.to_nat (cols b)) = cols b * rows b)
    by (rewrite Nat2Z.inj_mul, !Z2Nat.id by lia; lia).
  lia.
Qed.

(** X6. For an in-bounds click the candidate pool has
    [cols*rows - 1 - len(neighbors)] positions, which is at least
    [cols*rows - 9]. *)
Theorem pool_size (b : Board) (c r : Z) :
  is_inbounds b c r = true ->
  Z.of_nat (length (pool b c r)) =
  cols b * rows b - 1 - Z.of_nat (length (neighbors b c r)) /\
  cols b * rows b - 9 <= Z.of_nat (length (pool b c r)).
Proof.
  intros Hin. pose proof (length_pool b c r Hin) as Hlen.
  pose proof (length_neighbors_le b c r). split; [assumption|lia].
Qed.

Lemma pool_size_witness :
  Z.of_nat (length (pool empty_board 0 0)) =
  cols empty_board * rows empty_board - 1 - Z.of_nat (length (neighbors empty_board 0 0)).
Proof. apply (pool_size empty_board 0 0). reflexivity. Defined.

(** X7. With [0 <= num_mines <= cols*rows - 9], [place_mines] succeeds for
    every in-bounds click, whatever the generator draws. *)
Theorem place_mines_has_room (rnd : list nat) (b : Board) (c r : Z) :
  is_inbounds b c r = true -> 0 <= num_mines b <= cols b * rows b - 9 ->
  exists b1, place_mines rnd b c r = Ok b1 /\ mines_placed b1 = true.
Proof.
  intros Hin Hk. pose proof (length_pool b c r Hin) as Hlen.
  pose proof (length_neighbors_le b c r) as Hn. unfold place_mines.
  destruct (random_sample rnd (pool b c r) (num_mines b)) as [s|] eqn:Hs.
  - eexists. split; reflexivity.
  - apply random_sample_None in Hs. lia.
Qed.

Lemma place_mines_has_room_witness :
  exists b1, place_mines [3%nat] (new_Board 5 5 1) 2 2 = Ok b1 /\ mines_placed b1 = true.
Proof.
  apply (place_mines_has_room [3%nat] (new_Board 5 5 1) 2 2);
    [reflexivity|vm_compute; split; discriminate].
Defined.

(** ** Calls on reachable boards *)

(** X8. Once mines are placed, on every reachable board the number of cells
    with a mine is [num_mines]. *)
Theorem mine_count_is_exact (b : Board) :
  reachable b -> mines_placed b = true -> Z.of_nat (count_mines b) = num_mines b.
Proof. intros Hreach. apply inv_mines, reachable_Inv, Hreach. Qed.

Lemma mine_count_is_exact_witness :
  Z.of_nat (count_mines lost_game) = num_mines lost_game.
Proof.
  apply (mine_count_is_exact lost_game);
    [apply run_reachable, reachable_new|reflexivity].
Defined.

(** The ways in which a call of [reveal] ends. *)
Lemma reveal_ends rnd b c r :
  Inv b ->
  (exists b', reveal rnd b c r = Ok b' /\
              (is_inbounds b c r = true -> mines_placed b' = true)) \/
  (reveal rnd b c r = Raise ValueError b /\
   mines_placed b = false /\ is_inbounds b c r = true /\
   (num_mines b < 0 \/ Z.of_nat (length (pool b c r)) < num_mines b)).
Proof.
  intros HI.
  pose proof (reveal_outcome_ok rnd b c r HI) as Hout.
  inversion Hout as [Hc Heq|Hc Hp' Hpm' Heq|b0 Hc Hr Hsk Heq|b0 Hc Hr Hh0 Hf0 Hm Heq
                    |b0 b' Hc Hr Hh0 Hf0 Hm HP Heq].
  - left. exists b. split; [reflexivity|congruence].
  - right. repeat split; try assumption.
    pose proof (place_mines_spec rnd b c r HI Hp') as Hspec. rewrite Hpm' in Hspec.
    apply Hspec.
  - left. exists b0. split; [reflexivity|]. intros _. apply Hr.
  - left. exists (lose b0 c r). split; [reflexivity|]. intros _.
    pose proof (ready_inbounds _ _ _ _ _ c r HI Hr) as Hin0.
    destruct Hr as (HI0 & Hp0 & _).
    destruct (lose_spec b0 c r HI0 Hp0) as (_ & _ & Hp1 & _); try assumption. congruence.
  - left. exists b'. split; [reflexivity|]. intros _.
    rewrite (fr_placed _ _ (post_frame _ _ _ _ HP)). apply Hr.
Qed.

(** X9. On a board reached by calls of which some may have been cut by
    [RecursionError], [reveal], called with [depth] more nested frames
    allowed, ends in one of three ways: it returns, with mines placed
    if the click is in bounds; or it raises the sampler's [ValueError], only
    on the first in-bounds click, when [num_mines] is negative or larger
    than the pool, and then leaves the board as it was; or it raises
    [RecursionError], which happens only when [depth] is at most the number
    of hidden cells of the board. *)
Theorem reveal_returns_or_raises (depth : nat) (rnd : list nat) (b : Board) (c r : Z) :
  reachable_limited b ->
  (exists b', reveal_limited depth rnd b c r = Ok b' /\
              (is_inbounds b c r = true -> mines_placed b' = true)) \/
  (reveal_limited depth rnd b c r = Raise ValueError b /\
   mines_placed b = false /\ is_inbounds b c r = true /\
   (num_mines b < 0 \/ Z.of_nat (length (pool b c r)) < num_mines b)) \/
  (exists b', reveal_limited depth rnd b c r = Raise RecursionError b' /\
              (depth <= count_hidden b)%nat).
Proof.
  intros Hreach. pose proof (reachable_limited_Inv b Hreach) as HI.
  pose proof (reveal_ends rnd b c r HI) as Hends.
  destruct (le_lt_dec depth (count_hidden b)) as [Hle|Hlt].
  2:{ rewrite (reveal_limited_enough depth rnd b c r HI Hlt).
      destruct Hends as [H|H]; [left|right; left]; exact H. }
  pose proof (reveal_limited_complete depth rnd b c r HI) as Hc.
  pose proof (reveal_limited_defined depth rnd b c r) as Hdef.
  destruct (reveal_limited depth rnd b c r) as [b'|[|] b'|] eqn:Heq.
  - rewrite <- (Hc I) in Hends. destruct Hends as [H|H]; [left|right; left]; exact H.
  - rewrite <- (Hc I) in Hends. destruct Hends as [H|H]; [left|right; left]; exact H.
  - right. right. exists b'. split; [reflexivity|assumption].
  - contradiction.
Qed.

Lemma reveal_returns_or_raises_witness :
  (exists b', reveal_limited 10 [] (new_Board 3 3 1) 1 1 = Ok b' /\
              (is_inbounds (new_Board 3 3 1) 1 1 = true -> mines_placed b' = true)) \/
  (reveal_limited 10 [] (new_Board 3 3 1) 1 1 = Raise ValueError (new_Board 3 3 1) /\
   mines_placed (new_Board 3 3 1) = false /\ is_inbounds (new_Board 3 3 1) 1 1 = true /\
   (num_mines (new_Board 3 3 1) < 0 \/
    Z.of_nat (length (pool (new_Board 3 3 1) 1 1)) < num_mines (new_Board 3 3 1))) \/
  (exists b', reveal_limited 10 [] (new_Board 3 3 1) 1 1 = Raise RecursionError b' /\
              (10 <= count_hidden (new_Board 3 3 1))%nat).
Proof.
  apply (reveal_returns_or_raises 10 [] (new_Board 3 3 1) 1 1), reachable_limited_new.
Defined.

(** X10. No sequence of [reveal] and [toggle_flag] calls on a reachable
    board hides a revealed cell again. *)
Theorem revealed_stays_revealed (b : Board) (ops : list op) (c r : Z) :
  reachable b -> is_revealed (st b c r) = true ->
  is_revealed (st (run b ops) c r) = true.
Proof.
  intros Hreach. apply (related_st R_mono b (run b ops) c r).
  - intros H. exact H.
  - apply run_mono, reachable_Inv, Hreach.
Qed.

Lemma revealed_stays_revealed_witness :
  is_revealed (st (run two_regions [ToggleFlag 1 0; Reveal 3 0 []; Reveal 5 0 []]) 1 0) = true.
Proof.
  apply (revealed_stays_revealed two_regions);
    [apply run_reachable, reachable_new|reflexivity].
Defined.

Lemma step_flags_final b o :
  Inv b ->
  (game_over b = true -> game_over (step b o) = true) /\
  (win b = true -> win (step b o) = true) /\
  (mines_placed b = true -> mines_placed (step b o) = true).
Proof.
  intros HI. destruct o as [c r rnd|c r]; cbn [step].
  2:{ destruct (toggle_flag_flags b c r) as (<- & _ & <- & <-). auto. }
  pose proof (reveal_outcome_ok rnd b c r HI) as Hout.
  destruct Hout as [Hin|Hin Hp' Hpm|b0 Hin Hr _|b0 Hin Hr Hh Hf Hm|b0 b' Hin Hr _ _ _ HP];
    auto.
  - destruct (ready_same _ _ _ _ _ HI Hr) as (_ & -> & -> & _).
    destruct Hr as (_ & -> & _). auto.
  - pose proof (ready_inbounds _ _ _ _ _ c r HI Hr) as Hin0.
    destruct (ready_same _ _ _ _ _ HI Hr) as (_ & Hw & _). destruct Hr as (HI0 & Hp0 & _).
    destruct (lose_spec b0 c r HI0 Hp0) as (_ & _ & -> & -> & -> & _); try assumption;
      [congruence|]. rewrite Hw. auto.
  - destruct (ready_same _ _ _ _ _ HI Hr) as (_ & Hw & Hgo & _).
    pose proof (post_frame _ _ _ _ HP) as HF.
    rewrite (fr_game_over _ _ HF), (fr_placed _ _ HF), Hgo.
    split; [auto|]. split; [|intros _; apply Hr].
    intros Hwin. apply (fr_win _ _ HF). congruence.
Qed.

(** X11. [game_over], [win] and [mines_placed] are final: once true on a
    reachable board they stay true through every later [reveal] and
    [toggle_flag]. *)
Theorem end_of_game_is_final (b : Board) (ops : list op) :
  reachable b ->
  (game_over b = true -> game_over (run b ops) = true) /\
  (win b = true -> win (run b ops) = true) /\
  (mines_placed b = true -> mines_placed (run b ops) = true).
Proof.
  intros Hreach. pose proof (reachable_Inv b Hreach) as HI. clear Hreach.
  revert b HI. induction ops as [|o ops IH]; intros b HI; [simpl; auto|].
  destruct (step_flags_final b o HI) as (H1 & H2 & H3).
  destruct (IH (step b o) (step_Inv b o HI)) as (H4 & H5 & H6).
  simpl. auto.
Qed.

Lemma end_of_game_is_final_witness :
  game_over (run lost_game [Reveal 4 0 []; ToggleFlag 5 0]) = true.
Proof.
  apply (end_of_game_is_final lost_game [Reveal 4 0 []; ToggleFlag 5 0]);
    [apply run_reachable, reachable_new|reflexivity].
Defined.

Lemma lose_exact b c r :
  wf b -> is_inbounds b c r = true -> is_mine (st b c r) = true ->
  cells_related R_safe_same b (lose b c r).
Proof.
  intros Hwf Hin Hm. destruct (lookup_index b c r Hwf Hin) as (cell & Hcell & Hst).
  repeat split. unfold lose, _reveal_all_mines. simpl.
  apply Forall2_fmap_r, Forall2_alter_r.
  - apply Forall_Forall2_diag, Forall_forall. intros x _. simpl.
    destruct (is_mine (state x)) eqn:Hx; simpl; repeat split; congruence.
  - intros x y Hx Hy _. simplify_eq. rewrite Hst in Hm. simpl. rewrite Hm. simpl.
    repeat split. intros Hsafe. congruence.
Qed.

(** X12. On a reachable board with mines placed, [reveal] of a hidden,
    unflagged mine returns with [game_over] set, [win] as it was,
    [revealed_count] one higher and every mine revealed; the cells without
    a mine are exactly as before. *)
Theorem stepping_on_a_mine (rnd : list nat) (b : Board) (c r : Z) :
  reachable b -> mines_placed b = true -> is_inbounds b c r = true ->
  is_revealed (st b c r) = false -> is_flagged (st b c r) = false ->
  is_mine (st b c r) = true ->
  exists b', reveal rnd b c r = Ok b' /\
    game_over b' = true /\ win b' = win b /\
    revealed_count b' = revealed_count b + 1 /\
    (forall x y, is_inbounds b x y = true -> is_mine (st b x y) = true ->
                 is_revealed (st b' x y) = true) /\
    (forall x y, is_mine (st b x y) = false -> st b' x y = st b x y).
Proof.
  intros Hreach Hp Hin Hh Hf Hm. pose proof (reachable_Inv b Hreach) as HI.
  pose proof (reveal_outcome_ok rnd b c r HI) as Hout.
  inversion Hout as [Hc Heq|Hc Hp' Hpm' Heq|b0 Hc Hr Hsk Heq|b0 Hc Hr Hh0 Hf0 Hm0 Heq
                    |b0 b' Hc Hr Hh0 Hf0 Hm0 HP Heq]; try congruence;
    rewrite (ready_placed _ _ _ _ _ Hr Hp) in *; try congruence.
  - destruct Hsk; congruence.
  - destruct (lose_spec b c r HI Hp Hin Hh Hf) as (HI' & Hrel & _ & Hgo & Hw & Hrc & _).
    exists (lose b c r). split; [reflexivity|]. repeat split; try assumption.
    + intros x y Hxy Hmine.
      apply (Forall_cells_st (fun s => is_mine s = true -> is_revealed s = true)).
      * apply HI'.
      * rewrite (related_inbounds _ _ _ _ _ Hrel). assumption.
      * apply (inv_lost _ HI' Hgo).
      * destruct (related_st R_reveal b (lose b c r) x y (R_reveal_refl _) Hrel) as (<- & _).
        assumption.
    + intros x y Hsafe.
      destruct (related_st R_safe_same b (lose b c r) x y) as [_ H]; auto.
      * split; auto.
      * apply lose_exact; [apply HI|assumption..].
Qed.

Lemma stepping_on_a_mine_witness :
  exists b', reveal [] two_regions 3 0 = Ok b' /\
    game_over b' = true /\ win b' = win two_regions /\
    revealed_count b' = revealed_count two_regions + 1.
Proof.
  destruct (stepping_on_a_mine [] two_regions 3 0) as (b' & H1 & H2 & H3 & H4 & _);
    [apply run_reachable, reachable_new|reflexivity..|].
  exists b'. auto.
Defined.

(** X13. [reveal] returns the board unchanged when the coordinates are out
    of bounds, and, once mines are placed, when the cell is already revealed
    or is flagged; [toggle_flag] returns it unchanged when the coordinates
    are out of bounds or the cell is revealed. *)
Theorem ignored_calls (rnd : list nat) (b : Board) (c r : Z) :
  is_inbounds b c r = false \/
  (mines_placed b = true /\
   (is_revealed (st b c r) = true \/ is_flagged (st b c r) = true)) ->
  reveal rnd b c r = Ok b /\
  (is_inbounds b c r = false \/ is_revealed (st b c r) = true ->
   toggle_flag b c r = b).
Proof.
  intros H. split.
  - unfold reveal. simpl reveal_rec. destruct (is_inbounds b c r) eqn:Hin.
    + destruct H as [?|[Hp Hs]]; [discriminate|].
      rewrite reveal_body_eq by assumption.
      destruct Hs as [-> | ->]; [reflexivity|]. rewrite orb_true_r. reflexivity.
    + unfold reveal_body. rewrite Hin. reflexivity.
  - intros H'. destruct (toggle_flag_cases b c r) as [[-> _]|(_ & Hin & Hrev)];
      [reflexivity|]. destruct H'; congruence.
Qed.

Lemma ignored_calls_witness :
  reveal [] two_regions 1 0 = Ok two_regions /\
  reveal [] two_regions 6 0 = Ok two_regions.
Proof.
  split.
  - apply (ignored_calls [] two_regions 1 0). right. split; [reflexivity|left; reflexivity].
  - apply (ignored_calls [] two_regions 6 0). left. reflexivity.
Defined.

(** X14. The first in-bounds [reveal] places the mines even when its cell is
    flagged: on a board without mines, if the placement succeeds, the call
    returns the board produced by [place_mines] and opens no cell. *)
Theorem first_click_on_a_flag (rnd : list nat) (b : Board) (c r : Z) (b1 : Board) :
  reachable b -> mines_placed b = false -> is_inbounds b c r = true ->
  is_flagged (st b c r) = true -> place_mines rnd b c r = Ok b1 ->
  reveal rnd b c r = Ok b1 /\ mines_placed b1 = true /\
  revealed_count b1 = 0 /\ count_revealed b1 = 0%nat /\
  is_flagged (st b1 c r) = true.
Proof.
  intros Hreach Hp Hin Hfl Hpm. pose proof (reachable_Inv b Hreach) as HI.
  pose proof (place_mines_spec rnd b c r HI Hp) as Hspec. rewrite Hpm in Hspec.
  destruct Hspec as (_ & HI1 & Hp1 & Hrel & Hrc & Hgo & _).
  assert (Hfl1 : is_flagged (st b1 c r) = true).
  { destruct (related_st R_place b b1 c r) as [_ <-]; [split; reflexivity|assumption..]. }
  pose proof (reveal_outcome_ok rnd b c r HI) as Hout.
  inversion Hout as [Hc Heq|Hc Hp' Hpm' Heq|b0 Hc Hr Hsk Heq|b0 Hc Hr Hh0 Hf0 Hm0 Heq
                    |b0 b' Hc Hr Hh0 Hf0 Hm0 HP Heq]; try congruence;
    assert (b0 = b1) as -> by (pose proof (ready_unplaced _ _ _ _ _ Hr Hp); congruence);
    try congruence.
  repeat split; try assumption.
  pose proof (inv_count b1 HI1 Hgo). lia.
Qed.

Lemma first_click_on_a_flag_witness :
  reveal [] (run first_click_board [ToggleFlag 0 0]) 0 0 =
  Ok (match place_mines [] (run first_click_board [ToggleFlag 0 0]) 0 0 with
      | Ok b1 => b1 | _ => first_click_board end).
Proof.
  apply (first_click_on_a_flag [] (run first_click_board [ToggleFlag 0 0]) 0 0);
    [apply run_reachable, reachable_new|reflexivity..].
Defined.

(** X15. A [reveal] never opens a flagged cell without a mine: after any
    [reveal] on a reachable board a cell that was flagged and hidden is
    still flagged, and it is revealed only if it is a mine and the game is
    lost. *)
Theorem flagged_cell_is_protected (rnd : list nat) (b : Board) (c r x y : Z) :
  reachable b -> is_inbounds b x y = true ->
  is_flagged (st b x y) = true -> is_revealed (st b x y) = false ->
  let b' := step b (Reveal c r rnd) in
  is_flagged (st b' x y) = true /\
  (is_revealed (st b' x y) = true ->
   is_mine (st b' x y) = true /\ game_over b' = true).
Proof.
  intros Hreach Hin Hf Hh b'. pose proof (reachable_Inv b Hreach) as HI.
  pose proof (reveal_step_related rnd b c r HI) as Hrel. fold b' in Hrel.
  pose proof (step_Inv b (Reveal c r rnd) HI) as HI'. fold b' in HI'.
  assert (Hin' : is_inbounds b' x y = true)
    by (rewrite (related_inbounds _ _ _ _ _ Hrel); assumption).
  destruct (related_st R_open b b' x y (R_open_refl _) Hrel) as [Hfl _].
  rewrite Hf in Hfl. split; [congruence|]. intros Hrev.
  pose proof (Forall_cells_st
    (fun s => is_revealed s = true -> is_flagged s = true -> is_mine s = true)
    b' x y (inv_wf b' HI') Hin' (inv_flag b' HI')) as Hmine.
  split; [apply Hmine; congruence|].
  destruct (game_over b') eqn:Hgo; [reflexivity|].
  pose proof (Forall_cells_st
    (fun s => is_revealed s = true -> is_mine s = false /\ is_flagged s = false)
    b' x y (inv_wf b' HI') Hin' (inv_live b' HI' Hgo)) as Hlive.
  destruct (Hlive Hrev). congruence.
Qed.

Lemma flagged_cell_is_protected_witness :
  is_flagged (st (step (run two_regions [ToggleFlag 4 0]) (Reveal 5 0 [])) 4 0) = true.
Proof.
  apply (flagged_cell_is_protected [] (run two_regions [ToggleFlag 4 0]) 5 0 4 0);
    [apply run_reachable, run_reachable, reachable_new|reflexivity..].
Defined.

(** ** Flags *)

Lemma alter_alter {A} (f g : A -> A) (l : list A) i :
  alter f i (alter g i l) = alter (fun x => f (g x)) i l.
Proof.
  revert i. induction l as [|x l IH]; intros [|i]; simpl; [reflexivity..|].
  f_equal. apply IH.
Qed.

(** X16. Two calls of [toggle_flag] on the same coordinates restore the
    board, on every board and for all coordinates. *)
Theorem toggle_flag_twice (b : Board) (c r : Z) :
  toggle_flag (toggle_flag b c r) c r = b.
Proof.
  destruct (toggle_flag_cases b c r) as [[Heq _]|(Heq & Hin & Hrev)].
  { rewrite Heq, Heq. reflexivity. }
  rewrite Heq.
  set (f := fun s => set_is_flagged (negb (is_flagged s)) s) in *.
  destruct (toggle_flag_cases (update_state b (index b c r) f) c r)
    as [[_ [Hc|Hc]]|(Heq' & _ & _)].
  - change (is_inbounds b c r = false) in Hc. congruence.
  - unfold st, cell_state, update_state in Hc, Hrev. simpl in Hc.
    change (index (with_cells b _) c r) with (index b c r) in Hc.
    rewrite list_lookup_alter_eq in Hc.
    destruct (cells b !! Z.to_nat (index b c r)); simpl in Hc; congruence.
  - rewrite Heq'. unfold update_state. simpl.
    change (index (with_cells b _) c r) with (index b c r).
    assert (Hid : forall (l : list Cell) i,
               alter (on_state f) i (alter (on_state f) i l) = l).
    { intros l i. rewrite alter_alter. apply list_alter_id.
      intros [x y [m v fl a]]. unfold on_state, f, set_is_flagged. simpl.
      rewrite negb_involutive. reflexivity. }
    rewrite Hid. destruct b. reflexivity.
Qed.

(** X17. On a reachable board [toggle_flag] on an in-bounds hidden cell
    inverts the flag of that cell and changes nothing else: the other fields
    of the cell, every other cell and the scalar fields of the board are the
    same, and the number of flagged cells moves by one. *)
Theorem toggle_flag_effect (b : Board) (c r : Z) :
  reachable b -> is_inbounds b c r = true -> is_revealed (st b c r) = false ->
  let b' := toggle_flag b c r in
  st b' c r = set_is_flagged (negb (is_flagged (st b c r))) (st b c r) /\
  (forall x y, is_inbounds b x y = true -> (x, y) <> (c, r) -> st b' x y = st b x y) /\
  same_flags b b' /\
  Z.of_nat (count_flagged b') =
  Z.of_nat (count_flagged b) + (if is_flagged (st b c r) then -1 else 1).
Proof.
  intros Hreach Hin Hh b'. pose proof (inv_wf b (reachable_Inv b Hreach)) as Hwf.
  split; [|split; [|split; [apply toggle_flag_flags|]]]; unfold b';
    destruct (toggle_flag_cases b c r) as [[_ [?|?]]|(-> & _ & _)]; try congruence.
  - apply (st_update_same b c r (fun s => set_is_flagged (negb (is_flagged s)) s));
      assumption.
  - intros x y Hxy Hne. apply (st_update_other b c r); try assumption. congruence.
  - destruct (lookup_index b c r Hwf Hin) as (cell & Hcell & ->).
    pose proof (count_if_alter (fun cell => is_flagged (state cell))
                  (on_state (fun s => set_is_flagged (negb (is_flagged s)) s))
                  _ _ _ Hcell) as Hcnt.
    unfold count_flagged, update_state. simpl in *.
    destruct (is_flagged (state cell)); simpl in Hcnt; lia.
Qed.

Lemma toggle_flag_effect_witness :
  Z.of_nat (count_flagged (toggle_flag two_regions 4 0)) =
  Z.of_nat (count_flagged two_regions) + 1.
Proof.
  destruct (toggle_flag_effect two_regions 4 0) as (_ & _ & _ & H);
    [apply run_reachable, reachable_new|reflexivity..|exact H].
Defined.

(** ** Opening cells *)

(** X18. On a reachable board with mines placed, [reveal] of a hidden,
    unflagged cell without a mine whose adjacent count is not 0 opens that
    cell and no other: [revealed_count] grows by one and every other cell is
    as before. *)
Theorem numbered_cell_opens_alone (rnd : list nat) (b : Board) (c r : Z) :
  reachable b -> mines_placed b = true -> is_inbounds b c r = true ->
  is_revealed (st b c r) = false -> is_flagged (st b c r) = false ->
  is_mine (st b c r) = false -> adjacent (st b c r) <> 0 ->
  exists b', reveal rnd b c r = Ok b' /\
    revealed_count b' = revealed_count b + 1 /\
    st b' c r = set_is_revealed true (st b c r) /\
    (forall x y, is_inbounds b x y = true -> (x, y) <> (c, r) -> st b' x y = st b x y) /\
    game_over b' = game_over b.
Proof.
  intros Hreach Hp Hin Hh Hf Hm Ha. pose proof (reachable_Inv b Hreach) as HI.
  pose proof (inv_wf b HI) as Hwf.
  pose proof (open_cell_Frame b c r HI Hp Hin Hh Hf Hm) as HF.
  apply is_inbounds_iff in Hin as Hdims.
  destruct (check_win_spec (open_cell b c r)) as [Hcw _];
    [apply HF|rewrite (fr_placed _ _ HF); assumption|simpl; lia|simpl; lia|].
  exists (_check_win (open_cell b c r)). split.
  - unfold reveal. simpl reveal_rec. rewrite reveal_body_eq by assumption.
    rewrite Hh, Hf. simpl orb. cbv iota.
    rewrite (open_cell_st b c r Hwf Hin). simpl is_mine. simpl adjacent. rewrite Hm.
    destruct (Z.eqb_spec (adjacent (st b c r)) 0); [contradiction|]. reflexivity.
  - rewrite Hcw.
    assert (Hst : forall x y,
      st (if win_condition (open_cell b c r)
          then with_win (open_cell b c r) true else open_cell b c r) x y =
      st (open_cell b c r) x y) by (intros; destruct (win_condition _); reflexivity).
    rewrite !Hst. split; [destruct (win_condition _); reflexivity|].
    split; [apply open_cell_st; assumption|]. split.
    + intros x y Hxy Hne. rewrite Hst. apply open_cell_st_other; try assumption. congruence.
    + destruct (win_condition _); reflexivity.
Qed.

Lemma numbered_cell_opens_alone_witness :
  exists b', reveal [] two_regions 4 0 = Ok b' /\
    revealed_count b' = revealed_count two_regions + 1.
Proof.
  destruct (numbered_cell_opens_alone [] two_regions 4 0) as (b' & H1 & H2 & _);
    [apply run_reachable, reachable_new|reflexivity..|vm_compute; discriminate|].
  exists b'. auto.
Defined.

(** X19. [_check_win] is idempotent on every board: a second check in a row
    changes nothing. *)
Theorem check_win_idempotent (b : Board) :
  _check_win (_check_win b) = _check_win b.
Proof.
  unfold _check_win at 2 3.
  destruct ((revealed_count b =? cols b * rows b - num_mines b) && negb (game_over b))
    eqn:Hcond; [|unfold _check_win; rewrite Hcond; reflexivity].
  unfold _check_win. simpl. rewrite Hcond.
  unfold with_cells, with_win. simpl. f_equal.
  rewrite map_map. apply map_ext. intros [x y [m v fl a]].
  destruct v, m; reflexivity.
Qed.

(** ** A board without mines *)

(** A set of cells that contains an in-bounds cell and is closed under
    [neighbors] contains every in-bounds cell. *)
Lemma grid_connected b (S : Z -> Z -> Prop) c r :
  is_inbounds b c r = true -> S c r ->
  (forall x y x' y', is_inbounds b x y = true -> S x y ->
                     (x', y') ∈ neighbors b x y -> S x' y') ->
  forall x y, is_inbounds b x y = true -> S x y.
Proof.
  intros Hin Hs Hstep. apply is_inbounds_iff in Hin.
  assert (H : forall (n : nat) x y, is_inbounds b x y = true ->
              Z.abs (x - c) + Z.abs (y - r) <= Z.of_nat n -> S x y).
  { induction n as [|n IH]; intros x y Hxy Hd.
    - assert (x = c /\ y = r) as [-> ->] by lia. assumption.
    - destruct (decide (x = c /\ y = r)) as [[-> ->]|Hne]; [assumption|].
      apply is_inbounds_iff in Hxy as Hxy'.
      apply (Hstep (x - Z.sgn (x - c)) (y - Z.sgn (y - r)) x y).
      + apply is_inbounds_iff. lia.
      + apply IH; [apply is_inbounds_iff|]; lia.
      + apply elem_of_neighbors. split; [assumption|]. split; [|lia].
        intros Heq. simplify_eq. lia. }
  intros x y Hxy. apply (H (Z.to_nat (Z.abs (x - c) + Z.abs (y - r)))); [assumption|lia].
Qed.

Lemma st_Forall (P : CellState -> Prop) b :
  wf b -> (forall x y, is_inbounds b x y = true -> P (st b x y)) ->
  Forall (fun cell => P (state cell)) (cells b).
Proof.
  intros Hwf H. apply Forall_lookup. intros i cell Hcell.
  destruct (position_coords b i Hwf (lookup_lt_Some _ _ _ Hcell)) as (x & y & Hxy & <-).
  specialize (H x y Hxy). unfold st, cell_state in H. rewrite Hcell in H. exact H.
Qed.

Lemma count_if_Forall_true {A} (p : A -> bool) l :
  Forall (fun x => p x = true) l -> count_if p l = length l.
Proof.
  intros H. pose proof (count_if_negb p l) as Hsum.
  rewrite (count_if_Forall_false (fun x => negb (p x))) in Hsum; [lia|].
  eapply Forall_impl; [exact H|]. simpl. intros x ->. reflexivity.
Qed.

(** The first call of [reveal] on a board without mines, run to its end. *)
Lemma reveal_empty_board (ncols nrows : Z) (rnd : list nat) (c r : Z) :
  is_inbounds (new_Board ncols nrows 0) c r = true ->
  exists b', reveal rnd (new_Board ncols nrows 0) c r = Ok b' /\
    win b' = true /\ game_over b' = false /\
    revealed_count b' = ncols * nrows /\
    Forall (fun cell => is_revealed (state cell) = true) (cells b').
Proof.
  set (b := new_Board ncols nrows 0). intros Hin.
  pose proof (Inv_new_Board ncols nrows 0) as HI. fold b in HI.
  assert (Hp : mines_placed b = false) by reflexivity.
  pose proof (reveal_outcome_ok rnd b c r HI) as Hout.
  pose proof (place_mines_spec rnd b c r HI Hp) as Hspec.
  inversion Hout as [Hc Heq|Hc Hp' Hpm' Heq|b0 Hc Hr Hsk Heq|b0 Hc Hr Hh0 Hf0 Hm0 Heq
                    |b0 b' Hc Hr Hh0 Hf0 Hm0 HP Heq]; try congruence.
  { rewrite Hpm' in Hspec. destruct Hspec as [_ [H|H]]; simpl in H; lia. }
  all: pose proof (ready_unplaced _ _ _ _ _ Hr Hp) as Hpm; rewrite Hpm in Hspec;
    destruct Hspec as (_ & HI0 & Hp0 & Hrel & Hrc0 & Hgo0 & _);
    pose proof (inv_wf b0 HI0) as Hwf0;
    assert (Hin0 : forall x y, is_inbounds b0 x y = is_inbounds b x y)
      by (intros; apply (related_inbounds _ _ _ _ _ Hrel));
    assert (Hfresh : forall x y, is_inbounds b0 x y = true ->
              is_revealed (st b0 x y) = false /\ is_flagged (st b0 x y) = false);
    [intros x y Hxy; rewrite Hin0 in Hxy;
     destruct (related_st R_place b b0 x y) as [<- <-];
       [split; reflexivity|assumption|];
     apply (Forall_cells_st (fun s => is_revealed s = false /\ is_flagged s = false));
       [apply HI|assumption|];
     apply Forall_forall; intros cell Hcell;
     apply elem_of_grid in Hcell as (x0 & y0 & _ & ->); split; reflexivity|];
    assert (Hnomine : forall x y, is_inbounds b0 x y = true -> is_mine (st b0 x y) = false);
    [intros x y Hxy;
     apply (Forall_cells_st (fun s => is_mine s = false)); [assumption..|];
     apply Forall_forall; intros cell Hcell;
     apply (count_if_zero (fun cell => is_mine (state cell)) (cells b0)); [|assumption];
     pose proof (inv_mines b0 HI0 Hp0) as Hcnt; pose proof Hrel as (_ & _ & Hn & _);
     rewrite <- Hn in Hcnt; unfold count_mines in Hcnt; simpl in Hcnt; lia|].
  - destruct (Hfresh c r) as [Hh Hf]; [rewrite Hin0; assumption|].
    destruct Hsk; congruence.
  - rewrite Hnomine in Hm0 by (rewrite Hin0; assumption). discriminate.
  - exists b'. split; [reflexivity|].
    pose proof (post_frame _ _ _ _ HP) as HF. pose proof (fr_inv _ _ HF) as HI'.
    pose proof (fr_ext _ _ HF) as Hrel'.
    assert (Hgo' : game_over b' = false) by (rewrite (fr_game_over _ _ HF); assumption).
    assert (Hzero : forall x y, is_inbounds b0 x y = true -> adjacent (st b0 x y) = 0).
    { intros x y Hxy. rewrite (inv_adj b0 HI0 Hp0 x y Hxy), Hnomine by assumption.
      unfold mine_neighbors. rewrite count_if_Forall_false; [reflexivity|].
      apply Forall_forall. intros [x' y'] Hn. simpl. apply Hnomine.
      eapply neighbors_inbounds. eassumption. }
    assert (Hall : forall x y, is_inbounds b0 x y = true -> is_revealed (st b' x y) = true).
    { apply (grid_connected b0 (fun x y => is_revealed (st b' x y) = true) c r).
      - rewrite Hin0. assumption.
      - destruct (post_target _ _ _ _ HP) as [H|H];
          [rewrite Hin0; assumption|assumption|congruence].
      - intros x y x' y' Hxy Hrev Hn.
        destruct (Hfresh x y Hxy) as [Hh _].
        destruct (post_closed _ _ _ _ HP x y Hxy Hh Hrev (Hzero x y Hxy) (x', y') Hn)
          as [H|H]; [assumption|]. simpl in H.
        destruct (Hfresh x' y') as [_ Hf']; [eapply neighbors_inbounds; eassumption|].
        congruence. }
    assert (HallF : Forall (fun cell => is_revealed (state cell) = true) (cells b')).
    { apply (st_Forall (fun s => is_revealed s = true)); [apply HI'|].
      intros x y Hxy. apply Hall. rewrite <- (related_inbounds _ _ _ _ _ Hrel'). assumption. }
    assert (Hcount : revealed_count b' = ncols * nrows).
    { rewrite (inv_count b' HI' Hgo'). unfold count_revealed.
      rewrite count_if_Forall_true by assumption.
      pose proof (inv_wf b' HI') as Hwf'. unfold wf in Hwf'.
      destruct Hrel as (Hc1 & Hr1 & _), Hrel' as (Hc2 & Hr2 & _). simpl in Hc1, Hr1.
      apply is_inbounds_iff in Hin. simpl in Hin.
      rewrite Hwf', <- Hc2, <- Hr2, <- Hc1, <- Hr1, Nat2Z.inj_mul, !Z2Nat.id by lia. lia. }
    split; [|auto].
    assert (Hreach' : reachable b').
    { replace b' with (step b (Reveal c r rnd)); [apply reachable_step, reachable_new|].
      cbn [step]. rewrite <- Heq. reflexivity. }
    apply (reachable_started b' Hreach').
    + rewrite (fr_placed _ _ HF). assumption.
    + unfold win_condition. rewrite Hgo', Hcount.
      destruct Hrel as (Hc1 & Hr1 & Hn1 & _), Hrel' as (Hc2 & Hr2 & Hn2 & _).
      simpl in Hc1, Hr1, Hn1. rewrite <- Hc2, <- Hr2, <- Hn2, <- Hc1, <- Hr1, <- Hn1.
      rewrite Z.sub_0_r, Z.eqb_refl. reflexivity.
Qed.

(** X20. On a new board with no mine, the first [reveal] of any in-bounds
    cell, called with more nested frames allowed than the board has cells,
    opens every cell of the board and sets [win], whatever the generator
    draws. *)
Theorem no_mines_first_reveal_wins (ncols nrows : Z) (depth : nat) (rnd : list nat)
  (c r : Z) :
  is_inbounds (new_Board ncols nrows 0) c r = true ->
  ncols * nrows < Z.of_nat depth ->
  exists b', reveal_limited depth rnd (new_Board ncols nrows 0) c r = Ok b' /\
    win b' = true /\ game_over b' = false /\
    revealed_count b' = ncols * nrows /\
    Forall (fun cell => is_revealed (state cell) = true) (cells b').
Proof.
  intros Hin Hd. pose proof (Inv_new_Board ncols nrows 0) as HI.
  rewrite (reveal_limited_enough depth rnd _ c r HI).
  - apply reveal_empty_board. assumption.
  - pose proof (count_hidden_le_length (new_Board ncols nrows 0)) as Hle.
    pose proof (inv_wf _ HI) as Hwf. unfold wf in Hwf.
    apply is_inbounds_iff in Hin. cbn [cols rows new_Board] in Hin, Hwf.
    rewrite Hwf in Hle. apply Nat2Z.inj_le in Hle.
    rewrite Nat2Z.inj_mul, !Z2Nat.id in Hle by lia. lia.
Qed.

Lemma no_mines_first_reveal_wins_witness :
  exists b', reveal_limited 17 [] (new_Board 4 4 0) 2 2 = Ok b' /\
    win b' = true /\ game_over b' = false /\
    revealed_count b' = 4 * 4 /\
    Forall (fun cell => is_revealed (state cell) = true) (cells b').
Proof. apply (no_mines_first_reveal_wins 4 4 17 [] 2 2); [reflexivity|lia]. Defined.

(** ** The counter *)

Lemma step_count_le b o : Inv b -> revealed_count b <= revealed_count (step b o).
Proof.
  intros HI. destruct o as [c r rnd|c r]; cbn [step].
  2:{ destruct (toggle_flag_flags b c r) as (_ & <- & _). lia. }
  pose proof (reveal_outcome_ok rnd b c r HI) as Hout.
  destruct Hout as [Hin|Hin Hp' Hpm|b0 Hin Hr _|b0 Hin Hr Hh Hf Hm|b0 b' Hin Hr _ _ _ HP];
    try lia; destruct (ready_same _ _ _ _ _ HI Hr) as (_ & _ & _ & <-); try lia.
  - pose proof (ready_inbounds _ _ _ _ _ c r HI Hr) as Hin0. destruct Hr as (HI0 & Hp0 & _).
    destruct (lose_spec b0 c r HI0 Hp0) as (_ & _ & _ & _ & _ & -> & _); try assumption;
      [congruence|lia].
  - apply Frame_count_le, HP.
Qed.

(** X21. On a reachable board [revealed_count] is between 0 and the number
    of cells, and no sequence of [reveal] and [toggle_flag] calls makes it
    smaller. *)
Theorem revealed_count_grows (b : Board) (ops : list op) :
  reachable b ->
  0 <= revealed_count b /\
  revealed_count b <= revealed_count (run b ops) /\
  revealed_count (run b ops) <= Z.of_nat (length (cells (run b ops))).
Proof.
  intros Hreach.
  assert (Hmono : forall ops b, Inv b -> revealed_count b <= revealed_count (run b ops)).
  { clear. induction ops as [|o ops IH]; intros b HI; simpl; [lia|].
    pose proof (step_count_le b o HI). pose proof (IH (step b o) (step_Inv b o HI)). lia. }
  pose proof (reachable_Inv b Hreach) as HI. split; [|split].
  - clear Hmono HI. induction Hreach as [ncols nrows mines|b o Hb IH]; [simpl; lia|].
    pose proof (step_count_le b o (reachable_Inv b Hb)). lia.
  - apply Hmono, HI.
  - pose proof (inv_count_le _ (run_Inv ops b HI)) as Hle.
    pose proof (count_if_le_length (fun cell => is_revealed (state cell))
                  (cells (run b ops))) as Hlen.
    fold (count_revealed (run b ops)) in Hlen. lia.
Qed.

Lemma revealed_count_grows_witness :
  revealed_count two_regions <= revealed_count (run two_regions [Reveal 3 0 []]).
Proof.
  apply (revealed_count_grows two_regions [Reveal 3 0 []]).
  apply run_reachable, reachable_new.
Defined.

(** ** A call cut by the recursion limit *)

(** X22. When [reveal], called with [depth] more nested frames allowed on a
    board reached by calls of which some may have been cut by
    [RecursionError], leaves with [RecursionError], [depth] is at most the
    number of hidden cells of the board, and the board it leaves has only had
    cells opened: every flag is as before and no revealed cell is hidden;
    [is_mine] and [adjacent] are as before if mines were placed before;
    [game_over] is as before and [win] is not taken back; [revealed_count]
    has grown by the number of cells that became revealed; and the invariant
    of reachable boards holds. *)
Theorem recursion_error_only_opens_cells (depth : nat) (rnd : list nat) (b : Board)
  (c r : Z) (b' : Board) :
  reachable_limited b -> reveal_limited depth rnd b c r = Raise RecursionError b' ->
  (depth <= count_hidden b)%nat /\
  cells_related R_open b b' /\
  (mines_placed b = true -> cells_related R_reveal b b') /\
  game_over b' = game_over b /\ (win b = true -> win b' = true) /\
  revealed_count b' - revealed_count b =
  Z.of_nat (count_revealed b') - Z.of_nat (count_revealed b) /\
  Inv b'.
Proof.
  intros Hreach Heq. pose proof (reachable_limited_Inv b Hreach) as HI. split.
  { destruct (le_lt_dec depth (count_hidden b)) as [Hle|Hlt]; [assumption|].
    pose proof (reveal_completes rnd b c r HI) as Hc.
    rewrite <- (reveal_limited_enough depth rnd b c r HI Hlt), Heq in Hc.
    contradiction. }
  destruct (reveal_limited_cut_short depth rnd b c r b' HI Heq)
    as [->|(Hin & b0 & Hr & HF)].
  { split; [apply related_refl, R_open_refl|].
    split; [intros _; apply related_refl, R_reveal_refl|].
    split; [reflexivity|]. split; [auto|]. split; [lia|exact HI]. }
  destruct (ready_same _ _ _ _ _ HI Hr) as (Hrel0 & Hw0 & Hgo0 & Hrc0).
  assert (Hrev0 : count_revealed b0 = count_revealed b).
  { symmetry. apply count_if_Forall2.
    eapply Forall2_impl; [exact (related_states _ _ _ Hrel0)|].
    simpl. intros x y (-> & _). reflexivity. }
  split.
  { eapply related_trans; [apply R_open_trans| |].
    - eapply related_impl; [apply R_place_open|exact Hrel0].
    - eapply related_impl; [apply R_reveal_open|apply HF]. }
  split.
  { intros Hp. rewrite (ready_placed _ _ _ _ _ Hr Hp) in HF. apply HF. }
  split; [rewrite (fr_game_over _ _ HF); assumption|].
  split; [intros Hw; apply (fr_win _ _ HF); congruence|].
  split; [|apply HF]. pose proof (fr_count _ _ HF). lia.
Qed.

Lemma recursion_error_only_opens_cells_witness :
  exists b',
    reveal_limited 3 [] (new_Board 5 1 0) 0 0 = Raise RecursionError b' /\
    (3 <= count_hidden (new_Board 5 1 0))%nat /\
    game_over b' = false /\
    revealed_count b' - 0 = Z.of_nat (count_revealed b') - 0.
Proof.
  eexists. split; [vm_compute; reflexivity|].
  match goal with |- context [revealed_count ?b'] =>
    destruct (recursion_error_only_opens_cells 3 [] (new_Board 5 1 0) 0 0 b')
      as (Hd & _ & _ & Hgo & _ & Hcnt & _); [apply reachable_limited_new|reflexivity|]
  end.
  split; [exact Hd|]. split; [exact Hgo|exact Hcnt].
Defined.
